(** * Streaming: shard-file lifecycle, prefix allocation and dual-row writer

    A shallow embedding of
      - [streaming/base/shared/prefix.py]      (module [Prefix]),
      - [streaming/format/base/file.py]        (module [File]),
      - [streaming/format/base/writer/dual_row.py] (module [DualRow]),
    followed by the properties established about them. *)

From Stdlib Require Import ZArith Lia List Ascii String.
From stdpp Require Import base tactics option list sorting gmap strings.

Local Open Scope Z_scope.

(** ** Python values shared by the three modules *)

(** A Python [str] is a sequence of Unicode code points. *)
Abbreviation pystr := (list Z).

(** A Python [bytes] object; every element is meant to lie in [0, 256). *)
Abbreviation pybytes := (list Z).

(** ** Programs that thread a state and may raise

    Python code that mutates the world and raises exceptions is written as
    a function from the state to an outcome and the state it leaves behind;
    the effects made before an exception are kept. *)

Inductive result (E A : Type) : Type :=
| Ok (a : A)
| Raise (e : E).
Arguments Ok {E A} a.
Arguments Raise {E A} e.

Definition prog (S E A : Type) : Type := S -> result E A * S.

Definition ret {S E A} (a : A) : prog S E A := fun s => (Ok a, s).

Definition raise {S E A} (e : E) : prog S E A := fun s => (Raise e, s).

Definition bind {S E A B} (m : prog S E A) (k : A -> prog S E B) : prog S E B :=
  fun s =>
    match m s with
    | (Ok a, s') => k a s'
    | (Raise e, s') => (Raise e, s')
    end.

Definition get {S E} : prog S E S := fun s => (Ok s, s).

Definition modify {S E} (f : S -> S) : prog S E unit := fun s => (Ok tt, f s).

Declare Scope prog_scope.
Delimit Scope prog_scope with prog.
Notation "'let*' x ':=' m 'in' k" := (bind m (fun x => k))
  (at level 10, x name, m at level 100, k at level 200) : prog_scope.
Notation "m ';;' k" := (bind m (fun _ => k))
  (at level 100, k at level 200, right associativity) : prog_scope.
Local Open Scope prog_scope.

Module Prefix.

(** *** Text primitives used by [_pack_locals] and [_unpack_locals] *)

(** Code points a [str] may hold. *)
Definition is_code_point (c : Z) : bool := (0 <=? c) && (c <? 0x110000).

(** Surrogates are legal inside a [str] but cannot be encoded. *)
Definition is_surrogate (c : Z) : bool := (0xD800 <=? c) && (c <=? 0xDFFF).

(** [c.encode('utf-8')] for one code point; [None] is [UnicodeEncodeError]. *)
Definition utf8_encode_char (c : Z) : option pybytes :=
  if c <? 0 then None
  else if c <? 0x80 then Some [c]
  else if c <? 0x800 then Some [0xC0 + c / 64; 0x80 + c mod 64]
  else if c <? 0x10000 then
    if is_surrogate c then None
    else Some [0xE0 + c / 4096; 0x80 + (c / 64) mod 64; 0x80 + c mod 64]
  else if c <? 0x110000 then
    Some [0xF0 + c / 262144; 0x80 + (c / 4096) mod 64;
          0x80 + (c / 64) mod 64; 0x80 + c mod 64]
  else None.

(** [text.encode('utf-8')]. *)
Fixpoint utf8_encode (text : pystr) : option pybytes :=
  match text with
  | [] => Some []
  | c :: text' =>
      match utf8_encode_char c, utf8_encode text' with
      | Some bs, Some rest => Some (bs ++ rest)
      | _, _ => None
      end
  end.

(** The strings [encode] accepts: code points only, none a surrogate. *)
Definition encodable (text : pystr) : Prop :=
  Forall (fun c => is_code_point c = true /\ is_surrogate c = false) text.

Definition is_continuation (b : Z) : bool := (0x80 <=? b) && (b <=? 0xBF).

(** [data.decode('utf-8')] with the strict error handler; [None] is
    [UnicodeDecodeError]. Overlong forms, surrogates and values past
    U+10FFFF are rejected. *)
Fixpoint utf8_decode (data : pybytes) : option pystr :=
  match data with
  | [] => Some []
  | b0 :: r0 =>
      if (0 <=? b0) && (b0 <? 0x80) then cons b0 <$> utf8_decode r0
      else if (0xC0 <=? b0) && (b0 <? 0xE0) then
        match r0 with
        | b1 :: r1 =>
            let c := (b0 - 0xC0) * 64 + (b1 - 0x80) in
            if is_continuation b1 && (0x80 <=? c)
            then cons c <$> utf8_decode r1 else None
        | _ => None
        end
      else if (0xE0 <=? b0) && (b0 <? 0xF0) then
        match r0 with
        | b1 :: b2 :: r2 =>
            let c := (b0 - 0xE0) * 4096 + (b1 - 0x80) * 64 + (b2 - 0x80) in
            if is_continuation b1 && is_continuation b2 && (0x800 <=? c)
               && negb (is_surrogate c)
            then cons c <$> utf8_decode r2 else None
        | _ => None
        end
      else if (0xF0 <=? b0) && (b0 <? 0xF8) then
        match r0 with
        | b1 :: b2 :: b3 :: r3 =>
            let c := (b0 - 0xF0) * 262144 + (b1 - 0x80) * 4096
                     + (b2 - 0x80) * 64 + (b3 - 0x80) in
            if is_continuation b1 && is_continuation b2 && is_continuation b3
               && (0x10000 <=? c) && (c <? 0x110000)
            then cons c <$> utf8_decode r3 else None
        | _ => None
        end
      else None
  end.

(** [sep.join(parts)]. *)
Fixpoint join (sep : pystr) (parts : list pystr) : pystr :=
  match parts with
  | [] => []
  | [p] => p
  | p :: rest => p ++ sep ++ join sep rest
  end.

(** [text.split(sep)] for a one-character separator: always at least one
    piece, so [''.split(sep) == ['']]. *)
Fixpoint split (sep : Z) (text : pystr) : list pystr :=
  match text with
  | [] => [[]]
  | c :: text' =>
      if c =? sep then [] :: split sep text'
      else match split sep text' with
           | w :: ws => (c :: w) :: ws
           | [] => [[c]]
           end
  end.

(** Python's ordering of [str]: lexicographic on code points. *)
Fixpoint str_leb (a b : pystr) : bool :=
  match a, b with
  | [], _ => true
  | _ :: _, [] => false
  | x :: a', y :: b' => (x <? y) || ((x =? y) && str_leb a' b')
  end.

Definition str_le (a b : pystr) : Prop := str_leb a b = true.

Global Instance str_le_dec a b : Decision (str_le a b).
Proof. unfold str_le. apply _. Defined.

(** [sorted(dirnames)] on a [set] of strings. *)
Definition sorted (dirnames : gset pystr) : list pystr :=
  merge_sort str_le (elements dirnames).

(** *** NumPy scalars and slices *)

(** [np.int32(n)]: the value wraps to 32 bits, two's complement. *)
Definition np_int32 (n : Z) : Z := (n + 2^31) mod 2^32 - 2^31.

(** [x.tobytes()] of an [np.int32]: four bytes, least significant first. *)
Definition int32_tobytes (x : Z) : pybytes :=
  let u := x mod 2^32 in
  [u mod 256; (u / 256) mod 256; (u / 65536) mod 256; (u / 16777216) mod 256].

(** [np.frombuffer(buf, np.int32)[0]]; the buffer is [data[:4]], so it holds
    at most four bytes. A buffer that is not four bytes long raises. *)
Definition int32_frombuffer (buf : pybytes) : option Z :=
  match buf with
  | [b0; b1; b2; b3] =>
      Some (np_int32 (b0 + 256 * b1 + 65536 * b2 + 16777216 * b3))
  | _ => None
  end.

(** [data[start:stop]] for a non-negative [start]; a negative [stop] counts
    from the end, and both ends are clipped to the length. *)
Definition slice (data : pybytes) (start stop : Z) : pybytes :=
  let len := Z.of_nat (length data) in
  let stop' := if stop <? 0 then Z.max 0 (len + stop) else Z.min stop len in
  take (Z.to_nat (stop' - start)) (drop (Z.to_nat start) data).

(** *** [_pack_locals] and [_unpack_locals] *)

Definition NUL : Z := 0.

(** [_pack_locals(dirnames)]; [None] when the text cannot be encoded. *)
Definition _pack_locals (dirnames : gset pystr) : option pybytes :=
  let text := join [NUL] (sorted dirnames) in
  data ← utf8_encode text;
  let size := 4 + Z.of_nat (length data) in
  Some (int32_tobytes (np_int32 size) ++ data).

(** [_unpack_locals(data)]; [None] when the header or the text is
    malformed. *)
Definition _unpack_locals (data : pybytes) : option (gset pystr) :=
  size ← int32_frombuffer (take 4 data);
  text ← utf8_decode (slice data 4 size);
  Some (list_to_set (split NUL text)).

(** *** [get_shm_prefix]

    One participant's run of the protocol against the shared memory of its
    machine. Names of shared resources are ASCII and are kept as [string];
    directory names come from the user and are [pystr]. *)

(** The part of [World] the function reads. *)
Record World := {
  is_local_leader : bool;
  num_ranks : Z;
  rank : Z
}.

(** What one participant does to the outside world, in order. *)
Inductive event :=
| EvAttach (name : string)
| EvCreate (name : string) (size : nat)
| EvWrite (name : string)
| EvInitProcessGroup (backend : string) (rank world_size : Z)
| EvBarrier
| EvDestroyProcessGroup.

(** The machine as seen by the participant: the named shared-memory
    segments, the state of [torch.distributed], and the log of its
    actions. *)
Record State := {
  shm : gmap string pybytes;
  dist_available : bool;
  dist_initialized : bool;
  cuda_available : bool;
  nccl_available : bool;
  trace : list event
}.

Inductive exn :=
| ReusedLocalDirectory (dirname : pystr)
    (* ValueError('Reused local directory: {dirname}. ...') *)
| ReusedLocalDirectoryVs (mine theirs : list pystr)
    (* ValueError('Reused local directory: {mine} vs {theirs}. ...') *)
| ShmPrefixNotRegistered
    (* RuntimeError('Internal error: shm prefix was not registered by
       local leader') *)
| FileExistsError (name : string)
| MalformedRecord.
    (* whatever [_unpack_locals] raises on bytes it cannot read *)

Abbreviation M := (prog State exn).

Definition emit (e : event) : M unit :=
  modify (fun st =>
    {| shm := shm st; dist_available := dist_available st;
       dist_initialized := dist_initialized st;
       cuda_available := cuda_available st;
       nccl_available := nccl_available st;
       trace := trace st ++ [e] |}).

Definition set_shm (m : gmap string pybytes) : M unit :=
  modify (fun st =>
    {| shm := m; dist_available := dist_available st;
       dist_initialized := dist_initialized st;
       cuda_available := cuda_available st;
       nccl_available := nccl_available st;
       trace := trace st |}).

Definition set_dist_initialized (b : bool) : M unit :=
  modify (fun st =>
    {| shm := shm st; dist_available := dist_available st;
       dist_initialized := b;
       cuda_available := cuda_available st;
       nccl_available := nccl_available st;
       trace := trace st |}).

(** [SharedMemory(name, False)] inside [try]: [None] when attaching fails,
    otherwise [bytes(shm.buf)]. *)
Definition attach (name : string) : M (option pybytes) :=
  emit (EvAttach name);;
  let* st := get in
  ret (shm st !! name).

(** [SharedMemory(name, True, size)]: a fresh zero-filled segment. *)
Definition create (name : string) (size : nat) : M unit :=
  emit (EvCreate name size);;
  let* st := get in
  match shm st !! name with
  | Some _ => raise (FileExistsError name)
  | None => set_shm (<[name := replicate size 0]> (shm st))
  end.

(** [shm.buf[:len(data)] = data]. *)
Definition write_buf (name : string) (data : pybytes) : M unit :=
  emit (EvWrite name);;
  let* st := get in
  match shm st !! name with
  | Some buf => set_shm (<[name := data ++ drop (length data) buf]> (shm st))
  | None => ret tt
  end.

Definition digit (d : Z) : ascii := ascii_of_nat (48 + Z.to_nat (d mod 10)).

(** [f'{prefix_int:06}'] for [0 <= prefix_int < 10**6]. *)
Definition format_06 (prefix_int : Z) : string :=
  String (digit (prefix_int / 100000))
 (String (digit (prefix_int / 10000))
 (String (digit (prefix_int / 1000))
 (String (digit (prefix_int / 100))
 (String (digit (prefix_int / 10))
 (String (digit prefix_int) EmptyString))))).

Definition locals_name (prefix_int : Z) : string :=
  (format_06 prefix_int ++ "_locals")%string.

(** The duplicate check at the top of [get_shm_prefix]: the loop that
    builds [my_locals_set], started from the set built so far. *)
Fixpoint check_my_locals (my_locals : list pystr) (my_locals_set : gset pystr)
  : M (gset pystr) :=
  match my_locals with
  | [] => ret my_locals_set
  | dirname :: rest =>
      if decide (dirname ∈ my_locals_set)
      then raise (ReusedLocalDirectory dirname)
      else check_my_locals rest (my_locals_set ∪ {[dirname]})
  end.

(** The number of slots a scan visits: [range(10**6)]. *)
Definition SCAN_RANGE : nat := Z.to_nat 1000000.

(** The leader's [for prefix_int in range(10**6)] loop with [n] iterations
    left, the next one at [prefix_int]. It returns the value the loop
    variable has when the loop is left. *)
Fixpoint leader_scan (my_locals_set : gset pystr) (n : nat) (prefix_int : Z)
  : M Z :=
  match n with
  | O => ret (prefix_int - 1)
  | S n' =>
      let* got := attach (locals_name prefix_int) in
      match got with
      | None => ret prefix_int
      | Some buf =>
          match _unpack_locals buf with
          | None => raise MalformedRecord
          | Some their_locals_set =>
              if decide (my_locals_set ∩ their_locals_set ≠ ∅)
              then raise (ReusedLocalDirectoryVs (sorted my_locals_set)
                                                 (sorted their_locals_set))
              else leader_scan my_locals_set n' (prefix_int + 1)
          end
      end
  end.

(** The other participants' [for prefix_int in range(10**6)] loop. *)
Fixpoint follower_scan (my_locals_set : gset pystr) (n : nat) (prefix_int : Z)
  : M Z :=
  match n with
  | O => ret (prefix_int - 1)
  | S n' =>
      let* got := attach (locals_name prefix_int) in
      match got with
      | None => raise ShmPrefixNotRegistered
      | Some buf =>
          match _unpack_locals buf with
          | None => raise MalformedRecord
          | Some their_locals_set =>
              if decide (my_locals_set = their_locals_set)
              then ret prefix_int
              else follower_scan my_locals_set n' (prefix_int + 1)
          end
      end
  end.

(** The leader's block of [get_shm_prefix]: scan, then record the locals
    at the slot the scan stopped at. *)
Definition register (my_locals_set : gset pystr) : M Z :=
  let* prefix_int := leader_scan my_locals_set SCAN_RANGE 0 in
  let name := locals_name prefix_int in
  match _pack_locals my_locals_set with
  | None => raise MalformedRecord
  | Some data =>
      create name (length data);;
      write_buf name data;;
      ret prefix_int
  end.

(** "Distributed barrier over all ranks, possibly setting up dist to do
    so." The result is [destroy_dist]. *)
Definition first_barrier (world : World) : M bool :=
  if 1 <? num_ranks world then
    let* st := get in
    let* destroy_dist :=
      if dist_available st && negb (dist_initialized st) then
        let backend :=
          if cuda_available st && nccl_available st
          then "nccl"%string else "gloo"%string in
        emit (EvInitProcessGroup backend (rank world) (num_ranks world));;
        set_dist_initialized true;;
        ret true
      else ret false in
    emit EvBarrier;;
    ret destroy_dist
  else ret false.

(** "Distributed barrier, then tear down dist if we set it up." *)
Definition second_barrier (destroy_dist : bool) : M unit :=
  let* st := get in
  (if dist_available st && dist_initialized st then emit EvBarrier else ret tt);;
  if destroy_dist
  then emit EvDestroyProcessGroup;; set_dist_initialized false
  else ret tt.

(** [get_shm_prefix(my_locals, world)]. The handle that is returned is
    named by the segment it is attached to. *)
Definition get_shm_prefix (my_locals : list pystr) (world : World)
  : M (string * string) :=
  (* Check my locals for overlap. *)
  let* my_locals_set := check_my_locals my_locals ∅ in
  (* Local leader goes first, checking and registering. *)
  let* led :=
    if is_local_leader world
    then let* prefix_int := register my_locals_set in ret (Some prefix_int)
    else ret None in
  let* destroy_dist := first_barrier world in
  (* Non-local leaders go next, searching for match. *)
  let* prefix_int :=
    match led with
    | Some prefix_int => ret prefix_int
    | None => follower_scan my_locals_set SCAN_RANGE 0
    end in
  second_barrier destroy_dist;;
  ret (format_06 prefix_int, locals_name prefix_int).

(** The state after the participant has done [evs] more. *)
Definition log (st : State) (evs : list event) : State :=
  {| shm := shm st; dist_available := dist_available st;
     dist_initialized := dist_initialized st;
     cuda_available := cuda_available st;
     nccl_available := nccl_available st;
     trace := trace st ++ evs |}.

(** The attach attempts of a scan over slots [i, i + k). *)
Definition attaches (i : Z) (k : nat) : list event :=
  (fun j => EvAttach (locals_name (i + Z.of_nat j))) <$> seq 0 k.

(** A slot that holds a record of some other directory set. *)
Definition foreign (my : gset pystr) (st : State) (slot : Z) : Prop :=
  exists buf theirs,
    shm st !! locals_name slot = Some buf /\
    _unpack_locals buf = Some theirs /\ my <> theirs.

(** A machine on which every one of the [10**6] slots holds the record
    [rec]. *)
Definition full_registry (rec : pybytes) : gmap string pybytes :=
  list_to_map
    ((fun j => (locals_name (Z.of_nat j), rec)) <$> seq 0 SCAN_RANGE).

(** A participant that is not the leader, alone in its job, on a machine
    whose [10**6] slots all hold the record of the directory set
    [{'/b'}]. *)
Definition lone_follower : World :=
  {| is_local_leader := false; num_ranks := 1; rank := 0 |}.

Definition record_of_b : pybytes := [6; 0; 0; 0; 47; 98].

Definition crowded_machine : State :=
  {| shm := full_registry record_of_b;
     dist_available := true; dist_initialized := false;
     cuda_available := false; nccl_available := false; trace := [] |}.

(** A quiet machine, the leader of a two-rank job and one of its
    followers. *)
Definition quiet_machine : State :=
  {| shm := ∅; dist_available := true; dist_initialized := false;
     cuda_available := false; nccl_available := false; trace := [] |}.

Definition leader : World :=
  {| is_local_leader := true; num_ranks := 2; rank := 0 |}.

Definition follower : World :=
  {| is_local_leader := false; num_ranks := 2; rank := 1 |}.

(** *** Vocabulary of the further properties *)

(** A slot that holds a record whose directories are none of [my]. *)
Definition disjoint_slot (my : gset pystr) (st : State) (slot : Z) : Prop :=
  exists buf theirs,
    shm st !! locals_name slot = Some buf /\
    _unpack_locals buf = Some theirs /\ my ∩ theirs = ∅.

(** The state with the shared memory replaced and [evs] more logged. *)
Definition update (st : State) (m : gmap string pybytes) (evs : list event)
  : State :=
  {| shm := m; dist_available := dist_available st;
     dist_initialized := dist_initialized st;
     cuda_available := cuda_available st;
     nccl_available := nccl_available st;
     trace := trace st ++ evs |}.

(** Every segment of [st] is still there, with the same bytes, in [st']. *)
Definition segments_kept (st st' : State) : Prop :=
  forall name buf, shm st !! name = Some buf -> shm st' !! name = Some buf.

Definition is_barrier (e : event) : bool :=
  match e with EvBarrier => true | _ => false end.

(** Attaching to, creating or writing a shared-memory segment. *)
Definition is_shm_access (e : event) : bool :=
  match e with
  | EvAttach _ | EvCreate _ _ | EvWrite _ => true
  | _ => false
  end.

End Prefix.


Module File.

(** *** Collaborators of [ShardFile] *)

(** [streaming.format.base.phaser.Locality]. *)
Inductive Locality := DNE | REMOTE | LOCAL.

Global Instance Locality_eq_dec : EqDecision Locality.
Proof. solve_decision. Defined.

(** What [load], [init_dir] and the evictions do, in order: a phase
    downloaded, decompressed into the next or canonicalized into the next,
    the keep policy asked, a phase's [evict()] called. *)
Inductive event :=
| EvDownload (path : string)
| EvUnzip (src dst : string)
| EvCanonicalize (src dst : string)
| EvPolicy (phase_locs : list Locality) (phase_dels : list bool)
| EvEvict (path : string).

(** The local directory, and the log of what was done. *)
Record Disk := {
  fs : gmap string pybytes;
  trace : list event
}.

Inductive message :=
| UnzipMetadataMissing
    (* 'Wanted to unzip a shard, but required metadata is missing.' *)
| CompressedSizeMismatch (got expected : Z)
    (* 'Compressed data does not match the expected size: ...' *)
| DecompressedSizeMismatch (got expected : Z)
    (* 'Decompressed data does not match the expected size: ...' *)
| CanonicalizeMetadataMissing
    (* 'Wanted to canonicalize a shard, but required metadata is missing.' *)
| CanonicalizedSizeMismatch (got expected : Z)
    (* 'Canonicalized data does not match the expected size: ...' *)
| EvictInvalidPhase.
    (* 'Internal error: attempted to evict a phase that is not valid.' *)

Inductive exn :=
| RuntimeError (msg : message)
| ValueError (msg : message)
| FileNotFoundError (path : string)
| RemoteFetchError (path : string)
| SizeLimitExceeded (size limit : Z)
| UnsupportedFormatNone.
    (* TypeError('unsupported format string passed to
       NoneType.__format__') *)

(** The specification's names for the failures of this module: a size
    check that fails is a validation error, and evicting a phase that is
    not there is an internal consistency error. *)
Definition is_ValidationError (e : exn) : bool :=
  match e with ValueError _ => true | _ => false end.

Definition is_InternalConsistencyError (e : exn) : bool :=
  match e with RuntimeError EvictInvalidPhase => true | _ => false end.

(** What [raise ValueError(f'...: {got:,} bytes vs {expected:,} bytes.')]
    raises: the [ValueError], unless [expected] is [None], which the
    format [:,] turns down while the message is being built. *)
Definition size_mismatch (msg : Z -> Z -> message) (got : Z)
    (expected : option Z) : exn :=
  match expected with
  | Some n => ValueError (msg got n)
  | None => UnsupportedFormatNone
  end.

Abbreviation M := (prog Disk exn).

Definition emit (e : event) : M unit :=
  modify (fun d => {| fs := fs d; trace := trace d ++ [e] |}).

Definition set_fs (m : gmap string pybytes) : M unit :=
  modify (fun d => {| fs := m; trace := trace d |}).

Definition len (data : pybytes) : Z := Z.of_nat (length data).

(** [open(path, 'rb').read()]. *)
Definition read_file (path : string) : M pybytes :=
  let* d := get in
  match fs d !! path with
  | Some data => ret data
  | None => raise (FileNotFoundError path)
  end.

(** [with open(path, 'wb') as out: out.write(data)]. *)
Definition write_file (path : string) (data : pybytes) : M unit :=
  let* d := get in set_fs (<[path := data]> (fs d)).

(** [os.rename(src, dst)]. *)
Definition rename (src dst : string) : M unit :=
  let* d := get in
  match fs d !! src with
  | Some data => set_fs (<[dst := data]> (delete src (fs d)))
  | None => raise (FileNotFoundError src)
  end.

(** [os.stat(path).st_size]. *)
Definition stat_size (path : string) : M Z :=
  let* d := get in
  match fs d !! path with
  | Some data => ret (len data)
  | None => raise (FileNotFoundError path)
  end.

(** [ShardFilePhase]: the expected size and the local path of one
    representation of the file. *)
Record ShardFilePhase := {
  filename : string;
  size : option Z
}.

Global Instance ShardFilePhase_eq_dec : EqDecision ShardFilePhase.
Proof. solve_decision. Defined.

(** [Phaser]: the keep policy, as the function from the localities of the
    three phases to the deletion vector, whose entries are kept as the
    truth values [evict_phases] tests them for. *)
Record Phaser := {
  get_phase_deletions : list Locality -> list bool
}.

(** The part of [StreamConf] a shard file reads; [remote] stands for the
    objects of the stream's remote, by the path of the phase they back. *)
Record StreamConf := {
  remote : gmap string pybytes;
  download_max_size : option Z;
  safe_keep_phases : Phaser
}.

(** Modelled from the spec: [ShardFilePhase.get_local_filename], "local
    path" of the phase. *)
Definition get_local_filename (phase : ShardFilePhase) : string :=
  filename phase.

(** Modelled from the spec: [ShardFilePhase.probe], "membership test
    against a recursive directory listing, no filesystem access". *)
Definition probe (phase : ShardFilePhase) (listing : gset string) : bool :=
  bool_decide (get_local_filename phase ∈ listing).

(** Modelled from the spec: [ShardFilePhase.is_local], "authoritative
    existence check". *)
Definition is_local (phase : ShardFilePhase) : M bool :=
  let* d := get in
  ret (bool_decide (is_Some (fs d !! get_local_filename phase))).

(** Modelled from the spec: [ShardFilePhase.init_dir], "reconciles startup
    state; returns contributed size if present, else 0; never
    downloads". *)
Definition phase_init_dir (phase : ShardFilePhase) (listing : gset string)
  : M Z :=
  if probe phase listing then
    let* d := get in
    match fs d !! get_local_filename phase with
    | Some data => ret (len data)
    | None => ret 0
    end
  else ret 0.

(** Modelled from the spec: [ShardFilePhase.download], "remote→local,
    atomic (temp path + rename); fails with RemoteFetchError on missing
    object or size mismatch". *)
Definition download (stream : StreamConf) (phase : ShardFilePhase) : M Z :=
  let path := get_local_filename phase in
  match remote stream !! path with
  | None => raise (RemoteFetchError path)
  | Some data =>
      if bool_decide (size phase = None \/ size phase = Some (len data)) then
        write_file (path ++ ".tmp") data;;
        rename (path ++ ".tmp") path;;
        emit (EvDownload path);;
        ret (len data)
      else raise (RemoteFetchError path)
  end.

(** Modelled from the spec: [ShardFilePhase.validate_for_download], "fails
    with SizeLimitExceeded if expected size exceeds a configured
    maximum". *)
Definition validate_for_download (stream : StreamConf)
    (phase : ShardFilePhase) : M unit :=
  match download_max_size stream, size phase with
  | Some limit, Some n =>
      if limit <? n then raise (SizeLimitExceeded n limit) else ret tt
  | _, _ => ret tt
  end.

(** Modelled from the spec: [ShardFilePhase.evict], "deletes local file if
    present; idempotent no-op otherwise", returning minus the bytes
    freed. *)
Definition evict_phase (phase : ShardFilePhase) : M Z :=
  let path := get_local_filename phase in
  emit (EvEvict path);;
  let* d := get in
  match fs d !! path with
  | Some data => set_fs (delete path (fs d));; ret (- len data)
  | None => ret 0
  end.

(** *** [ShardFile] *)

Record ShardFile := {
  stream : StreamConf;
  zip_phase : option ShardFilePhase;
  zip_algo : option string;
  raw_phase : ShardFilePhase;
  can_algo : option string;
  can_phase : option ShardFilePhase
}.

(** [self.phases = zip_phase, raw_phase, can_phase]. *)
Definition phases (self : ShardFile) : list (option ShardFilePhase) :=
  [zip_phase self; Some (raw_phase self); can_phase self].

(** [ShardFile.validate]. The [break] ends the loop after its first
    iteration, whatever the first element is. *)
Definition validate (self : ShardFile) : M unit :=
  match download_max_size (stream self) with
  | Some _ =>
      match phases self with
      | phase :: _ =>
          match phase with
          | Some p => validate_for_download (stream self) p
          | None => ret tt
          end
      | [] => ret tt
      end
  | None => ret tt
  end.

(** [ShardFile.locate]. *)
Definition locate (self : ShardFile) (listing : gset string) : list Locality :=
  (fun phase : option ShardFilePhase =>
     match phase with
     | Some p => if probe p listing then LOCAL else REMOTE
     | None => DNE
     end) <$> phases self.

(** The loop of [ShardFile.evict_phases] over
    [zip(self.phases, phase_dels)]. *)
Fixpoint evict_phases_loop (pairs : list (option ShardFilePhase * bool))
    (ddu : Z) : M Z :=
  match pairs with
  | [] => ret ddu
  | (phase, phase_del) :: rest =>
      if phase_del then
        match phase with
        | None => raise (RuntimeError EvictInvalidPhase)
        | Some p =>
            let* freed := evict_phase p in
            evict_phases_loop rest (ddu + freed)
        end
      else evict_phases_loop rest ddu
  end.

(** [ShardFile.evict_phases]. *)
Definition evict_phases (self : ShardFile) (phase_dels : list bool) : M Z :=
  evict_phases_loop (zip (phases self) phase_dels) 0.

(** The loop of [ShardFile.evict]. *)
Fixpoint evict_loop (ps : list (option ShardFilePhase)) (ddu : Z) : M Z :=
  match ps with
  | [] => ret ddu
  | Some p :: rest =>
      let* freed := evict_phase p in evict_loop rest (ddu + freed)
  | None :: rest => evict_loop rest ddu
  end.

(** [ShardFile.evict]. *)
Definition evict (self : ShardFile) : M Z := evict_loop (phases self) 0.

(** The first loop of [ShardFile.init_dir]. *)
Fixpoint init_dir_loop (listing : gset string)
    (ps : list (option ShardFilePhase)) (phase_locs : list Locality) (du : Z)
  : M (list Locality * Z) :=
  match ps with
  | [] => ret (phase_locs, du)
  | Some p :: rest =>
      let* phase_du := phase_init_dir p listing in
      if phase_du =? 0
      then init_dir_loop listing rest (phase_locs ++ [REMOTE]) du
      else init_dir_loop listing rest (phase_locs ++ [LOCAL]) (du + phase_du)
  | None :: rest => init_dir_loop listing rest (phase_locs ++ [DNE]) du
  end.

(** [ShardFile.init_dir]. *)
Definition init_dir (self : ShardFile) (listing : gset string) : M Z :=
  let* collected := init_dir_loop listing (phases self) [] 0 in
  let phase_locs := fst collected in
  let du := snd collected in
  let phase_dels :=
    get_phase_deletions (safe_keep_phases (stream self)) phase_locs in
  emit (EvPolicy phase_locs phase_dels);;
  let* freed := evict_phases self phase_dels in
  ret (du + freed).

(** A Python [Optional[str]] is true when it is a non-empty string. *)
Definition truthy (s : option string) : bool :=
  match s with
  | Some (String _ _) => true
  | _ => false
  end.

Section Codecs.

(** [streaming.compression.decompress] and
    [streaming.format.base.canonical.canonicalize], through what they do
    to the bytes. *)
Variable decompress : option string -> pybytes -> pybytes.
Variable canonicalize : string -> pybytes -> pybytes.

(** [canonicalize(algo, src, dst)] reads [src] and writes [dst]. *)
Definition run_canonicalize (algo src dst : string) : M unit :=
  let* data := read_file src in
  write_file dst (canonicalize algo data);;
  emit (EvCanonicalize src dst).

(** [ShardFile._unzip]. *)
Definition _unzip (self : ShardFile) : M Z :=
  match zip_phase self with
  | None => raise (RuntimeError UnzipMetadataMissing)
  | Some zp =>
      (* Read the zip phase data. *)
      let zip_filename := get_local_filename zp in
      let* zip_data := read_file zip_filename in
      (* Mandatory cheap compressed phase size check. *)
      if negb (bool_decide (Some (len zip_data) = size zp)) then
        raise (size_mismatch CompressedSizeMismatch (len zip_data) (size zp))
      else
        (* Decompress. *)
        let raw_data := decompress (zip_algo self) zip_data in
        (* Mandatory cheap decompressed phase size check. *)
        if negb (bool_decide (Some (len raw_data) = size (raw_phase self))) then
          raise (size_mismatch DecompressedSizeMismatch (len raw_data)
                               (size (raw_phase self)))
        else
          (* Save the raw phase data. *)
          let raw_filename := get_local_filename (raw_phase self) in
          let tmp_filename := (raw_filename ++ ".tmp")%string in
          write_file tmp_filename raw_data;;
          rename tmp_filename raw_filename;;
          emit (EvUnzip zip_filename raw_filename);;
          (* Collect the locality of each phase. *)
          let* can_loc :=
            match can_phase self with
            | Some cp =>
                let* b := is_local cp in ret (if b then LOCAL else REMOTE)
            | None => ret DNE
            end in
          let phase_locs := [LOCAL; LOCAL; can_loc] in
          (* Given localities and policy, determine phase evictions. *)
          let phase_dels :=
            get_phase_deletions (safe_keep_phases (stream self)) phase_locs in
          emit (EvPolicy phase_locs phase_dels);;
          (* Delete phases we don't want. *)
          let* freed := evict_phases self phase_dels in
          ret (len raw_data + freed)
  end.

(** [ShardFile._canonicalize]. *)
Definition _canonicalize (self : ShardFile) : M Z :=
  match can_algo self, can_phase self with
  | Some algo, Some cp =>
      if negb (truthy (can_algo self)) then
        raise (RuntimeError CanonicalizeMetadataMissing)
      else
        (* Canonicalize the file from raw to can phases. *)
        let raw_filename := get_local_filename (raw_phase self) in
        let can_filename := get_local_filename cp in
        run_canonicalize algo raw_filename can_filename;;
        (* Mandatory cheap canonicalized phase size check. *)
        let* can_size := stat_size can_filename in
        let* _ :=
          match size cp with
          | Some expected =>
              if negb (can_size =? expected)
              then raise (ValueError
                            (CanonicalizedSizeMismatch can_size expected))
              else ret tt
          | None => ret tt
          end in
        (* Collect the locality of each phase. *)
        let* zip_loc :=
          match zip_phase self with
          | Some zp =>
              let* b := is_local zp in ret (if b then LOCAL else REMOTE)
          | None => ret DNE
          end in
        let phase_locs := [zip_loc; LOCAL; LOCAL] in
        (* Given localities and policy, determine phase evictions. *)
        let phase_dels :=
          get_phase_deletions (safe_keep_phases (stream self)) phase_locs in
        emit (EvPolicy phase_locs phase_dels);;
        (* Delete phases we don't want. *)
        let* freed := evict_phases self phase_dels in
        ret (can_size + freed)
  | _, _ => raise (RuntimeError CanonicalizeMetadataMissing)
  end.

(** [ShardFile._load_raw]. *)
Definition _load_raw (self : ShardFile) : M Z :=
  let* raw_local := is_local (raw_phase self) in
  if raw_local then ret 0
  else
    match zip_phase self with
    | Some zp =>
        let* zip_local := is_local zp in
        if zip_local then _unzip self
        else
          let* a := download (stream self) zp in
          let* b := _unzip self in
          ret (a + b)
    | None => download (stream self) (raw_phase self)
    end.

(** [ShardFile.load]. *)
Definition load (self : ShardFile) : M Z :=
  match can_phase self with
  | Some cp =>
      let* can_local := is_local cp in
      if can_local then ret 0
      else
        let* a := _load_raw self in
        let* b := _canonicalize self in
        ret (a + b)
  | None => _load_raw self
  end.

End Codecs.

(** *** Vocabulary of the properties *)

(** The state after [evs] more has been logged. *)
Definition log (d : Disk) (evs : list event) : Disk :=
  {| fs := fs d; trace := trace d ++ evs |}.

(** The phases a deletion vector asks to delete, in order. *)
Fixpoint flagged (pairs : list (option ShardFilePhase * bool))
  : list ShardFilePhase :=
  match pairs with
  | [] => []
  | (Some p, true) :: rest => p :: flagged rest
  | _ :: rest => flagged rest
  end.

(** A deletion vector that flags a slot whose phase is not configured. *)
Definition flags_unconfigured (self : ShardFile) (phase_dels : list bool)
  : Prop :=
  (None, true) ∈ zip (phases self) phase_dels.

Global Instance flags_unconfigured_dec self phase_dels :
  Decision (flags_unconfigured self phase_dels).
Proof. unfold flags_unconfigured. apply _. Defined.

(** Calling [evict()] on each of [ps] in turn, from [d], gives the deltas
    [deltas] and leaves [d']. *)
Inductive evicts : list ShardFilePhase -> Disk -> list Z -> Disk -> Prop :=
| evicts_nil d : evicts [] d [] d
| evicts_cons p ps d delta d1 deltas d2 :
    evict_phase p d = (Ok delta, d1) ->
    evicts ps d1 deltas d2 ->
    evicts (p :: ps) d (delta :: deltas) d2.

Definition sum (l : list Z) : Z := foldr Z.add 0 l.

(** The [evict()] calls a deletion vector leads to. *)
Definition evictions (self : ShardFile) (phase_dels : list bool)
  : list event :=
  (fun p => EvEvict (get_local_filename p))
    <$> flagged (zip (phases self) phase_dels).










(** The phase a reader uses: canonical if configured, else raw. *)
Definition terminal_phase (self : ShardFile) : ShardFilePhase :=
  match can_phase self with
  | Some cp => cp
  | None => raw_phase self
  end.

Definition on_disk (d : Disk) (phase : ShardFilePhase) : Prop :=
  is_Some (fs d !! get_local_filename phase).

Definition terminal_slot (self : ShardFile) : nat :=
  match can_phase self with
  | Some _ => 2%nat
  | None => 1%nat
  end.

(** The disk once [data] has been written to [path] through a temporary
    file that is renamed into place, and [ev] logged. *)
Definition placed (path : string) (data : pybytes) (ev : event) (d : Disk)
  : Disk :=
  {| fs := <[path := data]>
             (delete (path ++ ".tmp")%string
                     (<[(path ++ ".tmp")%string := data]> (fs d)));
     trace := trace d ++ [ev] |}.

(** The disk once [data] has been written to [path] and [ev] logged. *)
Definition written (path : string) (data : pybytes) (ev : event) (d : Disk)
  : Disk :=
  {| fs := <[path := data]> (fs d); trace := trace d ++ [ev] |}.

(** [LOCAL if phase.is_local() else REMOTE], or [DNE] without a phase. *)
Definition locality_of (d : Disk) (phase : option ShardFilePhase) : Locality :=
  match phase with
  | Some p => if bool_decide (on_disk d p) then LOCAL else REMOTE
  | None => DNE
  end.

(** Asking the keep policy about [phase_locs] and evicting what it flags,
    adding the bytes freed to [produced]. *)
Definition police (self : ShardFile) (phase_locs : list Locality)
    (produced : Z) (d : Disk) : result exn Z * Disk :=
  let phase_dels :=
    get_phase_deletions (safe_keep_phases (stream self)) phase_locs in
  match evict_phases self phase_dels (log d [EvPolicy phase_locs phase_dels]) with
  | (Ok freed, d') => (Ok (produced + freed), d')
  | (Raise e, d') => (Raise e, d')
  end.

(** A keep policy that never flags the terminal phase. *)
Definition keeps_terminal (self : ShardFile) : Prop :=
  forall phase_locs,
    get_phase_deletions (safe_keep_phases (stream self)) phase_locs
      !! terminal_slot self <> Some true.

(** No other phase is stored at the path of the terminal phase. *)
Definition terminal_path_own (self : ShardFile) : Prop :=
  forall i p, phases self !! i = Some (Some p) -> i <> terminal_slot self ->
    get_local_filename p <> get_local_filename (terminal_phase self).

(** *** Sample shard files *)

(** Keep whatever is there. *)
Definition keep_all : Phaser :=
  {| get_phase_deletions := fun _ => [false; false; false] |}.

(** Keep the raw phase only: the compressed phase goes once both are
    local. *)
Definition keep_raw : Phaser :=
  {| get_phase_deletions := fun phase_locs =>
       match phase_locs with
       | [LOCAL; LOCAL; _] => [true; false; false]
       | _ => [false; false; false]
       end |}.

(** Keep the canonical phase only: the phases before it go once it is
    local. *)
Definition keep_can : Phaser :=
  {| get_phase_deletions := fun phase_locs =>
       match phase_locs with
       | [zip_loc; raw_loc; LOCAL] =>
           [bool_decide (zip_loc = LOCAL); bool_decide (raw_loc = LOCAL); false]
       | _ => [false; false; false]
       end |}.

Definition sample_stream (keep : Phaser) : StreamConf :=
  {| remote := {[ "shard.00000.mds.zstd"%string := [7; 7; 7];
                  "shard.00000.parquet"%string := [1; 2; 3; 4] ]};
     download_max_size := Some 3;
     safe_keep_phases := keep |}.

(** An MDS shard file: compressed, then raw. *)
Definition mds_file (keep : Phaser) : ShardFile :=
  {| stream := sample_stream keep;
     zip_phase := Some {| filename := "shard.00000.mds.zstd"; size := Some 3 |};
     zip_algo := Some "zstd"%string;
     raw_phase := {| filename := "shard.00000.mds"; size := Some 6 |};
     can_algo := None;
     can_phase := None |}.

(** A Parquet shard file: raw, then canonical. *)
Definition parquet_file (keep : Phaser) : ShardFile :=
  {| stream := sample_stream keep;
     zip_phase := None;
     zip_algo := None;
     raw_phase := {| filename := "shard.00000.parquet"; size := Some 4 |};
     can_algo := Some "parquet"%string;
     can_phase := Some {| filename := "shard.00000.parquet.mds"; size := None |} |}.

(** A file with a raw phase only. *)
Definition raw_only_file (keep : Phaser) : ShardFile :=
  {| stream := sample_stream keep;
     zip_phase := None;
     zip_algo := None;
     raw_phase := {| filename := "shard.00000.parquet"; size := Some 4 |};
     can_algo := None;
     can_phase := None |}.

Definition sample_decompress (algo : option string) (data : pybytes) : pybytes :=
  data ++ data.

Definition sample_canonicalize (algo : string) (data : pybytes) : pybytes :=
  rev data.

Definition empty_disk : Disk := {| fs := ∅; trace := [] |}.

(** A local directory that holds the compressed phase of [mds_file]. *)
Definition disk_with_zip : Disk :=
  {| fs := {[ "shard.00000.mds.zstd"%string := [7; 7; 7] ]}; trace := [] |}.

(** The same, with the compressed file cut short. *)
Definition disk_with_short_zip : Disk :=
  {| fs := {[ "shard.00000.mds.zstd"%string := [7; 7] ]}; trace := [] |}.

(** The local directory after a first [load] of [mds_file]. *)
Definition disk_after_load : Disk :=
  snd (load sample_decompress sample_canonicalize (mds_file keep_raw)
            disk_with_zip).

(** What a phase adds to the usage [init_dir] collects: the size of its
    file when it is listed and there, else 0; nothing for a slot without a
    phase. *)
Definition contribution (d : Disk) (listing : gset string)
    (phase : option ShardFilePhase) : Z :=
  match phase with
  | Some p =>
      if probe p listing then
        match fs d !! get_local_filename p with
        | Some data => len data
        | None => 0
        end
      else 0
  | None => 0
  end.

(** The locality [init_dir] gives a slot. *)
Definition init_locality (d : Disk) (listing : gset string)
    (phase : option ShardFilePhase) : Locality :=
  match phase with
  | Some p => if contribution d listing phase =? 0 then REMOTE else LOCAL
  | None => DNE
  end.

(** A local directory that holds the compressed phase of [mds_file] and
    an empty file at the path of its raw phase. *)
Definition disk_with_empty_raw : Disk :=
  {| fs := {[ "shard.00000.mds.zstd"%string := [7; 7; 7];
              "shard.00000.mds"%string := [] ]};
     trace := [] |}.

Definition listing_of_both : gset string :=
  {[ "shard.00000.mds.zstd"%string; "shard.00000.mds"%string ]}.

(** *** Vocabulary of the further properties *)

(** The phase a file is stored and downloaded in: its first configured
    phase. *)
Definition first_phase (self : ShardFile) : ShardFilePhase :=
  match zip_phase self with
  | Some zp => zp
  | None => raw_phase self
  end.

(** The paths downloaded in a log, in order. *)
Definition downloads (tr : list event) : list string :=
  omap (fun e => match e with EvDownload path => Some path | _ => None end) tr.

Definition is_evict (e : event) : bool :=
  match e with EvEvict _ => true | _ => false end.

(** The phases that are configured, in order. *)
Fixpoint configured (ps : list (option ShardFilePhase))
  : list ShardFilePhase :=
  match ps with
  | [] => []
  | Some p :: rest => p :: configured rest
  | None :: rest => configured rest
  end.

(** The deletion vector that flags every configured phase. *)
Definition all_configured (self : ShardFile) : list bool :=
  (fun phase : option ShardFilePhase =>
     match phase with Some _ => true | None => false end) <$> phases self.





(** A decompressor that gives its input back. *)
Definition identity_decompress (algo : option string) (data : pybytes)
  : pybytes := data.

(** The bytes the local directory holds. *)
Definition disk_usage (d : Disk) : Z :=
  map_fold (fun (_ : string) (data : pybytes) acc => len data + acc) 0 (fs d).

(** No two phases of the file are stored at the same path. *)
Definition paths_distinct (self : ShardFile) : Prop :=
  forall i j p q,
    phases self !! i = Some (Some p) -> phases self !! j = Some (Some q) ->
    i <> j -> get_local_filename p <> get_local_filename q.

(** The temporary path of a phase holds no file, and no phase is stored
    there. *)
Definition temp_paths_free (self : ShardFile) (d : Disk) : Prop :=
  forall i p, phases self !! i = Some (Some p) ->
    fs d !! (get_local_filename p ++ ".tmp")%string = None /\
    forall j q, phases self !! j = Some (Some q) ->
      get_local_filename q <> (get_local_filename p ++ ".tmp")%string.

End File.

Module DualRow.

(** *** The writer's state *)

(** What [_process_file] reports about a file it wrote. *)
Record FileInfo := {
  basename : string;
  bytes : Z;
  hashes : list (string * string)
}.

(** The shard descriptor [obj] that [flush_shard] appends to
    [self.shards]. *)
Record ShardObj := {
  samples : nat;
  raw_data : FileInfo;
  zip_data : option FileInfo;
  raw_meta : FileInfo;
  zip_meta : option FileInfo;
  config : list (string * string)
}.

(** The life of a future of [self.executor]. *)
Inductive status := Pending | Running | Done | Failed | Cancelled.

Global Instance status_eq_dec : EqDecision status.
Proof. solve_decision. Defined.

(** [self.executor]: the upload of each file submitted so far, in
    submission order, and whether the pool has been shut down. *)
Record Executor := {
  futures : list (string * status);
  is_shutdown : bool
}.

(** What the writer does besides changing its fields. *)
Inductive action :=
| ActEncode
| ActProcessFile (raw_basename : string)
| ActSubmit (basename : string)
| ActCancelFutureJobs.

Record Writer := {
  event : bool;                 (* self.event.is_set() *)
  new_samples : list pybytes;
  shards : list ShardObj;
  executor : Executor;
  actions : list action
}.

Inductive exn :=
| CannotScheduleAfterShutdown.
    (* RuntimeError('cannot schedule new futures after shutdown') *)

Abbreviation M := (prog Writer exn).

Definition set_executor (ex : Executor) : M unit :=
  modify (fun w =>
    {| event := event w; new_samples := new_samples w; shards := shards w;
       executor := ex; actions := actions w |}).

Definition set_shards (l : list ShardObj) : M unit :=
  modify (fun w =>
    {| event := event w; new_samples := new_samples w; shards := l;
       executor := executor w; actions := actions w |}).

Definition set_event (w : Writer) : Writer :=
  {| event := true; new_samples := new_samples w; shards := shards w;
     executor := executor w; actions := actions w |}.

Definition act (a : action) : M unit :=
  modify (fun w =>
    {| event := event w; new_samples := new_samples w; shards := shards w;
       executor := executor w; actions := actions w ++ [a] |}).

(** [self.executor.submit(self.cloud_writer.upload_file, basename)]
    followed by [future.add_done_callback(self.exception_callback)]. *)
Definition submit (name : string) : M unit :=
  let* w := get in
  if is_shutdown (executor w) then raise CannotScheduleAfterShutdown
  else
    act (ActSubmit name);;
    set_executor {| futures := futures (executor w) ++ [(name, Pending)];
                    is_shutdown := false |}.

Definition cancel_pending (f : string * status) : string * status :=
  match f with
  | (name, Pending) => (name, Cancelled)
  | _ => f
  end.

(** Modelled from the spec: [Writer.cancel_future_jobs], which is not
    among the sources: "cancel not-yet-started uploads", by shutting the
    pool down with its pending futures cancelled. *)
Definition cancel_future_jobs : M unit :=
  act ActCancelFutureJobs;;
  let* w := get in
  set_executor {| futures := cancel_pending <$> futures (executor w);
                  is_shutdown := true |}.

(** [a or b] on an optional and a plain string. *)
Definition or_else (a : option string) (b : string) : string :=
  match a with
  | Some (String c rest) => String c rest
  | _ => b
  end.

(** *** The pool at work

    The uploads run in the threads of the pool, beside the thread that
    calls [flush_shard]: a worker takes a pending upload, a running upload
    ends, and the done-callback of an upload that has ended runs. These
    are separate steps: an upload can have failed while its callback has
    not yet run. *)
Inductive pool_op :=
| Start (i : nat)
| Finish (i : nat) (ok : bool)
| Callback (i : nat).

Definition set_status (i : nat) (st : status) (w : Writer) : Writer :=
  {| event := event w; new_samples := new_samples w; shards := shards w;
     executor :=
       {| futures := alter (fun f => (fst f, st)) i (futures (executor w));
          is_shutdown := is_shutdown (executor w) |};
     actions := actions w |}.

(** Modelled from the spec: [Writer.exception_callback], which is not
    among the sources: "Any upload failure sets a shared cancellation
    flag". *)
Definition exception_callback (ok : bool) (w : Writer) : Writer :=
  if ok then w else set_event w.

Definition pool_step (o : pool_op) (w : Writer) : Writer :=
  match o with
  | Start i =>
      match futures (executor w) !! i with
      | Some (_, Pending) => set_status i Running w
      | _ => w
      end
  | Finish i ok =>
      match futures (executor w) !! i with
      | Some (_, Running) => set_status i (if ok then Done else Failed) w
      | _ => w
      end
  | Callback i =>
      match futures (executor w) !! i with
      | Some (_, Done) => exception_callback true w
      | Some (_, Failed) => exception_callback false w
      | _ => w
      end
  end.

Definition run_pool (ops : list pool_op) (w : Writer) : Writer :=
  foldl (fun w o => pool_step o w) w ops.

Inductive op :=
| Flush
| Pool (o : pool_op)
| FlushDuring (before_data before_meta : list pool_op).

Section Writer.

(** The abstract [encode_dual_shard], and the inherited [_name_next_shard],
    [_process_file] and [get_config], which are not among the sources. *)
Variable encode_dual_shard : list pybytes -> pybytes * pybytes.
Variable _name_next_shard : nat -> option string -> string * option string.
Variable _process_file :
  pybytes -> string -> option string -> FileInfo * option FileInfo.
Variable get_config : list (string * string).

(** [DualRowWriter.flush_shard]. *)
Definition flush_shard : M unit :=
  let* self := get in
  if event self then
    (* Shutdown the executor and cancel all the pending futures due to
       exception in one of the threads. *)
    cancel_future_jobs
  else
    let data_names := _name_next_shard (length (shards self)) None in
    let meta_names :=
      _name_next_shard (length (shards self)) (Some "meta"%string) in
    act ActEncode;;
    let encoded := encode_dual_shard (new_samples self) in
    act (ActProcessFile (fst data_names));;
    let data_info := _process_file (fst encoded) (fst data_names)
                                   (snd data_names) in
    act (ActProcessFile (fst meta_names));;
    let meta_info := _process_file (snd encoded) (fst meta_names)
                                   (snd meta_names) in
    let obj :=
      {| samples := length (new_samples self);
         raw_data := fst data_info; zip_data := snd data_info;
         raw_meta := fst meta_info; zip_meta := snd meta_info;
         config := get_config |} in
    set_shards (shards self ++ [obj]);;
    (* Execute the task if there is no exception in any of the async
       threads. *)
    submit (or_else (snd data_names) (fst data_names));;
    submit (or_else (snd meta_names) (fst meta_names)).

(** Lines 83 to 98 of [flush_shard]: name, encode and process the next
    shard and append its descriptor. The result is the two names its
    files are uploaded under. *)
Definition describe_shard : M (string * string) :=
  let* self := get in
  let data_names := _name_next_shard (length (shards self)) None in
  let meta_names :=
    _name_next_shard (length (shards self)) (Some "meta"%string) in
  act ActEncode;;
  let encoded := encode_dual_shard (new_samples self) in
  act (ActProcessFile (fst data_names));;
  let data_info := _process_file (fst encoded) (fst data_names)
                                 (snd data_names) in
  act (ActProcessFile (fst meta_names));;
  let meta_info := _process_file (snd encoded) (fst meta_names)
                                 (snd meta_names) in
  let obj :=
    {| samples := length (new_samples self);
       raw_data := fst data_info; zip_data := snd data_info;
       raw_meta := fst meta_info; zip_meta := snd meta_info;
       config := get_config |} in
  set_shards (shards self ++ [obj]);;
  ret (or_else (snd data_names) (fst data_names),
       or_else (snd meta_names) (fst meta_names)).

(** A call of [flush_shard] during which the pool is at work. The event
    is read once, at line 77. [before_data] is what the pool does from
    then until the data file is submitted (what it does before the
    descriptor is appended touches neither the shards nor the names, so it
    is counted here), [before_meta] what it does between the two
    submissions. *)
Definition flush_shard_during (before_data before_meta : list pool_op)
  : M unit :=
  let* self := get in
  if event self then cancel_future_jobs
  else
    let* names := describe_shard in
    modify (run_pool before_data);;
    submit (fst names);;
    modify (run_pool before_meta);;
    submit (snd names).

(** One thing that happens to the writer: a call of [flush_shard] while
    the pool is idle, a step of the pool between two calls, or a call
    during which the pool is at work. *)
Definition step (o : op) (w : Writer) : Writer :=
  match o with
  | Flush => snd (flush_shard w)
  | Pool o => pool_step o w
  | FlushDuring before_data before_meta =>
      snd (flush_shard_during before_data before_meta w)
  end.

Definition run (ops : list op) (w : Writer) : Writer :=
  foldl (fun w o => step o w) w ops.

End Writer.

(** The uploads handed to the pool so far. *)
Definition submitted (w : Writer) : list string := fst <$> futures (executor w).

Global Instance action_eq_dec : EqDecision action.
Proof. solve_decision. Defined.

(** The number of shards encoded so far. *)
Definition encoded_count (w : Writer) : nat :=
  length (filter (fun a => a = ActEncode) (actions w)).

(** No upload is waiting to be started. *)
Definition none_pending (w : Writer) : Prop :=
  forall i name, futures (executor w) !! i <> Some (name, Pending).

(** A writer that has not submitted anything yet. *)
Definition fresh (w : Writer) : Prop :=
  event w = false /\ futures (executor w) = [] /\
  is_shutdown (executor w) = false.

(** The writer once [cancel_future_jobs] has run. *)
Definition cancelled (w : Writer) : Writer :=
  {| event := event w; new_samples := new_samples w; shards := shards w;
     executor := {| futures := cancel_pending <$> futures (executor w);
                    is_shutdown := true |};
     actions := actions w ++ [ActCancelFutureJobs] |}.

(** *** A sample writer *)

Definition sample_encode (samples : list pybytes) : pybytes * pybytes :=
  (concat samples, [Z.of_nat (length samples)]).

Definition sample_name (n : nat) (ext : option string)
  : string * option string :=
  match ext with
  | Some _ => (if Nat.even n then "shard.0.meta" else "shard.1.meta", None)
  | None => (if Nat.even n then "shard.0.csv" else "shard.1.csv", None)
  end%string.

Definition sample_process_file (data : pybytes) (raw : string)
    (zip : option string) : FileInfo * option FileInfo :=
  ({| basename := raw; bytes := Z.of_nat (length data); hashes := [] |}, None).

Definition sample_writer : Writer :=
  {| event := false; new_samples := [[1; 2]; [3]]; shards := [];
     executor := {| futures := []; is_shutdown := false |};
     actions := [] |}.

(** The sample writer after one flush whose first upload was started and
    failed, before the callback of the upload has run. *)
Definition failing_writer : Writer :=
  run sample_encode sample_name sample_process_file []
      [Flush; Pool (Start 0); Pool (Finish 0 false)] sample_writer.

(** The same once the callback has run. *)
Definition failed_writer : Writer :=
  run sample_encode sample_name sample_process_file []
      [Flush; Pool (Start 0); Pool (Finish 0 false); Pool (Callback 0)]
      sample_writer.

(** *** Vocabulary of the further properties *)

(** The two uploads of shard [k]: the data file, then the meta file, each
    under its compressed name when it has one. *)
Definition upload_names
    (_name_next_shard : nat -> option string -> string * option string)
    (k : nat) : list string :=
  let data_names := _name_next_shard k None in
  let meta_names := _name_next_shard k (Some "meta"%string) in
  [or_else (snd data_names) (fst data_names);
   or_else (snd meta_names) (fst meta_names)].

(** A writer that has not written anything yet. *)
Definition blank (w : Writer) : Prop :=
  fresh w /\ shards w = [] /\ actions w = [].

End DualRow.

(** * Properties *)

(** ** Running a sequence of two programs *)

Lemma bind_ok {S E A B} (m : prog S E A) (k : A -> prog S E B) s a s' :
  m s = (Ok a, s') -> bind m k s = k a s'.
Proof. intros H. unfold bind. by rewrite H. Qed.

Lemma bind_raise {S E A B} (m : prog S E A) (k : A -> prog S E B) s e s' :
  m s = (Raise e, s') -> bind m k s = (Raise e, s').
Proof. intros H. unfold bind. by rewrite H. Qed.

Lemma bind_ret {S E A B} (a : A) (k : A -> prog S E B) s :
  bind (ret a) k s = k a s.
Proof. reflexivity. Qed.

Module PrefixFacts.
Import Prefix.

(** ** UTF-8 *)

Ltac split_cmp :=
  repeat match goal with
  | |- context [?a <=? ?b] => destruct (Z.leb_spec a b); try lia
  | |- context [?a <? ?b] => destruct (Z.ltb_spec a b); try lia
  end.

Lemma utf8_decode_1 b r :
  0 <= b < 0x80 -> utf8_decode (b :: r) = cons b <$> utf8_decode r.
Proof.
  intros Hb. unfold utf8_decode; fold utf8_decode.
  split_cmp. reflexivity.
Qed.

Lemma utf8_decode_2 b0 b1 r :
  0xC0 <= b0 < 0xE0 -> 0x80 <= b1 <= 0xBF ->
  0x80 <= (b0 - 0xC0) * 64 + (b1 - 0x80) ->
  utf8_decode (b0 :: b1 :: r)
  = cons ((b0 - 0xC0) * 64 + (b1 - 0x80)) <$> utf8_decode r.
Proof.
  intros H0 H1 Hc. unfold utf8_decode; fold utf8_decode.
  unfold is_continuation. split_cmp. reflexivity.
Qed.

Lemma utf8_decode_3 b0 b1 b2 r :
  let c := (b0 - 0xE0) * 4096 + (b1 - 0x80) * 64 + (b2 - 0x80) in
  0xE0 <= b0 < 0xF0 -> 0x80 <= b1 <= 0xBF -> 0x80 <= b2 <= 0xBF ->
  0x800 <= c -> is_surrogate c = false ->
  utf8_decode (b0 :: b1 :: b2 :: r) = cons c <$> utf8_decode r.
Proof.
  intros c H0 H1 H2 Hc Hs. unfold utf8_decode; fold utf8_decode.
  fold c. rewrite Hs. unfold is_continuation. split_cmp. reflexivity.
Qed.

Lemma utf8_decode_4 b0 b1 b2 b3 r :
  let c := (b0 - 0xF0) * 262144 + (b1 - 0x80) * 4096
           + (b2 - 0x80) * 64 + (b3 - 0x80) in
  0xF0 <= b0 < 0xF8 -> 0x80 <= b1 <= 0xBF -> 0x80 <= b2 <= 0xBF ->
  0x80 <= b3 <= 0xBF -> 0x10000 <= c < 0x110000 ->
  utf8_decode (b0 :: b1 :: b2 :: b3 :: r) = cons c <$> utf8_decode r.
Proof.
  intros c H0 H1 H2 H3 Hc. unfold utf8_decode; fold utf8_decode.
  fold c. unfold is_continuation. split_cmp. reflexivity.
Qed.

(** Decoding what one code point encodes to gives the code point back. *)
Lemma utf8_decode_encode_char c bs rest :
  utf8_encode_char c = Some bs ->
  utf8_decode (bs ++ rest) = cons c <$> utf8_decode rest.
Proof.
  unfold utf8_encode_char.
  destruct (Z.ltb_spec c 0); [discriminate|].
  destruct (Z.ltb_spec c 0x80).
  { intros [= <-]. apply utf8_decode_1. lia. }
  destruct (Z.ltb_spec c 0x800).
  { intros [= <-]. cbn [app].
    rewrite utf8_decode_2 by (Z.div_mod_to_equations; lia).
    f_equal. f_equal. Z.div_mod_to_equations; lia. }
  destruct (Z.ltb_spec c 0x10000).
  { destruct (is_surrogate c) eqn:Hs; [discriminate|].
    intros [= <-]. cbn [app].
    assert (Hc : (0xE0 + c / 4096 - 0xE0) * 4096
                 + (0x80 + (c / 64) mod 64 - 0x80) * 64
                 + (0x80 + c mod 64 - 0x80) = c)
      by (Z.div_mod_to_equations; lia).
    rewrite utf8_decode_3; rewrite ?Hc; try done;
      try (Z.div_mod_to_equations; lia). }
  destruct (Z.ltb_spec c 0x110000); [|discriminate].
  intros [= <-]. cbn [app].
  assert (Hc : (0xF0 + c / 262144 - 0xF0) * 262144
               + (0x80 + (c / 4096) mod 64 - 0x80) * 4096
               + (0x80 + (c / 64) mod 64 - 0x80) * 64
               + (0x80 + c mod 64 - 0x80) = c)
    by (Z.div_mod_to_equations; lia).
  rewrite utf8_decode_4; rewrite ?Hc; try done;
    try (Z.div_mod_to_equations; lia).
Qed.

(** [data.decode('utf-8')] inverts [text.encode('utf-8')]. *)
Lemma utf8_decode_encode text data :
  utf8_encode text = Some data -> utf8_decode data = Some text.
Proof.
  revert data. induction text as [|c text IH]; intros data; cbn [utf8_encode].
  - intros [= <-]. reflexivity.
  - destruct (utf8_encode_char c) as [bs|] eqn:Hc; [|discriminate].
    destruct (utf8_encode text) as [rest|]; [|discriminate].
    intros [= <-]. rewrite (utf8_decode_encode_char _ _ _ Hc).
    rewrite (IH rest eq_refl). reflexivity.
Qed.

Lemma utf8_encode_total text : encodable text -> is_Some (utf8_encode text).
Proof.
  induction 1 as [|c text [Hc Hs] _ [rest IH]]; cbn [utf8_encode]; [eauto|].
  rewrite IH.
  assert (is_Some (utf8_encode_char c)) as [bs ->]; [|eauto].
  unfold utf8_encode_char. rewrite Hs.
  unfold is_code_point in Hc. apply andb_true_iff in Hc as [H0%Z.leb_le H1%Z.ltb_lt].
  split_cmp; eauto.
Qed.

(** ** [join] and [split] *)

Lemma split_no_sep sep text : sep ∉ text -> split sep text = [text].
Proof.
  induction text as [|c text IH]; intros Hn; cbn [split]; [done|].
  apply not_elem_of_cons in Hn as [Hne Hn].
  destruct (Z.eqb_spec c sep); [congruence|].
  rewrite IH by done. reflexivity.
Qed.

Lemma split_app_sep sep p rest :
  sep ∉ p -> split sep (p ++ sep :: rest) = p :: split sep rest.
Proof.
  induction p as [|c p IH]; intros Hn; cbn [split app].
  - rewrite Z.eqb_refl. reflexivity.
  - apply not_elem_of_cons in Hn as [Hne Hn].
    destruct (Z.eqb_spec c sep); [congruence|].
    rewrite IH by done. reflexivity.
Qed.

(** Splitting a joined non-empty list of separator-free parts gives the
    parts back. *)
Lemma split_join sep parts :
  parts <> [] -> Forall (fun p => sep ∉ p) parts ->
  split sep (join [sep] parts) = parts.
Proof.
  intros Hne Hall. induction Hall as [|p parts Hp Hall IH]; [done|].
  destruct parts as [|q parts].
  - cbn [join]. apply split_no_sep, Hp.
  - change (join [sep] (p :: q :: parts))
      with (p ++ sep :: join [sep] (q :: parts)).
    rewrite split_app_sep by done. rewrite IH by done. reflexivity.
Qed.

(** Joining nothing gives the empty text, which splits into one empty
    piece. *)
Lemma split_join_nil sep : split sep (join [sep] []) = [[]].
Proof. reflexivity. Qed.

(** ** [sorted] *)

Lemma sorted_Permutation (dirnames : gset pystr) :
  sorted dirnames ≡ₚ elements dirnames.
Proof. apply merge_sort_Permutation. Qed.

Lemma list_to_set_sorted (dirnames : gset pystr) :
  list_to_set (sorted dirnames) = dirnames.
Proof.
  apply set_eq. intros d.
  rewrite elem_of_list_to_set, sorted_Permutation. apply elem_of_elements.
Qed.

Lemma sorted_nil_iff (dirnames : gset pystr) :
  sorted dirnames = [] <-> dirnames = ∅.
Proof.
  split.
  - intros H. rewrite <- (list_to_set_sorted dirnames), H. reflexivity.
  - intros ->. reflexivity.
Qed.

(** ** The length header *)

Lemma np_int32_id n : - 2^31 <= n < 2^31 -> np_int32 n = n.
Proof. intros H. unfold np_int32. Z.div_mod_to_equations. lia. Qed.

Lemma int32_tobytes_length x : length (int32_tobytes x) = 4%nat.
Proof. reflexivity. Qed.

Lemma int32_frombuffer_tobytes x :
  - 2^31 <= x < 2^31 -> int32_frombuffer (int32_tobytes x) = Some x.
Proof.
  intros H. unfold int32_frombuffer, int32_tobytes. f_equal.
  unfold np_int32. Z.div_mod_to_equations. lia.
Qed.

Lemma slice_payload (hdr data pad : pybytes) :
  length hdr = 4%nat ->
  slice (hdr ++ data ++ pad) 4 (4 + Z.of_nat (length data)) = data.
Proof.
  intros Hh. unfold slice. rewrite !length_app, Hh.
  destruct (Z.ltb_spec (4 + Z.of_nat (length data)) 0); [lia|].
  rewrite Z.min_l by lia.
  replace (Z.to_nat 4) with (length hdr) by lia.
  rewrite drop_app_length.
  replace (Z.to_nat (4 + Z.of_nat (length data) - 4)) with (length data) by lia.
  apply take_app_length.
Qed.

(** ** Packing and unpacking *)

Lemma _pack_locals_total (dirnames : gset pystr) :
  (forall d, d ∈ dirnames -> encodable d) -> is_Some (_pack_locals dirnames).
Proof.
  intros Henc. unfold _pack_locals.
  assert (is_Some (utf8_encode (join [NUL] (sorted dirnames)))) as [data ->];
    [|cbn; eauto].
  apply utf8_encode_total.
  assert (Hall : Forall encodable (sorted dirnames)).
  { apply Forall_forall. intros d Hd. apply Henc.
    rewrite sorted_Permutation in Hd. by apply elem_of_elements. }
  induction Hall as [|p parts Hp Hall IH]; [constructor|].
  destruct parts as [|q parts]; [exact Hp|].
  change (join [NUL] (p :: q :: parts))
    with (p ++ [NUL] ++ join [NUL] (q :: parts)).
  apply Forall_app. split; [exact Hp|]. apply Forall_app. split; [|exact IH].
  repeat constructor.
Qed.

(** Round trip for a non-empty set: unpacking a packed record, whatever
    padding follows it in the buffer, gives the set back, as long as the
    record fits the 32-bit length field. *)
Lemma _unpack_pack_locals (dirnames : gset pystr) (data pad : pybytes) :
  dirnames <> ∅ ->
  (forall d, d ∈ dirnames -> NUL ∉ d) ->
  _pack_locals dirnames = Some data ->
  Z.of_nat (length data) < 2^31 ->
  _unpack_locals (data ++ pad) = Some dirnames.
Proof.
  intros Hne Hnul Hpack Hlen. unfold _pack_locals in Hpack.
  destruct (utf8_encode (join [NUL] (sorted dirnames))) as [payload|] eqn:Henc;
    [|discriminate].
  assert (data = int32_tobytes (np_int32 (4 + Z.of_nat (length payload)))
                 ++ payload) as -> by (cbn [mbind option_bind] in Hpack; congruence).
  clear Hpack.
  rewrite length_app, int32_tobytes_length in Hlen.
  rewrite np_int32_id in * by lia.
  unfold _unpack_locals. rewrite <- app_assoc.
  rewrite take_app_length' by reflexivity.
  rewrite int32_frombuffer_tobytes by lia. cbn [mbind option_bind].
  rewrite slice_payload by reflexivity.
  rewrite (utf8_decode_encode _ _ Henc). cbn [mbind option_bind].
  rewrite split_join.
  - by rewrite list_to_set_sorted.
  - by rewrite sorted_nil_iff.
  - apply Forall_forall. intros d Hd. apply Hnul.
    rewrite sorted_Permutation in Hd. by apply elem_of_elements.
Qed.

(** C1. Packing the empty directory set and unpacking the record does not
    give the empty set back: the record is the bare four-byte header, its
    payload decodes to the empty text, and splitting the empty text yields
    one empty directory name. *)
Theorem pack_unpack_empty_set :
  _pack_locals ∅ = Some [4; 0; 0; 0] /\
  _unpack_locals [4; 0; 0; 0] = Some {[ [] ]} /\
  ({[ [] ]} : gset pystr) <> ∅.
Proof.
  split; [|split].
  - reflexivity.
  - reflexivity.
  - intros H. apply (not_elem_of_empty (C:=gset pystr) []). rewrite <- H.
    by apply elem_of_singleton.
Qed.

(** The round trip on the set [{'/a', '/b'}], in a buffer that is longer
    than the record. *)
Example pack_unpack_two_dirs :
  _pack_locals {[ [47; 98]; [47; 97] ]} = Some [9; 0; 0; 0; 47; 97; 0; 47; 98] /\
  _unpack_locals ([9; 0; 0; 0; 47; 97; 0; 47; 98] ++ [0; 0; 0])
  = Some {[ [47; 98]; [47; 97] ]}.
Proof.
  assert (Hpack : _pack_locals {[ [47; 98]; [47; 97] ]}
                  = Some [9; 0; 0; 0; 47; 97; 0; 47; 98]) by reflexivity.
  split; [exact Hpack|].
  apply _unpack_pack_locals; [| |exact Hpack|cbn; lia].
  - intros He. apply (not_elem_of_empty (C:=gset pystr) [47; 98]).
    rewrite <- He. apply elem_of_union_l. by apply elem_of_singleton.
  - intros d Hd Hnul.
    apply elem_of_union in Hd as [Hd|Hd]; apply elem_of_singleton in Hd;
      subst d; apply (bool_decide_pack _) in Hnul; vm_compute in Hnul; done.
Qed.

(** ** The duplicate check *)

Lemma check_my_locals_ok my_locals acc st :
  NoDup my_locals -> (forall d, d ∈ my_locals -> d ∉ acc) ->
  check_my_locals my_locals acc st = (Ok (acc ∪ list_to_set my_locals), st).
Proof.
  intros Hnd. revert acc. induction Hnd as [|d l Hd Hnd IH]; intros acc Hacc.
  - cbn [check_my_locals list_to_set foldr]. by rewrite union_empty_r_L.
  - cbn [check_my_locals]. rewrite decide_False by (apply Hacc; left).
    rewrite IH.
    + cbn [list_to_set foldr]. by rewrite (assoc_L (∪)).
    + intros d' Hd'. rewrite elem_of_union, elem_of_singleton.
      intros [Hin| ->]; [|done]. eapply Hacc; [right|]; done.
Qed.

Lemma check_my_locals_dup my_locals acc st :
  ~ (NoDup my_locals /\ forall d, d ∈ my_locals -> d ∉ acc) ->
  exists d, d ∈ my_locals /\
    check_my_locals my_locals acc st = (Raise (ReusedLocalDirectory d), st).
Proof.
  revert acc. induction my_locals as [|d l IH]; intros acc Hbad.
  - destruct Hbad. split; [constructor|]. intros d Hd. by apply elem_of_nil in Hd.
  - cbn [check_my_locals]. destruct (decide (d ∈ acc)) as [Hin|Hin].
    + exists d. split; [left|done].
    + destruct (IH (acc ∪ {[d]})) as (d' & Hd' & Heq).
      * intros [Hnd Hfresh]. apply Hbad. split.
        -- constructor; [|done]. intros Hdl.
           apply (Hfresh d Hdl). apply elem_of_union_r. by apply elem_of_singleton.
        -- intros d' Hd'. apply elem_of_cons in Hd' as [->|Hd']; [done|].
           intros Hacc. apply (Hfresh d' Hd'). by apply elem_of_union_l.
      * exists d'. split; [by right|done].
Qed.

Lemma get_shm_prefix_nodup_check my_locals st :
  (~ NoDup my_locals ->
   exists d, d ∈ my_locals /\
     check_my_locals my_locals ∅ st = (Raise (ReusedLocalDirectory d), st)) /\
  (NoDup my_locals ->
   check_my_locals my_locals ∅ st = (Ok (list_to_set my_locals), st)).
Proof.
  split.
  - intros Hdup. apply check_my_locals_dup. intros [Hnd _]. done.
  - intros Hnd. rewrite check_my_locals_ok; [|done|].
    + by rewrite union_empty_l_L.
    + intros d _. apply not_elem_of_empty.
Qed.

(** C7. A list of local directories with a duplicate entry makes
    [get_shm_prefix] raise the reused-directory error with the machine
    untouched: no segment attached or created, no barrier crossed, nothing
    logged. A list without duplicates passes the check, which yields the
    set of its entries and touches nothing either. *)
Theorem get_shm_prefix_duplicate_check my_locals world st :
  (~ NoDup my_locals ->
   exists d, d ∈ my_locals /\
     get_shm_prefix my_locals world st = (Raise (ReusedLocalDirectory d), st)) /\
  (NoDup my_locals ->
   check_my_locals my_locals ∅ st = (Ok (list_to_set my_locals), st)).
Proof.
  destruct (get_shm_prefix_nodup_check my_locals st) as [Hdup Hok].
  split; [|exact Hok].
  intros Hnd. destruct (Hdup Hnd) as (d & Hd & Heq).
  exists d. split; [done|]. unfold get_shm_prefix, bind. by rewrite Heq.
Qed.

Lemma get_shm_prefix_duplicate_check_witness :
  (exists d, d ∈ [[47; 97]; [47; 98]; [47; 97]] /\
     get_shm_prefix [[47; 97]; [47; 98]; [47; 97]]
       {| is_local_leader := true; num_ranks := 2; rank := 0 |}
       {| shm := ∅; dist_available := true; dist_initialized := false;
          cuda_available := false; nccl_available := false; trace := [] |}
     = (Raise (ReusedLocalDirectory d),
        {| shm := ∅; dist_available := true; dist_initialized := false;
           cuda_available := false; nccl_available := false; trace := [] |})) /\
  check_my_locals [[47; 97]; [47; 98]] ∅
    {| shm := ∅; dist_available := true; dist_initialized := false;
       cuda_available := false; nccl_available := false; trace := [] |}
  = (Ok (list_to_set [[47; 97]; [47; 98]]),
     {| shm := ∅; dist_available := true; dist_initialized := false;
        cuda_available := false; nccl_available := false; trace := [] |}).
Proof.
  split.
  - apply (get_shm_prefix_duplicate_check [[47; 97]; [47; 98]; [47; 97]]).
    intros Hnd. apply NoDup_cons in Hnd as [Hnotin _]. apply Hnotin.
    right. left.
  - apply (get_shm_prefix_duplicate_check [[47; 97]; [47; 98]]
             {| is_local_leader := true; num_ranks := 2; rank := 0 |}).
    apply (bool_decide_unpack _). vm_compute. reflexivity.
Defined.

(** ** The scan of a participant that is not the local leader *)

Lemma log_nil st : log st [] = st.
Proof. destruct st. unfold log. cbn. by rewrite app_nil_r. Qed.

Lemma log_log st evs1 evs2 : log (log st evs1) evs2 = log st (evs1 ++ evs2).
Proof. unfold log. cbn. by rewrite app_assoc. Qed.

Lemma attach_eq name st :
  attach name st = (Ok (shm st !! name), log st [EvAttach name]).
Proof. reflexivity. Qed.

Lemma attaches_cons i k :
  attaches i (S k) = EvAttach (locals_name i) :: attaches (i + 1) k.
Proof.
  unfold attaches. cbn [seq fmap list_fmap]. rewrite Z.add_0_r. f_equal.
  rewrite <- fmap_S_seq, <- list_fmap_compose.
  apply list_fmap_ext. intros _ j _. cbn. do 2 f_equal. lia.
Qed.

Lemma attaches_snoc i k :
  attaches i (S k) = attaches i k ++ [EvAttach (locals_name (i + Z.of_nat k))].
Proof. unfold attaches. by rewrite seq_S, fmap_app. Qed.

(** The scan walks past every slot that holds somebody else's record. *)
Lemma follower_scan_skip my k : forall n i st,
  (forall j, (j < k)%nat -> foreign my st (i + Z.of_nat j)) ->
  follower_scan my (k + n) i st
  = follower_scan my n (i + Z.of_nat k) (log st (attaches i k)).
Proof.
  induction k as [|k IH]; intros n i st Hskip.
  - cbn [Nat.add attaches seq fmap list_fmap]. rewrite log_nil.
    by rewrite Z.add_0_r.
  - destruct (Hskip 0%nat ltac:(lia)) as (buf & theirs & Hbuf & Hun & Hne).
    rewrite Z.add_0_r in Hbuf.
    cbn [Nat.add follower_scan]. unfold bind at 1. rewrite attach_eq, Hbuf, Hun.
    rewrite decide_False by done.
    rewrite IH.
    + rewrite log_log, attaches_cons. cbn [app].
      by replace (i + 1 + Z.of_nat k) with (i + Z.of_nat (S k)) by lia.
    + intros j Hj. destruct (Hskip (S j) ltac:(lia)) as (b & t & Hb & Ht & Hn).
      exists b, t. split; [|done]. cbn [log shm].
      rewrite <- Hb. do 2 f_equal. lia.
Qed.

(** It stops at the first slot that holds its own set, ... *)
Lemma follower_scan_found my k n st buf :
  (forall j, (j < k)%nat -> foreign my st (Z.of_nat j)) ->
  shm st !! locals_name (Z.of_nat k) = Some buf ->
  _unpack_locals buf = Some my ->
  follower_scan my (k + S n) 0 st
  = (Ok (Z.of_nat k), log st (attaches 0 (S k))).
Proof.
  intros Hskip Hbuf Hun. rewrite follower_scan_skip by done.
  rewrite Z.add_0_l. cbn [follower_scan]. unfold bind at 1.
  rewrite attach_eq. cbn [log shm]. rewrite Hbuf, Hun.
  rewrite decide_True by done.
  unfold ret. by rewrite log_log, attaches_snoc.
Qed.

(** ... raises when it meets an unused slot first, ... *)
Lemma follower_scan_gap my k n st :
  (forall j, (j < k)%nat -> foreign my st (Z.of_nat j)) ->
  shm st !! locals_name (Z.of_nat k) = None ->
  follower_scan my (k + S n) 0 st
  = (Raise ShmPrefixNotRegistered, log st (attaches 0 (S k))).
Proof.
  intros Hskip Hbuf. rewrite follower_scan_skip by done.
  rewrite Z.add_0_l. cbn [follower_scan]. unfold bind at 1.
  rewrite attach_eq. cbn [log shm]. rewrite Hbuf.
  unfold raise. by rewrite log_log, attaches_snoc.
Qed.

(** ... and leaves the loop with the last slot when the range runs out. *)
Lemma follower_scan_exhausted my k st :
  (forall j, (j < k)%nat -> foreign my st (Z.of_nat j)) ->
  follower_scan my k 0 st = (Ok (Z.of_nat k - 1), log st (attaches 0 k)).
Proof.
  intros Hskip. rewrite <- (Nat.add_0_r k) at 1.
  rewrite follower_scan_skip by done. by rewrite Z.add_0_l.
Qed.

(** ** [get_shm_prefix] for a participant that is not the local leader *)

Lemma first_barrier_shm world st :
  exists b st', first_barrier world st = (Ok b, st') /\ shm st' = shm st.
Proof.
  unfold first_barrier. destruct (1 <? num_ranks world); [|by eexists _, _].
  unfold bind at 1. cbn [get].
  destruct (dist_available st && negb (dist_initialized st));
    by eexists _, _.
Qed.

Lemma second_barrier_shm destroy_dist st :
  exists st', second_barrier destroy_dist st = (Ok tt, st') /\ shm st' = shm st.
Proof.
  unfold second_barrier. unfold bind at 1. cbn [get].
  destruct (dist_available st && dist_initialized st), destroy_dist;
    by eexists.
Qed.

(** Past the duplicate check, a participant that is not the leader crosses
    the first barrier, scans, and returns the slot the scan gives, or
    raises what the scan raises. The registry is not written to. *)
Lemma get_shm_prefix_follower my_locals world st :
  is_local_leader world = false -> NoDup my_locals ->
  exists st1, shm st1 = shm st /\
    forall r st2,
      follower_scan (list_to_set my_locals) SCAN_RANGE 0 st1 = (r, st2) ->
      match r with
      | Ok prefix_int =>
          exists st3, shm st3 = shm st2 /\
            get_shm_prefix my_locals world st
            = (Ok (format_06 prefix_int, locals_name prefix_int), st3)
      | Raise e => get_shm_prefix my_locals world st = (Raise e, st2)
      end.
Proof.
  intros Hlead Hnd.
  destruct (first_barrier_shm world st) as (b & st1 & Hfb & Hshm).
  exists st1. split; [done|]. intros r st2 Hscan.
  unfold get_shm_prefix.
  rewrite (bind_ok _ _ _ _ _
             (proj2 (get_shm_prefix_nodup_check my_locals st) Hnd)).
  rewrite Hlead, bind_ret, (bind_ok _ _ _ _ _ Hfb).
  destruct r as [prefix_int|e].
  - rewrite (bind_ok _ _ _ _ _ Hscan).
    destruct (second_barrier_shm b st2) as (st3 & Hsb & Hshm3).
    exists st3. split; [done|]. by rewrite (bind_ok _ _ _ _ _ Hsb).
  - by rewrite (bind_raise _ _ _ _ _ Hscan).
Qed.

Lemma SCAN_RANGE_eq : Z.of_nat SCAN_RANGE = 1000000.
Proof. unfold SCAN_RANGE. apply Z2Nat.id. lia. Qed.

Lemma SCAN_RANGE_split k :
  0 <= k < 1000000 -> exists n, SCAN_RANGE = (Z.to_nat k + S n)%nat.
Proof.
  intros Hk. exists (SCAN_RANGE - Z.to_nat k - 1)%nat.
  pose proof SCAN_RANGE_eq. lia.
Qed.

Lemma foreign_below my st st1 k :
  shm st1 = shm st ->
  (forall j, 0 <= j < k -> foreign my st j) ->
  forall j, (j < Z.to_nat k)%nat -> foreign my st1 (Z.of_nat j).
Proof.
  intros Hshm Hskip j Hj.
  destruct (Hskip (Z.of_nat j) ltac:(lia)) as (b & t & Hb & Ht).
  exists b, t. by rewrite Hshm.
Qed.

(** X10. A participant that is not the local leader resolves to the first
    slot that holds its own set, when every slot before it holds the
    record of another set. *)
Theorem follower_resolves_first_match my_locals world st k buf :
  is_local_leader world = false -> NoDup my_locals ->
  0 <= k < 1000000 ->
  (forall j, 0 <= j < k -> foreign (list_to_set my_locals) st j) ->
  shm st !! locals_name k = Some buf ->
  _unpack_locals buf = Some (list_to_set my_locals) ->
  exists st', shm st' = shm st /\
    get_shm_prefix my_locals world st
    = (Ok (format_06 k, locals_name k), st').
Proof.
  intros Hlead Hnd Hk Hskip Hbuf Hun.
  destruct (get_shm_prefix_follower my_locals world st Hlead Hnd)
    as (st1 & Hshm & Hrun).
  destruct (SCAN_RANGE_split k Hk) as [n Hn].
  specialize (Hrun (Ok k) (log st1 (attaches 0 (S (Z.to_nat k))))).
  rewrite Hn in Hrun. clear Hn.
  destruct Hrun as (st3 & Hshm3 & Hrun).
  - rewrite (follower_scan_found _ _ _ _ buf).
    + by rewrite Z2Nat.id by lia.
    + by apply (foreign_below _ st).
    + rewrite Hshm, Z2Nat.id by lia. done.
    + done.
  - exists st3. split; [|done]. by rewrite Hshm3.
Qed.

(** X11. A participant that is not the local leader raises the internal
    error when an unused slot comes before any slot that holds its own
    set. *)
Theorem follower_fails_on_gap my_locals world st k :
  is_local_leader world = false -> NoDup my_locals ->
  0 <= k < 1000000 ->
  (forall j, 0 <= j < k -> foreign (list_to_set my_locals) st j) ->
  shm st !! locals_name k = None ->
  exists st', shm st' = shm st /\
    get_shm_prefix my_locals world st = (Raise ShmPrefixNotRegistered, st').
Proof.
  intros Hlead Hnd Hk Hskip Hbuf.
  destruct (get_shm_prefix_follower my_locals world st Hlead Hnd)
    as (st1 & Hshm & Hrun).
  destruct (SCAN_RANGE_split k Hk) as [n Hn].
  specialize (Hrun (Raise ShmPrefixNotRegistered)
                   (log st1 (attaches 0 (S (Z.to_nat k))))).
  rewrite Hn in Hrun. clear Hn. cbn beta iota in Hrun.
  eexists. split; [|apply Hrun].
  - done.
  - apply follower_scan_gap.
    + by apply (foreign_below _ st).
    + rewrite Hshm, Z2Nat.id by lia. done.
Qed.

(** ** A machine with every slot taken *)

Lemma full_registry_lookup rec j :
  (j < SCAN_RANGE)%nat ->
  full_registry rec !! locals_name (Z.of_nat j) = Some rec.
Proof.
  intros Hj. unfold full_registry. apply elem_of_list_to_map_1'.
  - intros y Hy. apply list_elem_of_fmap in Hy as (j' & Heq & _).
    apply (f_equal snd) in Heq. cbn [snd] in Heq. by symmetry.
  - apply list_elem_of_fmap. exists j. split; [reflexivity|].
    apply elem_of_seq. split; [apply Nat.le_0_l|exact Hj].
Qed.

Lemma a_is_not_b : (list_to_set [[47; 97]] : gset pystr) <> {[ [47; 98] ]}.
Proof.
  intros H. assert (Hin : [47; 97] ∈ ({[ [47; 98] ]} : gset pystr)).
  { rewrite <- H. apply elem_of_list_to_set. left. }
  apply elem_of_singleton in Hin. discriminate.
Qed.

(** C8. With every one of the [10**6] slots holding the record of the set
    [{'/b'}], a participant that is not the leader and whose own set is
    [{'/a'}] finds no equal set, and yet [get_shm_prefix] returns: it
    resolves to the last slot, ["999999"], which holds the set [{'/b'}]. *)
Theorem follower_resolves_without_match :
  exists st',
    get_shm_prefix [[47; 97]] lone_follower crowded_machine
    = (Ok ("999999"%string, "999999_locals"%string), st') /\
    shm st' !! "999999_locals"%string = Some record_of_b /\
    _unpack_locals record_of_b = Some {[ [47; 98] ]} /\
    (list_to_set [[47; 97]] : gset pystr) <> {[ [47; 98] ]}.
Proof.
  assert (Hnd : NoDup [[47; 97]]) by apply NoDup_singleton.
  destruct (get_shm_prefix_follower [[47; 97]] lone_follower crowded_machine
              eq_refl Hnd) as (st1 & Hshm & Hrun).
  specialize (Hrun (Ok (Z.of_nat SCAN_RANGE - 1)) (log st1 (attaches 0 SCAN_RANGE))).
  destruct Hrun as (st3 & Hshm3 & Hrun).
  - apply follower_scan_exhausted. intros j Hj.
    exists record_of_b, {[ [47; 98] ]}. split; [|split].
    + rewrite Hshm. exact (full_registry_lookup record_of_b j Hj).
    + reflexivity.
    + exact a_is_not_b.
  - exists st3. rewrite SCAN_RANGE_eq in Hrun.
    split; [exact Hrun|]. split; [|split].
    + rewrite Hshm3. change (shm (log st1 (attaches 0 SCAN_RANGE))) with (shm st1).
      rewrite Hshm.
      assert (Hlast : full_registry record_of_b
                        !! locals_name (Z.of_nat (Z.to_nat 999999))
                      = Some record_of_b).
      { apply full_registry_lookup. pose proof SCAN_RANGE_eq. lia. }
      rewrite Z2Nat.id in Hlast by lia. exact Hlast.
    + reflexivity.
    + exact a_is_not_b.
Qed.

(** ** The protocol on a quiet machine *)

(** The leader registers its two directories at the first slot; a follower
    with the same directories, in another order, resolves to that slot;
    a second job that reuses one of the directories is turned down, and
    one with other directories gets the next slot. *)
Example leader_then_follower :
  let after := snd (get_shm_prefix [[47; 97]; [47; 98]] leader quiet_machine) in
  fst (get_shm_prefix [[47; 97]; [47; 98]] leader quiet_machine)
  = Ok ("000000"%string, "000000_locals"%string) /\
  fst (get_shm_prefix [[47; 98]; [47; 97]] follower after)
  = Ok ("000000"%string, "000000_locals"%string) /\
  fst (get_shm_prefix [[47; 98]; [47; 99]] leader after)
  = Raise (ReusedLocalDirectoryVs [[47; 98]; [47; 99]] [[47; 97]; [47; 98]]) /\
  fst (get_shm_prefix [[47; 99]] leader after)
  = Ok ("000001"%string, "000001_locals"%string).
Proof. vm_compute. repeat split. Qed.

(** ** Further properties of the registration record *)

(** X1. Round trip of the registration record: for a non-empty set of
    directory names that are UTF-8-encodable and hold no NUL, packing
    succeeds, and when the record is shorter than [2**31] bytes unpacking
    it gives the set back, whatever bytes follow the record in the
    buffer. *)
Theorem pack_unpack_round_trip (dirnames : gset pystr) (pad : pybytes) :
  dirnames <> ∅ ->
  (forall d, d ∈ dirnames -> encodable d /\ NUL ∉ d) ->
  exists data,
    _pack_locals dirnames = Some data /\
    (Z.of_nat (length data) < 2^31 ->
     _unpack_locals (data ++ pad) = Some dirnames).
Proof.
  intros Hne Hall.
  destruct (_pack_locals_total dirnames) as [data Hpack].
  { intros d Hd. by apply Hall. }
  exists data. split; [done|]. intros Hlen.
  apply _unpack_pack_locals; try done. intros d Hd. by apply Hall.
Qed.

Lemma pack_unpack_round_trip_witness :
  exists data,
    _pack_locals {[ [47; 98]; [233; 8364] ]} = Some data /\
    (Z.of_nat (length data) < 2^31 ->
     _unpack_locals (data ++ [0; 0; 7]) = Some {[ [47; 98]; [233; 8364] ]}).
Proof.
  apply (pack_unpack_round_trip {[ [47; 98]; [233; 8364] ]} [0; 0; 7]).
  - intros He. apply (not_elem_of_empty (C:=gset pystr) [47; 98]).
    rewrite <- He. apply elem_of_union_l. by apply elem_of_singleton.
  - intros d Hd.
    apply elem_of_union in Hd as [Hd|Hd]; apply elem_of_singleton in Hd;
      subst d; (split; [repeat constructor|]);
      intros Hnul; apply (bool_decide_pack _) in Hnul; vm_compute in Hnul;
      done.
Defined.

(** X2. The record [_pack_locals] builds is its four-byte header followed
    by the payload, and while it is shorter than [2**31] bytes the header
    read back as an [int32] is the length of the whole record. *)
Theorem pack_header_is_record_length (dirnames : gset pystr) data :
  _pack_locals dirnames = Some data ->
  Z.of_nat (length data) < 2^31 ->
  (4 <= length data)%nat /\
  int32_frombuffer (take 4 data) = Some (Z.of_nat (length data)) /\
  utf8_decode (drop 4 data) = Some (join [NUL] (sorted dirnames)).
Proof.
  intros Hpack Hlen. unfold _pack_locals in Hpack.
  destruct (utf8_encode (join [NUL] (sorted dirnames))) as [payload|] eqn:Henc;
    [|discriminate].
  assert (data = int32_tobytes (np_int32 (4 + Z.of_nat (length payload)))
                 ++ payload) as -> by (cbn [mbind option_bind] in Hpack; congruence).
  clear Hpack. rewrite length_app, int32_tobytes_length in *.
  rewrite np_int32_id by lia.
  split; [lia|]. split.
  - rewrite take_app_length' by reflexivity.
    rewrite int32_frombuffer_tobytes by lia. f_equal. lia.
  - rewrite drop_app_length' by reflexivity. by apply utf8_decode_encode.
Qed.

Lemma pack_header_is_record_length_witness :
  (4 <= length ([9; 0; 0; 0; 47; 97; 0; 47; 98]%Z : pybytes))%nat /\
  int32_frombuffer (take 4 [9; 0; 0; 0; 47; 97; 0; 47; 98])
  = Some (Z.of_nat (length [9; 0; 0; 0; 47; 97; 0; 47; 98])) /\
  utf8_decode (drop 4 [9; 0; 0; 0; 47; 97; 0; 47; 98])
  = Some (join [NUL] (sorted {[ [47; 98]; [47; 97] ]})).
Proof.
  apply (pack_header_is_record_length {[ [47; 98]; [47; 97] ]}).
  - reflexivity.
  - cbn. lia.
Defined.

(** ** The blocks of [get_shm_prefix], whatever their outcome *)

Tactic Notation "step_bind" hyp(H) "as" ident(r) ident(e) ident(s) ident(E) :=
  match type of H with
  | bind ?m ?k ?s0 = _ =>
      destruct (m s0) as [[r|e] s] eqn:E;
      [rewrite (bind_ok _ _ _ _ _ E) in H
      |rewrite (bind_raise _ _ _ _ _ E) in H]
  end.

Lemma create_eq name size st :
  create name size st
  = match shm st !! name with
    | Some _ => (Raise (FileExistsError name), log st [EvCreate name size])
    | None =>
        (Ok tt, update st (<[name := replicate size 0]> (shm st))
                       [EvCreate name size])
    end.
Proof.
  unfold create. rewrite (bind_ok _ _ _ _ _ (eq_refl : emit _ st = (Ok tt, _))).
  unfold bind, get. cbn [shm]. by destruct (shm st !! name).
Qed.

Lemma write_buf_eq name data st :
  write_buf name data st
  = (Ok tt,
     match shm st !! name with
     | Some buf =>
         update st (<[name := data ++ drop (length data) buf]> (shm st))
                [EvWrite name]
     | None => log st [EvWrite name]
     end).
Proof.
  unfold write_buf. rewrite (bind_ok _ _ _ _ _ (eq_refl : emit _ st = (Ok tt, _))).
  unfold bind, get. cbn [shm]. by destruct (shm st !! name).
Qed.

(** A scan reads: it leaves the segments and the state of the transport
    as they are, and the only errors it raises are its own. *)
Lemma leader_scan_frame my n : forall i st r st',
  leader_scan my n i st = (r, st') ->
  shm st' = shm st /\ dist_available st' = dist_available st /\
  dist_initialized st' = dist_initialized st /\
  forall d, r <> Raise (ReusedLocalDirectory d).
Proof.
  induction n as [|n IH]; intros i st r st' Hrun.
  - by injection Hrun as <- <-.
  - cbn [leader_scan] in Hrun. unfold bind at 1 in Hrun. rewrite attach_eq in Hrun.
    cbn [shm log] in Hrun.
    destruct (shm st !! locals_name i) as [buf|]; [|by injection Hrun as <- <-].
    destruct (_unpack_locals buf) as [theirs|]; [|by injection Hrun as <- <-].
    destruct (decide _); [by injection Hrun as <- <-|].
    by apply IH in Hrun.
Qed.

Lemma follower_scan_frame my n : forall i st r st',
  follower_scan my n i st = (r, st') ->
  shm st' = shm st /\ dist_available st' = dist_available st /\
  dist_initialized st' = dist_initialized st /\
  forall d, r <> Raise (ReusedLocalDirectory d).
Proof.
  induction n as [|n IH]; intros i st r st' Hrun.
  - by injection Hrun as <- <-.
  - cbn [follower_scan] in Hrun. unfold bind at 1 in Hrun.
    rewrite attach_eq in Hrun. cbn [shm log] in Hrun.
    destruct (shm st !! locals_name i) as [buf|]; [|by injection Hrun as <- <-].
    destruct (_unpack_locals buf) as [theirs|]; [|by injection Hrun as <- <-].
    destruct (decide _); [by injection Hrun as <- <-|].
    by apply IH in Hrun.
Qed.

(** What [register] does after its scan. *)
Lemma register_eq my st :
  register my st
  = match leader_scan my SCAN_RANGE 0 st with
    | (Raise e, st1) => (Raise e, st1)
    | (Ok prefix_int, st1) =>
        match _pack_locals my with
        | None => (Raise MalformedRecord, st1)
        | Some data =>
            match shm st1 !! locals_name prefix_int with
            | Some _ =>
                (Raise (FileExistsError (locals_name prefix_int)),
                 log st1 [EvCreate (locals_name prefix_int) (length data)])
            | None =>
                (Ok prefix_int,
                 update st1 (<[locals_name prefix_int := data]> (shm st1))
                        [EvCreate (locals_name prefix_int) (length data);
                         EvWrite (locals_name prefix_int)])
            end
        end
    end.
Proof.
  unfold register, bind at 1.
  destruct (leader_scan my SCAN_RANGE 0 st) as [[k|e] st1]; [|done].
  destruct (_pack_locals my) as [data|]; [|done].
  unfold bind at 1. rewrite create_eq.
  destruct (shm st1 !! locals_name k) eqn:Hk; [done|].
  unfold bind at 1. rewrite write_buf_eq. cbn [shm update].
  rewrite lookup_insert_eq, insert_insert_eq.
  rewrite drop_replicate, Nat.sub_diag. cbn [replicate]. rewrite app_nil_r.
  unfold ret, update. cbn. by rewrite <- app_assoc.
Qed.

Lemma register_frame my st r st' :
  register my st = (r, st') ->
  segments_kept st st' /\ dist_available st' = dist_available st /\
  dist_initialized st' = dist_initialized st /\
  forall d, r <> Raise (ReusedLocalDirectory d).
Proof.
  rewrite register_eq.
  destruct (leader_scan my SCAN_RANGE 0 st) as [[k|e] st1] eqn:Hscan;
    apply leader_scan_frame in Hscan as (Hshm & Hav & Hin & Hne).
  - destruct (_pack_locals my) as [data|].
    + destruct (shm st1 !! locals_name k) eqn:Hk; intros [= <- <-].
      * split; [|split; [exact Hav|split; [exact Hin|done]]].
        intros name buf Hbuf. change (shm st1 !! name = Some buf).
        by rewrite Hshm.
      * split; [|split; [exact Hav|split; [exact Hin|done]]].
        intros name buf Hbuf.
        change (<[locals_name k := data]> (shm st1) !! name = Some buf).
        rewrite lookup_insert_ne; [by rewrite Hshm|].
        intros <-. rewrite Hshm in Hk. congruence.
    + intros [= <- <-]. split; [|split; [exact Hav|split; [exact Hin|done]]].
      intros name buf. by rewrite Hshm.
  - intros [= <- <-]. split; [|split; [exact Hav|split; [exact Hin|done]]].
    intros name buf. by rewrite Hshm.
Qed.

Lemma first_barrier_frame world st :
  exists b st',
    first_barrier world st = (Ok b, st') /\ shm st' = shm st /\
    dist_available st' = dist_available st /\
    dist_initialized st' = dist_initialized st || b /\
    (b = true -> dist_initialized st = false).
Proof.
  unfold first_barrier. destruct (1 <? num_ranks world).
  - unfold bind at 1. cbn [get].
    destruct (dist_available st) eqn:Hav, (dist_initialized st) eqn:Hin;
      cbn [andb negb]; eexists _, _; (split; [reflexivity|]); cbn;
      rewrite ?Hav, ?Hin; done.
  - exists false, st. by rewrite orb_false_r.
Qed.

Lemma second_barrier_frame destroy_dist st :
  exists st',
    second_barrier destroy_dist st = (Ok tt, st') /\ shm st' = shm st /\
    dist_available st' = dist_available st /\
    dist_initialized st'
    = (if destroy_dist then false else dist_initialized st).
Proof.
  unfold second_barrier. unfold bind at 1. cbn [get].
  destruct (dist_available st && dist_initialized st), destroy_dist;
    by eexists.
Qed.

(** ** Slot names *)

Lemma digit_inj a b : digit a = digit b -> a mod 10 = b mod 10.
Proof.
  unfold digit. intros H. apply (f_equal nat_of_ascii) in H.
  rewrite !nat_ascii_embedding in H
    by (pose proof (Z.mod_pos_bound a 10); pose proof (Z.mod_pos_bound b 10);
        lia).
  pose proof (Z.mod_pos_bound a 10). pose proof (Z.mod_pos_bound b 10). lia.
Qed.

Lemma decimal_digits i :
  0 <= i < 1000000 ->
  i = (i / 100000) mod 10 * 100000 + (i / 10000) mod 10 * 10000
      + (i / 1000) mod 10 * 1000 + (i / 100) mod 10 * 100
      + (i / 10) mod 10 * 10 + i mod 10.
Proof. intros H. Z.div_mod_to_equations. lia. Qed.

(** Distinct slots have distinct names. *)
Lemma locals_name_inj i j :
  0 <= i < 1000000 -> 0 <= j < 1000000 ->
  locals_name i = locals_name j -> i = j.
Proof.
  intros Hi Hj H. unfold locals_name, format_06 in H. cbn [String.append] in H.
  injection H as H5 H4 H3 H2 H1 H0.
  apply digit_inj in H5, H4, H3, H2, H1, H0.
  rewrite (decimal_digits i Hi), (decimal_digits j Hj).
  by rewrite H5, H4, H3, H2, H1, H0.
Qed.

(** ** The local leader's scan *)

Lemma leader_scan_skip my k : forall n i st,
  (forall j, (j < k)%nat -> disjoint_slot my st (i + Z.of_nat j)) ->
  leader_scan my (k + n) i st
  = leader_scan my n (i + Z.of_nat k) (log st (attaches i k)).
Proof.
  induction k as [|k IH]; intros n i st Hskip.
  - cbn [Nat.add attaches seq fmap list_fmap]. rewrite log_nil.
    by rewrite Z.add_0_r.
  - destruct (Hskip 0%nat ltac:(lia)) as (buf & theirs & Hbuf & Hun & Hdis).
    rewrite Z.add_0_r in Hbuf.
    cbn [Nat.add leader_scan]. unfold bind at 1. rewrite attach_eq, Hbuf, Hun.
    rewrite decide_False by (intros Hn; by apply Hn).
    rewrite IH.
    + rewrite log_log, attaches_cons. cbn [app].
      by replace (i + 1 + Z.of_nat k) with (i + Z.of_nat (S k)) by lia.
    + intros j Hj. destruct (Hskip (S j) ltac:(lia)) as (b & t & Hb & Ht & Hn).
      exists b, t. split; [|done]. cbn [log shm].
      rewrite <- Hb. do 2 f_equal. lia.
Qed.

Lemma leader_scan_free my k n st :
  (forall j, (j < k)%nat -> disjoint_slot my st (Z.of_nat j)) ->
  shm st !! locals_name (Z.of_nat k) = None ->
  leader_scan my (k + S n) 0 st = (Ok (Z.of_nat k), log st (attaches 0 (S k))).
Proof.
  intros Hskip Hbuf. rewrite leader_scan_skip by done.
  rewrite Z.add_0_l. cbn [leader_scan]. unfold bind at 1.
  rewrite attach_eq. cbn [log shm]. rewrite Hbuf.
  unfold ret. by rewrite log_log, attaches_snoc.
Qed.

Lemma leader_scan_overlap my k n st buf theirs :
  (forall j, (j < k)%nat -> disjoint_slot my st (Z.of_nat j)) ->
  shm st !! locals_name (Z.of_nat k) = Some buf ->
  _unpack_locals buf = Some theirs -> my ∩ theirs <> ∅ ->
  leader_scan my (k + S n) 0 st
  = (Raise (ReusedLocalDirectoryVs (sorted my) (sorted theirs)),
     log st (attaches 0 (S k))).
Proof.
  intros Hskip Hbuf Hun Hov. rewrite leader_scan_skip by done.
  rewrite Z.add_0_l. cbn [leader_scan]. unfold bind at 1.
  rewrite attach_eq. cbn [log shm]. rewrite Hbuf, Hun.
  rewrite decide_True by done.
  unfold raise. by rewrite log_log, attaches_snoc.
Qed.

Lemma disjoint_below my st st1 k :
  shm st1 = shm st ->
  (forall j, 0 <= j < k -> disjoint_slot my st j) ->
  forall j, (j < Z.to_nat k)%nat -> disjoint_slot my st1 (Z.of_nat j).
Proof.
  intros Hshm Hskip j Hj.
  destruct (Hskip (Z.of_nat j) ltac:(lia)) as (b & t & Hb & Ht).
  exists b, t. by rewrite Hshm.
Qed.

(** ** Further properties of the duplicate check *)

Lemma check_my_locals_first_dup my_locals : forall acc st d st',
  check_my_locals my_locals acc st = (Raise (ReusedLocalDirectory d), st') ->
  exists before after,
    my_locals = before ++ d :: after /\ NoDup before /\
    (forall x, x ∈ before -> x ∉ acc) /\
    (d ∈ acc \/ d ∈ before).
Proof.
  induction my_locals as [|x l IH]; intros acc st d st' Hrun; [done|].
  cbn [check_my_locals] in Hrun. destruct (decide (x ∈ acc)) as [Hin|Hnin].
  - injection Hrun as <- _. exists [], l. split; [done|].
    split; [constructor|]. split; [|by left]. intros y Hy. by apply elem_of_nil in Hy.
  - apply IH in Hrun as (before & after & -> & Hnd & Hfresh & Hd).
    exists (x :: before), after. split; [done|]. split; [|split].
    + constructor; [|done]. intros Hx. apply (Hfresh x Hx).
      apply elem_of_union_r. by apply elem_of_singleton.
    + intros y Hy. apply elem_of_cons in Hy as [->|Hy]; [done|].
      intros Hacc. apply (Hfresh y Hy). by apply elem_of_union_l.
    + destruct Hd as [Hd|Hd]; [|right; by right].
      apply elem_of_union in Hd as [Hd|Hd]; [by left|].
      apply elem_of_singleton in Hd as ->. right. left.
Qed.

Lemma check_my_locals_frame my_locals : forall acc st r st',
  check_my_locals my_locals acc st = (r, st') -> st' = st.
Proof.
  induction my_locals as [|x l IH]; intros acc st r st' Hrun.
  - by injection Hrun as _ <-.
  - cbn [check_my_locals] in Hrun. destruct (decide _).
    + by injection Hrun as _ <-.
    + by eapply IH.
Qed.

(** X3. The directory the reused-directory error names is the first entry
    of the list that repeats an earlier one: the entries before it hold
    no duplicate, and it is one of them. *)
Theorem get_shm_prefix_names_first_duplicate my_locals world st d st' :
  get_shm_prefix my_locals world st = (Raise (ReusedLocalDirectory d), st') ->
  exists before after,
    my_locals = before ++ d :: after /\ NoDup before /\ d ∈ before.
Proof.
  intros Hrun. unfold get_shm_prefix in Hrun.
  step_bind Hrun as my e0 s0 Echk.
  - exfalso. step_bind Hrun as led e1 s1 Eled.
    + destruct (first_barrier_frame world s1) as (b & s2 & Hfb & _).
      rewrite (bind_ok _ _ _ _ _ Hfb) in Hrun.
      step_bind Hrun as k e3 s3 Escan.
      * destruct (second_barrier_frame b s3) as (s4 & Hsb & _).
        by rewrite (bind_ok _ _ _ _ _ Hsb) in Hrun.
      * injection Hrun as -> _. destruct led as [k|]; [done|].
        apply follower_scan_frame in Escan as (_ & _ & _ & Hne).
        by apply (Hne d).
    + injection Hrun as -> _. destruct (is_local_leader world); [|done].
      step_bind Eled as k e2 s2 Ereg; [done|]. injection Eled as -> _.
      apply register_frame in Ereg as (_ & _ & _ & Hne). by apply (Hne d).
  - injection Hrun as -> _.
    apply check_my_locals_first_dup in Echk
      as (before & after & -> & Hnd & _ & [Hd|Hd]).
    + by apply not_elem_of_empty in Hd.
    + by exists before, after.
Qed.

Lemma get_shm_prefix_names_first_duplicate_witness :
  exists before after,
    [[47; 97]; [47; 98]; [47; 98]; [47; 97]]
    = before ++ [47; 98] :: after /\ NoDup before /\ [47; 98] ∈ before.
Proof.
  apply (get_shm_prefix_names_first_duplicate
           [[47; 97]; [47; 98]; [47; 98]; [47; 97]] leader quiet_machine
           [47; 98] quiet_machine).
  vm_compute. reflexivity.
Defined.

(** ** What [get_shm_prefix] leaves behind *)

Lemma resolve_block_frame (led : option Z) my st r s :
  match led with
  | Some prefix_int => ret prefix_int
  | None => follower_scan my SCAN_RANGE 0
  end st = (r, s) ->
  shm s = shm st /\ dist_available s = dist_available st /\
  dist_initialized s = dist_initialized st.
Proof.
  intros H. destruct led.
  - by injection H as _ <-.
  - by apply follower_scan_frame in H as (-> & -> & -> & _).
Qed.

Lemma leader_block_frame world my st led s :
  (if is_local_leader world
   then let* prefix_int := register my in ret (Some prefix_int)
   else ret None) st = (led, s) ->
  segments_kept st s /\ (is_local_leader world = false -> shm s = shm st).
Proof.
  intros H. destruct (is_local_leader world).
  - split; [|done].
    step_bind H as k e2 s2 Ereg; injection H as _ <-;
      by apply register_frame in Ereg as (Hk & _).
  - injection H as _ <-. split; [by intros ??|done].
Qed.

(** X4. Whatever its outcome, [get_shm_prefix] never removes or rewrites a
    segment that was there when it started; a participant that is not the
    local leader leaves the shared memory exactly as it was. *)
Theorem get_shm_prefix_keeps_segments my_locals world st r st' :
  get_shm_prefix my_locals world st = (r, st') ->
  segments_kept st st' /\
  (is_local_leader world = false -> shm st' = shm st).
Proof.
  intros Hrun. unfold get_shm_prefix in Hrun.
  step_bind Hrun as my e0 s0 Echk;
    apply check_my_locals_frame in Echk as ->;
    [|injection Hrun as _ <-; split; [by intros ??|done]].
  step_bind Hrun as led e1 s1 Eled;
    apply leader_block_frame in Eled as [Hk1 Hf1];
    [|injection Hrun as _ <-; by split].
  destruct (first_barrier_frame world s1) as (b & s2 & Hfb & Hs2 & _).
  rewrite (bind_ok _ _ _ _ _ Hfb) in Hrun.
  assert (Hend : shm st' = shm s1).
  { step_bind Hrun as k e3 s3 Escan;
      apply resolve_block_frame in Escan as (Hs3 & _).
    - destruct (second_barrier_frame b s3) as (s4 & Hsb & Hs4 & _).
      rewrite (bind_ok _ _ _ _ _ Hsb) in Hrun. injection Hrun as _ <-.
      congruence.
    - injection Hrun as _ <-. congruence. }
  split.
  - intros name buf Hbuf. rewrite Hend. by apply Hk1.
  - intros Hl. rewrite Hend. by apply Hf1.
Qed.

Lemma get_shm_prefix_keeps_segments_witness :
  segments_kept
    (snd (get_shm_prefix [[47; 97]; [47; 98]] leader quiet_machine))
    (snd (get_shm_prefix [[47; 99]] leader
            (snd (get_shm_prefix [[47; 97]; [47; 98]] leader quiet_machine)))) /\
  (is_local_leader leader = false ->
   shm (snd (get_shm_prefix [[47; 99]] leader
               (snd (get_shm_prefix [[47; 97]; [47; 98]] leader
                       quiet_machine))))
   = shm (snd (get_shm_prefix [[47; 97]; [47; 98]] leader quiet_machine))).
Proof.
  apply (get_shm_prefix_keeps_segments [[47; 99]] leader
           (snd (get_shm_prefix [[47; 97]; [47; 98]] leader quiet_machine))
           (fst (get_shm_prefix [[47; 99]] leader
                   (snd (get_shm_prefix [[47; 97]; [47; 98]] leader
                           quiet_machine))))).
  vm_compute. reflexivity.
Defined.

(** X5. A call of [get_shm_prefix] that returns leaves the process group
    as it found it: it is initialized afterwards exactly if it was before,
    so a group the call set up has been torn down and a group that was
    already up has not. *)
Theorem get_shm_prefix_restores_dist my_locals world st r st' :
  get_shm_prefix my_locals world st = (Ok r, st') ->
  dist_initialized st' = dist_initialized st /\
  dist_available st' = dist_available st.
Proof.
  intros Hrun. unfold get_shm_prefix in Hrun.
  step_bind Hrun as my e0 s0 Echk; [|done].
  apply check_my_locals_frame in Echk as ->.
  step_bind Hrun as led e1 s1 Eled; [|done].
  assert (Hs1 : dist_initialized s1 = dist_initialized st /\
                dist_available s1 = dist_available st).
  { destruct (is_local_leader world).
    - step_bind Eled as k e2 s2 Ereg; [|done]. injection Eled as _ <-.
      by apply register_frame in Ereg as (_ & -> & -> & _).
    - by injection Eled as _ <-. }
  destruct Hs1 as [Hin1 Hav1].
  destruct (first_barrier_frame world s1)
    as (b & s2 & Hfb & _ & Hav2 & Hin2 & Hb).
  rewrite (bind_ok _ _ _ _ _ Hfb) in Hrun.
  step_bind Hrun as k e3 s3 Escan; [|done].
  apply resolve_block_frame in Escan as (_ & Hav3 & Hin3).
  destruct (second_barrier_frame b s3) as (s4 & Hsb & _ & Hav4 & Hin4).
  rewrite (bind_ok _ _ _ _ _ Hsb) in Hrun. injection Hrun as _ <-.
  split; [|congruence].
  rewrite Hin4. destruct b.
  - rewrite <- Hin1. symmetry. by apply Hb.
  - rewrite Hin3, Hin2, orb_false_r. done.
Qed.

Lemma get_shm_prefix_restores_dist_witness :
  dist_initialized
    (snd (get_shm_prefix [[47; 97]; [47; 98]] leader quiet_machine))
  = dist_initialized quiet_machine /\
  dist_available
    (snd (get_shm_prefix [[47; 97]; [47; 98]] leader quiet_machine))
  = dist_available quiet_machine.
Proof.
  apply (get_shm_prefix_restores_dist [[47; 97]; [47; 98]] leader
           quiet_machine ("000000"%string, "000000_locals"%string)).
  vm_compute. reflexivity.
Defined.

(** ** [get_shm_prefix] for the local leader *)

Lemma leader_scan_exhausted my k st :
  (forall j, (j < k)%nat -> disjoint_slot my st (Z.of_nat j)) ->
  leader_scan my k 0 st = (Ok (Z.of_nat k - 1), log st (attaches 0 k)).
Proof.
  intros Hskip. rewrite <- (Nat.add_0_r k) at 1.
  rewrite leader_scan_skip by done. by rewrite Z.add_0_l.
Qed.

(** Past the duplicate check the leader registers, crosses the barriers
    and returns the slot it registered at, or raises what registering
    raised. *)
Lemma get_shm_prefix_leader my_locals world st r st1 :
  is_local_leader world = true -> NoDup my_locals ->
  register (list_to_set my_locals) st = (r, st1) ->
  match r with
  | Ok prefix_int =>
      exists st3, shm st3 = shm st1 /\
        get_shm_prefix my_locals world st
        = (Ok (format_06 prefix_int, locals_name prefix_int), st3)
  | Raise e => get_shm_prefix my_locals world st = (Raise e, st1)
  end.
Proof.
  intros Hlead Hnd Hreg. unfold get_shm_prefix.
  rewrite (bind_ok _ _ _ _ _
             (proj2 (get_shm_prefix_nodup_check my_locals st) Hnd)).
  rewrite Hlead. destruct r as [k|e].
  - rewrite (bind_ok _ _ _ _ _ (bind_ok _ _ _ _ _ Hreg)).
    destruct (first_barrier_frame world st1) as (b & s2 & Hfb & Hs2 & _).
    rewrite (bind_ok _ _ _ _ _ Hfb), bind_ret.
    destruct (second_barrier_frame b s2) as (s3 & Hsb & Hs3 & _).
    exists s3. split; [congruence|]. by rewrite (bind_ok _ _ _ _ _ Hsb).
  - by rewrite (bind_raise _ _ _ _ _ (bind_raise _ _ _ _ _ Hreg)).
Qed.

(** Registering when slot [k] is the first unused one. *)
Lemma register_at_free_slot my st k data :
  0 <= k < 1000000 ->
  (forall j, 0 <= j < k -> disjoint_slot my st j) ->
  shm st !! locals_name k = None ->
  _pack_locals my = Some data ->
  register my st
  = (Ok k,
     update (log st (attaches 0 (S (Z.to_nat k))))
            (<[locals_name k := data]> (shm st))
            [EvCreate (locals_name k) (length data); EvWrite (locals_name k)]).
Proof.
  intros Hk Hskip Hfree Hpack.
  destruct (SCAN_RANGE_split k Hk) as [n Hn].
  assert (Hscan : leader_scan my SCAN_RANGE 0 st
                  = (Ok k, log st (attaches 0 (S (Z.to_nat k))))).
  { rewrite Hn. clear Hn. rewrite leader_scan_free.
    - by rewrite Z2Nat.id by lia.
    - by apply (disjoint_below _ st).
    - by rewrite Z2Nat.id by lia. }
  clear Hn.
  rewrite register_eq, Hscan, Hpack. cbn [log shm]. by rewrite Hfree.
Qed.

(** X6. The local leader takes the first unused slot: when the slots
    before slot [k] hold records of directories that are none of its own,
    slot [k] is unused and its set can be packed, [get_shm_prefix] returns
    the six-digit prefix of [k], and the shared memory afterwards is the
    one before with the packed set stored at slot [k]. *)
Theorem leader_registers_at_first_free_slot my_locals world st k data :
  is_local_leader world = true -> NoDup my_locals ->
  0 <= k < 1000000 ->
  (forall j, 0 <= j < k -> disjoint_slot (list_to_set my_locals) st j) ->
  shm st !! locals_name k = None ->
  _pack_locals (list_to_set my_locals) = Some data ->
  exists st',
    get_shm_prefix my_locals world st
    = (Ok (format_06 k, locals_name k), st') /\
    shm st' = <[locals_name k := data]> (shm st).
Proof.
  intros Hlead Hnd Hk Hskip Hfree Hpack.
  pose proof (register_at_free_slot _ st k data Hk Hskip Hfree Hpack) as Hreg.
  apply (get_shm_prefix_leader my_locals world) in Hreg
    as (st3 & Hshm & Hrun); [|done..].
  exists st3. split; [done|]. by rewrite Hshm.
Qed.

Lemma leader_registers_at_first_free_slot_witness :
  exists st',
    get_shm_prefix [[47; 97]; [47; 98]] leader quiet_machine
    = (Ok (format_06 0, locals_name 0), st') /\
    shm st' = <[locals_name 0 := [9; 0; 0; 0; 47; 97; 0; 47; 98]]>
                (shm quiet_machine).
Proof.
  apply (leader_registers_at_first_free_slot [[47; 97]; [47; 98]] leader
           quiet_machine 0).
  - reflexivity.
  - apply (bool_decide_unpack _). vm_compute. reflexivity.
  - lia.
  - intros j Hj. lia.
  - reflexivity.
  - vm_compute. reflexivity.
Defined.

(** X7. The local leader turns down a directory that a running job has
    claimed: when the first record it meets that shares a directory with
    its own set is at slot [k], [get_shm_prefix] raises the
    reused-directory error that names both sets, sorted, having only
    attached to the slots up to [k]: nothing is created or written and no
    barrier is crossed. *)
Theorem leader_rejects_claimed_directory my_locals world st k buf theirs :
  is_local_leader world = true -> NoDup my_locals ->
  0 <= k < 1000000 ->
  (forall j, 0 <= j < k -> disjoint_slot (list_to_set my_locals) st j) ->
  shm st !! locals_name k = Some buf ->
  _unpack_locals buf = Some theirs ->
  list_to_set my_locals ∩ theirs <> ∅ ->
  get_shm_prefix my_locals world st
  = (Raise (ReusedLocalDirectoryVs (sorted (list_to_set my_locals))
                                   (sorted theirs)),
     log st (attaches 0 (S (Z.to_nat k)))).
Proof.
  intros Hlead Hnd Hk Hskip Hbuf Hun Hov.
  destruct (SCAN_RANGE_split k Hk) as [n Hn].
  assert (Hscan : leader_scan (list_to_set my_locals) SCAN_RANGE 0 st
                  = (Raise (ReusedLocalDirectoryVs
                              (sorted (list_to_set my_locals)) (sorted theirs)),
                     log st (attaches 0 (S (Z.to_nat k))))).
  { rewrite Hn. clear Hn. apply (leader_scan_overlap _ _ _ _ buf).
    - by apply (disjoint_below _ st).
    - by rewrite Z2Nat.id by lia.
    - done.
    - done. }
  clear Hn.
  pose proof (register_eq (list_to_set my_locals) st) as Hreg.
  rewrite Hscan in Hreg.
  by apply (get_shm_prefix_leader my_locals world) in Hreg.
Qed.

Lemma leader_rejects_claimed_directory_witness :
  get_shm_prefix [[47; 99]; [47; 98]] leader
    (update quiet_machine
       {[ "000000_locals"%string := [9; 0; 0; 0; 47; 97; 0; 47; 98] ]} [])
  = (Raise (ReusedLocalDirectoryVs
              (sorted (list_to_set [[47; 99]; [47; 98]]))
              (sorted {[ [47; 97]; [47; 98] ]})),
     log (update quiet_machine
            {[ "000000_locals"%string := [9; 0; 0; 0; 47; 97; 0; 47; 98] ]} [])
         (attaches 0 (S (Z.to_nat 0)))).
Proof.
  apply (leader_rejects_claimed_directory [[47; 99]; [47; 98]] leader _ 0
           [9; 0; 0; 0; 47; 97; 0; 47; 98]).
  - reflexivity.
  - apply (bool_decide_unpack _). vm_compute. reflexivity.
  - lia.
  - intros j Hj. lia.
  - vm_compute. reflexivity.
  - vm_compute. reflexivity.
  - apply (bool_decide_unpack _). vm_compute. reflexivity.
Defined.

(** X8. Leader and follower agree. Take a leader that registers a
    non-empty set of encodable, NUL-free directories at slot [k], as
    above, with a record shorter than [2**31] bytes. A participant of the
    same job that is not the leader, given the same directories in any
    order and looking at the shared memory the leader left, resolves to
    the same prefix. *)
Theorem follower_finds_leader_slot
    my_locals their_locals world world' st st' st2 k data :
  is_local_leader world = true -> NoDup my_locals ->
  0 <= k < 1000000 ->
  (forall j, 0 <= j < k -> disjoint_slot (list_to_set my_locals) st j) ->
  shm st !! locals_name k = None ->
  _pack_locals (list_to_set my_locals) = Some data ->
  Z.of_nat (length data) < 2^31 ->
  my_locals <> [] ->
  (forall d, d ∈ my_locals -> NUL ∉ d) ->
  get_shm_prefix my_locals world st
  = (Ok (format_06 k, locals_name k), st') ->
  is_local_leader world' = false -> NoDup their_locals ->
  their_locals ≡ₚ my_locals ->
  shm st2 = shm st' ->
  exists st3,
    get_shm_prefix their_locals world' st2
    = (Ok (format_06 k, locals_name k), st3) /\
    shm st3 = shm st'.
Proof.
  intros Hlead Hnd Hk Hskip Hfree Hpack Hlen Hne Hnul Hrun
         Hlead' Hnd' Hperm Hshm2.
  assert (Hshm' : shm st' = <[locals_name k := data]> (shm st)).
  { pose proof (register_at_free_slot _ st k data Hk Hskip Hfree Hpack) as Hreg.
    apply (get_shm_prefix_leader my_locals world) in Hreg
      as (st'' & Hshm'' & Hrun'); [|done..].
    rewrite Hrun in Hrun'. injection Hrun' as <-. by rewrite Hshm''. }
  assert (Hset : (list_to_set their_locals : gset pystr)
                 = list_to_set my_locals).
  { apply set_eq. intros d. by rewrite !elem_of_list_to_set, Hperm. }
  assert (Hmine : (list_to_set my_locals : gset pystr) <> ∅).
  { destruct my_locals as [|d l]; [done|]. intros He.
    apply (not_elem_of_empty (C:=gset pystr) d). rewrite <- He.
    apply elem_of_list_to_set. left. }
  destruct (get_shm_prefix_follower their_locals world' st2 Hlead' Hnd')
    as (st1 & Hshm1 & Hfol).
  destruct (SCAN_RANGE_split k Hk) as [n Hn].
  specialize (Hfol (Ok k) (log st1 (attaches 0 (S (Z.to_nat k))))).
  rewrite Hn in Hfol. clear Hn.
  destruct Hfol as (st3 & Hshm3 & Hrun3).
  - rewrite (follower_scan_found _ _ _ _ data).
    + by rewrite Z2Nat.id by lia.
    + rewrite Hset. intros j Hj.
      destruct (Hskip (Z.of_nat j) ltac:(lia)) as (b & t & Hb & Ht & Hdis).
      exists b, t. split; [|split; [done|]].
      * rewrite Hshm1, Hshm2, Hshm', lookup_insert_ne; [done|].
        intros Heq. apply locals_name_inj in Heq; lia.
      * intros Heq. apply Hmine. clear -Hdis Heq. set_solver.
    + by rewrite Hshm1, Hshm2, Hshm', Z2Nat.id, lookup_insert_eq by lia.
    + rewrite Hset. rewrite <- (app_nil_r data).
      apply _unpack_pack_locals; try done.
      intros d Hd. apply Hnul. by apply elem_of_list_to_set in Hd.
  - exists st3. split; [done|]. rewrite Hshm3. cbn [log shm]. congruence.
Qed.

Lemma follower_finds_leader_slot_witness :
  exists st3,
    get_shm_prefix [[47; 98]; [47; 97]] follower
      (snd (get_shm_prefix [[47; 97]; [47; 98]] leader quiet_machine))
    = (Ok (format_06 0, locals_name 0), st3) /\
    shm st3
    = shm (snd (get_shm_prefix [[47; 97]; [47; 98]] leader quiet_machine)).
Proof.
  apply (follower_finds_leader_slot [[47; 97]; [47; 98]] [[47; 98]; [47; 97]]
           leader follower quiet_machine
           (snd (get_shm_prefix [[47; 97]; [47; 98]] leader quiet_machine))
           (snd (get_shm_prefix [[47; 97]; [47; 98]] leader quiet_machine))
           0 [9; 0; 0; 0; 47; 97; 0; 47; 98]).
  - reflexivity.
  - apply (bool_decide_unpack _). vm_compute. reflexivity.
  - lia.
  - intros j Hj. lia.
  - reflexivity.
  - vm_compute. reflexivity.
  - cbn. lia.
  - discriminate.
  - intros d Hd Hn.
    apply elem_of_cons in Hd as [->|Hd];
      [apply (bool_decide_pack _) in Hn; vm_compute in Hn; done|].
    apply elem_of_cons in Hd as [->|Hd];
      [apply (bool_decide_pack _) in Hn; vm_compute in Hn; done|].
    by apply elem_of_nil in Hd.
  - vm_compute. reflexivity.
  - reflexivity.
  - apply (bool_decide_unpack _). vm_compute. reflexivity.
  - apply perm_swap.
  - reflexivity.
Defined.

(** X9. With every one of the [10**6] slots holding a record of
    directories that are none of its own, the local leader's scan runs off
    the end of the range and [get_shm_prefix] fails when it tries to
    create the last slot's segment, which exists; the shared memory is
    left as it was. *)
Theorem leader_fails_when_every_slot_is_taken my_locals world st data :
  is_local_leader world = true -> NoDup my_locals ->
  (forall j, 0 <= j < 1000000 ->
             disjoint_slot (list_to_set my_locals) st j) ->
  _pack_locals (list_to_set my_locals) = Some data ->
  exists st',
    get_shm_prefix my_locals world st
    = (Raise (FileExistsError "999999_locals"), st') /\
    shm st' = shm st.
Proof.
  intros Hlead Hnd Hall Hpack.
  assert (Hscan : leader_scan (list_to_set my_locals) SCAN_RANGE 0 st
                  = (Ok 999999, log st (attaches 0 SCAN_RANGE))).
  { rewrite leader_scan_exhausted.
    - by rewrite SCAN_RANGE_eq.
    - intros j Hj. apply Hall. pose proof SCAN_RANGE_eq. lia. }
  destruct (Hall 999999 ltac:(lia)) as (b & t & Hb & _).
  pose proof (register_eq (list_to_set my_locals) st) as Hreg.
  rewrite Hscan, Hpack in Hreg. cbn [log shm] in Hreg.
  change (locals_name 999999) with "999999_locals"%string in *.
  rewrite Hb in Hreg.
  apply (get_shm_prefix_leader my_locals world) in Hreg; [|done..].
  eexists. split; [exact Hreg|]. reflexivity.
Qed.

Lemma leader_fails_when_every_slot_is_taken_witness :
  exists st',
    get_shm_prefix [[47; 97]]
      {| is_local_leader := true; num_ranks := 1; rank := 0 |}
      crowded_machine
    = (Raise (FileExistsError "999999_locals"), st') /\
    shm st' = shm crowded_machine.
Proof.
  apply (leader_fails_when_every_slot_is_taken [[47; 97]]
           {| is_local_leader := true; num_ranks := 1; rank := 0 |}
           crowded_machine [6; 0; 0; 0; 47; 97]).
  - reflexivity.
  - apply NoDup_singleton.
  - intros j Hj. exists record_of_b, {[ [47; 98] ]}. split; [|split].
    + rewrite <- (Z2Nat.id j) by lia. apply full_registry_lookup.
      pose proof SCAN_RANGE_eq. lia.
    + reflexivity.
    + apply (bool_decide_unpack _). vm_compute. reflexivity.
  - reflexivity.
Defined.

(** ** The follower's scan within the range, on the sample machine *)

(** ** The barrier between the leader and the others *)

Lemma leader_scan_trace my n : forall i st r st',
  leader_scan my n i st = (r, st') ->
  exists evs, trace st' = trace st ++ evs /\
              Forall (fun e => is_barrier e = false) evs.
Proof.
  induction n as [|n IH]; intros i st r st' Hrun.
  - injection Hrun as <- <-. exists []. by rewrite app_nil_r.
  - cbn [leader_scan] in Hrun. unfold bind at 1 in Hrun.
    rewrite attach_eq in Hrun. cbn [shm log] in Hrun.
    assert (Hstop : forall r0, (r0, log st [EvAttach (locals_name i)]) = (r, st') ->
              exists evs, trace st' = trace st ++ evs /\
                          Forall (fun e => is_barrier e = false) evs).
    { intros r0 [= <- <-]. exists [EvAttach (locals_name i)].
      split; [done|]. by repeat constructor. }
    destruct (shm st !! locals_name i) as [buf|]; [|by apply (Hstop (Ok i))].
    destruct (_unpack_locals buf) as [theirs|];
      [|by apply (Hstop (Raise MalformedRecord))].
    destruct (decide _); [by eapply Hstop|].
    apply IH in Hrun as (evs & Htr & Hnb).
    exists (EvAttach (locals_name i) :: evs). split.
    + rewrite Htr. cbn [log trace]. by rewrite <- app_assoc.
    + by constructor.
Qed.

Lemma register_trace my st r st' :
  register my st = (r, st') ->
  exists evs, trace st' = trace st ++ evs /\
              Forall (fun e => is_barrier e = false) evs.
Proof.
  rewrite register_eq.
  destruct (leader_scan my SCAN_RANGE 0 st) as [r1 st1] eqn:Hscan.
  apply leader_scan_trace in Hscan as (evs & Htr & Hnb).
  assert (Hmore : forall r0 m more,
            Forall (fun e => is_barrier e = false) more ->
            (r0, update st1 m more) = (r, st') ->
            exists evs, trace st' = trace st ++ evs /\
                        Forall (fun e => is_barrier e = false) evs).
  { intros r0 m more Hmore [= <- <-]. exists (evs ++ more). split.
    - cbn [update trace]. by rewrite Htr, <- app_assoc.
    - by apply Forall_app. }
  destruct r1 as [prefix_int|e].
  - destruct (_pack_locals my) as [data|].
    + destruct (shm st1 !! locals_name prefix_int).
      * apply (Hmore _ (shm st1) [_]). by repeat constructor.
      * apply (Hmore _ _ [_; _]). by repeat constructor.
    + intros [= <- <-]. by exists evs.
  - intros [= <- <-]. by exists evs.
Qed.

Lemma follower_scan_trace my n : forall i st r st',
  follower_scan my n i st = (r, st') ->
  exists evs, trace st' = trace st ++ evs.
Proof.
  induction n as [|n IH]; intros i st r st' Hrun.
  - injection Hrun as <- <-. exists []. by rewrite app_nil_r.
  - cbn [follower_scan] in Hrun. unfold bind at 1 in Hrun.
    rewrite attach_eq in Hrun. cbn [shm log] in Hrun.
    assert (Hstop : forall r0, (r0, log st [EvAttach (locals_name i)]) = (r, st') ->
              exists evs, trace st' = trace st ++ evs).
    { intros r0 [= <- <-]. by exists [EvAttach (locals_name i)]. }
    destruct (shm st !! locals_name i) as [buf|]; [|by eapply Hstop].
    destruct (_unpack_locals buf) as [theirs|]; [|by eapply Hstop].
    destruct (decide _); [by apply (Hstop (Ok i))|].
    apply IH in Hrun as (evs & Htr).
    exists (EvAttach (locals_name i) :: evs).
    rewrite Htr. cbn [log trace]. by rewrite <- app_assoc.
Qed.

Lemma first_barrier_trace world st :
  1 < num_ranks world ->
  exists b pre st',
    first_barrier world st = (Ok b, st') /\
    trace st' = trace st ++ pre ++ [EvBarrier] /\
    Forall (fun e => is_barrier e = false) pre /\
    Forall (fun e => is_shm_access e = false) pre.
Proof.
  intros Hranks. unfold first_barrier.
  apply Z.ltb_lt in Hranks. rewrite Hranks. unfold bind at 1. cbn [get].
  destruct (dist_available st && negb (dist_initialized st)).
  - eexists true, [_], _. split; [reflexivity|]. split.
    + cbn. by rewrite <- app_assoc.
    + split; by repeat constructor.
  - eexists false, [], _. split; [reflexivity|]. by split.
Qed.

Lemma second_barrier_trace destroy_dist st :
  exists evs st',
    second_barrier destroy_dist st = (Ok tt, st') /\
    trace st' = trace st ++ evs /\
    Forall (fun e => is_shm_access e = false) evs.
Proof.
  unfold second_barrier. unfold bind at 1. cbn [get].
  destruct (dist_available st && dist_initialized st), destroy_dist.
  - eexists [_; _], _. split; [reflexivity|]. split.
    + cbn. by rewrite <- app_assoc.
    + by repeat constructor.
  - eexists [_], _. split; [reflexivity|]. split; [done|]. by repeat constructor.
  - eexists [_], _. split; [reflexivity|]. split; [done|]. by repeat constructor.
  - eexists [], _. split; [reflexivity|]. split; [|done]. cbn.
    by rewrite app_nil_r.
Qed.

(** X12. With more than one rank, a call that returns has crossed a
    barrier that separates the two roles: the local leader has done all
    its attaching, creating and writing of segments before that first
    barrier and touches no segment after it, and any other participant
    touches no segment before it, so it only looks for the leader's record
    once the leader has written it. *)
Theorem barrier_separates_leader_and_others my_locals world st r st' :
  1 < num_ranks world ->
  get_shm_prefix my_locals world st = (Ok r, st') ->
  exists before after,
    trace st' = trace st ++ before ++ EvBarrier :: after /\
    Forall (fun e => is_barrier e = false) before /\
    if is_local_leader world
    then Forall (fun e => is_shm_access e = false) after
    else Forall (fun e => is_shm_access e = false) before.
Proof.
  intros Hranks Hrun. unfold get_shm_prefix in Hrun.
  step_bind Hrun as my e0 s0 Echk; [|done].
  apply check_my_locals_frame in Echk as ->.
  step_bind Hrun as led e1 s1 Eled; [|done].
  destruct (first_barrier_trace world s1 Hranks)
    as (b & pre & s2 & Hfb & Htr2 & Hnb & Hna).
  rewrite (bind_ok _ _ _ _ _ Hfb) in Hrun.
  step_bind Hrun as k e3 s3 Escan; [|done].
  destruct (second_barrier_trace b s3) as (evs4 & s4 & Hsb & Htr4 & Hev4).
  rewrite (bind_ok _ _ _ _ _ Hsb) in Hrun. injection Hrun as _ <-.
  destruct (is_local_leader world).
  - step_bind Eled as k0 e2 s5 Ereg; [|done]. injection Eled as <- <-.
    apply register_trace in Ereg as (evs1 & Htr1 & Hnb1).
    injection Escan as _ <-.
    exists (evs1 ++ pre), evs4. split; [|split; [by apply Forall_app|done]].
    rewrite Htr4, Htr2, Htr1, <- !app_assoc. done.
  - injection Eled as <- <-.
    apply follower_scan_trace in Escan as (evs3 & Htr3).
    exists pre, (evs3 ++ evs4). split; [|done].
    rewrite Htr4, Htr3, Htr2, <- !app_assoc. done.
Qed.

Lemma barrier_separates_leader_and_others_witness :
  exists before after,
    trace (snd (get_shm_prefix [[47; 97]; [47; 98]] leader quiet_machine))
    = trace quiet_machine ++ before ++ EvBarrier :: after /\
    Forall (fun e => is_barrier e = false) before /\
    if is_local_leader leader
    then Forall (fun e => is_shm_access e = false) after
    else Forall (fun e => is_shm_access e = false) before.
Proof.
  apply (barrier_separates_leader_and_others [[47; 97]; [47; 98]] leader
           quiet_machine ("000000"%string, "000000_locals"%string)).
  - reflexivity.
  - vm_compute. reflexivity.
Defined.

Lemma follower_resolves_first_match_witness :
  exists st',
    shm st'
    = shm (snd (get_shm_prefix [[47; 97]; [47; 98]] leader quiet_machine)) /\
    get_shm_prefix [[47; 98]; [47; 97]] follower
      (snd (get_shm_prefix [[47; 97]; [47; 98]] leader quiet_machine))
    = (Ok (format_06 0, locals_name 0), st').
Proof.
  apply (follower_resolves_first_match [[47; 98]; [47; 97]] follower
           (snd (get_shm_prefix [[47; 97]; [47; 98]] leader quiet_machine))
           0 [9; 0; 0; 0; 47; 97; 0; 47; 98]).
  - reflexivity.
  - apply (bool_decide_unpack _). vm_compute. reflexivity.
  - lia.
  - intros j Hj. lia.
  - vm_compute. reflexivity.
  - vm_compute. reflexivity.
Defined.

Lemma follower_fails_on_gap_witness :
  exists st',
    shm st' = shm quiet_machine /\
    get_shm_prefix [[47; 98]; [47; 97]] follower quiet_machine
    = (Raise ShmPrefixNotRegistered, st').
Proof.
  apply (follower_fails_on_gap [[47; 98]; [47; 97]] follower quiet_machine 0).
  - reflexivity.
  - apply (bool_decide_unpack _). vm_compute. reflexivity.
  - lia.
  - intros j Hj. lia.
  - reflexivity.
Defined.

End PrefixFacts.

Module FileFacts.
Import File.

(** ** The primitives *)

Lemma disk_log_nil d : log d [] = d.
Proof. destruct d. unfold log. cbn. by rewrite app_nil_r. Qed.

Lemma disk_log_log d evs1 evs2 : log (log d evs1) evs2 = log d (evs1 ++ evs2).
Proof. unfold log. cbn. by rewrite app_assoc. Qed.

Lemma is_local_eq p d :
  is_local p d = (Ok (bool_decide (on_disk d p)), d).
Proof. reflexivity. Qed.

Lemma evict_phase_eq p d :
  evict_phase p d
  = (Ok (match fs d !! get_local_filename p with
         | Some data => - len data
         | None => 0
         end),
     {| fs := delete (get_local_filename p) (fs d);
        trace := trace d ++ [EvEvict (get_local_filename p)] |}).
Proof.
  unfold evict_phase, bind, emit, modify, get, set_fs, ret. cbn.
  destruct (fs d !! get_local_filename p) eqn:H; [done|].
  by rewrite delete_id.
Qed.

Lemma evict_phase_nonpos p d delta d' :
  evict_phase p d = (Ok delta, d') -> delta <= 0.
Proof.
  rewrite evict_phase_eq. intros [= <- _].
  destruct (fs d !! get_local_filename p); unfold len; lia.
Qed.

(** ** [evict_phases] *)

Lemma evict_phases_loop_raise pairs : forall ddu d,
  (None, true) ∈ pairs ->
  exists d', evict_phases_loop pairs ddu d
             = (Raise (RuntimeError EvictInvalidPhase), d').
Proof.
  induction pairs as [|[phase phase_del] pairs IH]; intros ddu d Hin.
  - by apply elem_of_nil in Hin.
  - cbn [evict_phases_loop]. destruct phase_del.
    + destruct phase as [p|]; [|by eexists].
      apply elem_of_cons in Hin as [[=]|Hin].
      rewrite (bind_ok _ _ _ _ _ (evict_phase_eq p d)). by apply IH.
    + apply elem_of_cons in Hin as [[=]|Hin]. by apply IH.
Qed.

Lemma evict_phases_loop_ok pairs : forall ddu d,
  (None, true) ∉ pairs ->
  exists deltas d',
    evicts (flagged pairs) d deltas d' /\
    evict_phases_loop pairs ddu d = (Ok (ddu + sum deltas), d').
Proof.
  induction pairs as [|[phase phase_del] pairs IH]; intros ddu d Hnin.
  - exists [], d. split; [constructor|]. cbn. by rewrite Z.add_0_r.
  - apply not_elem_of_cons in Hnin as [Hne Hnin].
    cbn [evict_phases_loop flagged]. destruct phase_del.
    + destruct phase as [p|]; [|done].
      rewrite (bind_ok _ _ _ _ _ (evict_phase_eq p d)).
      edestruct IH as (deltas & d' & Hev & Heq); [done|].
      eexists (_ :: deltas), d'. split.
      * econstructor; [apply evict_phase_eq|exact Hev].
      * rewrite Heq. cbn [sum foldr]. do 2 f_equal. fold (sum deltas). lia.
    + destruct phase; by apply IH.
Qed.

Lemma evicts_nonpos ps d deltas d' :
  evicts ps d deltas d' -> Forall (fun delta => delta <= 0) deltas.
Proof.
  induction 1; constructor; [|done]. by eapply evict_phase_nonpos.
Qed.

Lemma evicts_fs ps d deltas d' :
  evicts ps d deltas d' ->
  forall path,
    fs d' !! path
    = if decide (path ∈ get_local_filename <$> ps) then None else fs d !! path.
Proof.
  induction 1 as [|p ps d delta d1 deltas d2 Hp _ IH]; intros path.
  - rewrite decide_False; [done|]. cbn. apply not_elem_of_nil.
  - rewrite IH. rewrite evict_phase_eq in Hp. injection Hp as _ <-. cbn [fs].
    rewrite fmap_cons. destruct (decide (path = get_local_filename p)) as [->|Hne].
    + rewrite lookup_delete_eq. rewrite (decide_True (P:=_ ∈ _ :: _)) by left.
      by destruct (decide _).
    + rewrite lookup_delete_ne by done.
      destruct (decide (path ∈ get_local_filename <$> ps)) as [Hin|Hnin].
      * by rewrite decide_True by (by right).
      * rewrite decide_False; [done|]. by apply not_elem_of_cons.
Qed.

Lemma evicts_trace ps d deltas d' :
  evicts ps d deltas d' ->
  trace d' = trace d ++ ((fun p => EvEvict (get_local_filename p)) <$> ps).
Proof.
  induction 1 as [|p ps d delta d1 deltas d2 Hp _ IH].
  - cbn. by rewrite app_nil_r.
  - rewrite IH. rewrite evict_phase_eq in Hp. injection Hp as _ <-. cbn [trace].
    by rewrite <- app_assoc.
Qed.

(** C6. A deletion vector that flags a slot whose phase is not configured
    makes [evict_phases] raise the internal error. Any other vector makes
    it call [evict()] on the flagged phases, in order, and return the sum
    of the deltas these calls give; no delta is positive, and afterwards
    the files of the flagged phases are gone and every other file is as it
    was. *)
Theorem evict_phases_spec self phase_dels d :
  (flags_unconfigured self phase_dels ->
   exists e d',
     evict_phases self phase_dels d = (Raise e, d') /\
     e = RuntimeError EvictInvalidPhase /\
     is_InternalConsistencyError e = true) /\
  (~ flags_unconfigured self phase_dels ->
   exists deltas d',
     evicts (flagged (zip (phases self) phase_dels)) d deltas d' /\
     evict_phases self phase_dels d = (Ok (sum deltas), d') /\
     Forall (fun delta => delta <= 0) deltas /\
     sum deltas <= 0 /\
     forall path,
       fs d' !! path
       = if decide (path ∈ get_local_filename
                             <$> flagged (zip (phases self) phase_dels))
         then None else fs d !! path).
Proof.
  split.
  - intros Hbad.
    destruct (evict_phases_loop_raise _ 0 d Hbad) as [d' Hd'].
    by exists (RuntimeError EvictInvalidPhase), d'.
  - intros Hgood.
    destruct (evict_phases_loop_ok _ 0 d Hgood) as (deltas & d' & Hev & Heq).
    exists deltas, d'. pose proof (evicts_nonpos _ _ _ _ Hev) as Hnp.
    split; [done|]. split; [done|]. split; [done|]. split.
    + clear -Hnp. induction Hnp; cbn; [done|]. fold (sum l). lia.
    + by apply (evicts_fs _ _ deltas).
Qed.

Lemma evict_phases_spec_witness :
  (exists e d',
     evict_phases (mds_file keep_all) [false; false; true] disk_with_zip
     = (Raise e, d') /\
     e = RuntimeError EvictInvalidPhase /\
     is_InternalConsistencyError e = true) /\
  (exists deltas d',
     evicts (flagged (zip (phases (mds_file keep_all)) [true; false; false]))
            disk_with_zip deltas d' /\
     evict_phases (mds_file keep_all) [true; false; false] disk_with_zip
     = (Ok (sum deltas), d') /\
     Forall (fun delta => delta <= 0) deltas /\
     sum deltas <= 0 /\
     forall path,
       fs d' !! path
       = if decide (path ∈ get_local_filename
                             <$> flagged (zip (phases (mds_file keep_all))
                                              [true; false; false]))
         then None else fs disk_with_zip !! path).
Proof.
  split.
  - apply (evict_phases_spec (mds_file keep_all) [false; false; true]).
    apply (bool_decide_unpack _). vm_compute. reflexivity.
  - apply (evict_phases_spec (mds_file keep_all) [true; false; false]).
    apply (bool_decide_eq_false_1 _). vm_compute. reflexivity.
Defined.

(** ** [validate] *)

(** What [validate] does: the limit is checked against the compressed
    phase, and against nothing when the file has no compressed phase. *)
Lemma validate_eq self d :
  validate self d
  = match download_max_size (stream self), zip_phase self with
    | Some limit, Some zp =>
        match size zp with
        | Some n =>
            if limit <? n then (Raise (SizeLimitExceeded n limit), d)
            else (Ok tt, d)
        | None => (Ok tt, d)
        end
    | _, _ => (Ok tt, d)
    end.
Proof.
  unfold validate, phases, validate_for_download.
  destruct (download_max_size (stream self)) as [limit|]; [|done].
  destruct (zip_phase self) as [zp|]; [|done].
  destruct (size zp) as [n|]; [|done].
  by destruct (limit <? n).
Qed.

(** Without a limit [validate] passes. *)
Lemma validate_no_limit self d :
  download_max_size (stream self) = None -> validate self d = (Ok tt, d).
Proof. intros H. by rewrite validate_eq, H. Qed.

(** X24. With a limit and a compressed phase, [validate] fails exactly
    when the expected size of the compressed phase exceeds the limit. *)
Lemma validate_zip_phase self d limit zp n :
  download_max_size (stream self) = Some limit ->
  zip_phase self = Some zp -> size zp = Some n ->
  (validate self d = (Raise (SizeLimitExceeded n limit), d) <-> limit < n) /\
  (validate self d = (Ok tt, d) <-> n <= limit).
Proof.
  intros Hl Hz Hn. rewrite validate_eq, Hl, Hz, Hn.
  destruct (Z.ltb_spec limit n); split; split; (done || lia).
Qed.

(** With a limit and no compressed phase, [validate] passes whatever the
    raw phase expects. *)
Lemma validate_no_zip_phase self d :
  zip_phase self = None -> validate self d = (Ok tt, d).
Proof.
  intros Hz. rewrite validate_eq, Hz.
  by destruct (download_max_size (stream self)).
Qed.

(** C5. A file whose first configured phase is the raw phase, of expected
    size 4, in a stream whose maximum download size is 3, passes
    [validate]: the loop stops at the compressed slot, which is empty, and
    the raw phase is never checked. *)
Theorem validate_skips_raw_phase :
  zip_phase (raw_only_file keep_all) = None /\
  size (raw_phase (raw_only_file keep_all)) = Some 4 /\
  download_max_size (stream (raw_only_file keep_all)) = Some 3 /\
  validate_for_download (stream (raw_only_file keep_all))
    (raw_phase (raw_only_file keep_all)) empty_disk
  = (Raise (SizeLimitExceeded 4 3), empty_disk) /\
  validate (raw_only_file keep_all) empty_disk = (Ok tt, empty_disk).
Proof. repeat split. Qed.

(** ** Steps of [load] *)

Lemma emit_eq e d : emit e d = (Ok tt, log d [e]).
Proof. reflexivity. Qed.

Lemma write_file_eq path data d :
  write_file path data d
  = (Ok tt, {| fs := <[path := data]> (fs d); trace := trace d |}).
Proof. reflexivity. Qed.

Lemma rename_eq src dst data d :
  fs d !! src = Some data ->
  rename src dst d
  = (Ok tt, {| fs := <[dst := data]> (delete src (fs d)); trace := trace d |}).
Proof. intros H. unfold rename, bind, get, set_fs, modify. by rewrite H. Qed.

Lemma read_file_eq path d :
  read_file path d
  = match fs d !! path with
    | Some data => (Ok data, d)
    | None => (Raise (FileNotFoundError path), d)
    end.
Proof. unfold read_file, bind, get. by destruct (fs d !! path). Qed.

Lemma stat_size_eq path d :
  stat_size path d
  = match fs d !! path with
    | Some data => (Ok (len data), d)
    | None => (Raise (FileNotFoundError path), d)
    end.
Proof. unfold stat_size, bind, get. by destruct (fs d !! path). Qed.

Lemma locality_of_eq d phase :
  match phase with
  | Some p => let* b := is_local p in ret (if b then LOCAL else REMOTE)
  | None => ret DNE
  end d = (Ok (locality_of d phase), d).
Proof. by destruct phase. Qed.

Lemma police_eq self phase_locs produced d :
  (emit (EvPolicy phase_locs
           (get_phase_deletions (safe_keep_phases (stream self)) phase_locs));;
   let* freed :=
     evict_phases self
       (get_phase_deletions (safe_keep_phases (stream self)) phase_locs) in
   ret (produced + freed)) d
  = police self phase_locs produced d.
Proof.
  rewrite (bind_ok _ _ _ _ _ (emit_eq _ d)). unfold police, bind.
  by destruct (evict_phases _ _ _) as [[freed|e] d'].
Qed.

Lemma download_eq st p d :
  download st p d
  = match remote st !! get_local_filename p with
    | None => (Raise (RemoteFetchError (get_local_filename p)), d)
    | Some data =>
        if bool_decide (size p = None \/ size p = Some (len data))
        then (Ok (len data),
              placed (get_local_filename p) data
                     (EvDownload (get_local_filename p)) d)
        else (Raise (RemoteFetchError (get_local_filename p)), d)
    end.
Proof.
  unfold download. destruct (remote st !! get_local_filename p) as [data|]; [|done].
  destruct (bool_decide _); [|done].
  rewrite (bind_ok _ _ _ _ _ (write_file_eq _ _ _)).
  rewrite (bind_ok _ _ _ _ _ (rename_eq _ _ data _ (lookup_insert_eq _ _ _))).
  by rewrite (bind_ok _ _ _ _ _ (emit_eq _ _)).
Qed.

Lemma placed_on_disk path data ev d :
  fs (placed path data ev d) !! path = Some data.
Proof. apply lookup_insert_eq. Qed.

Lemma written_on_disk path data ev d :
  fs (written path data ev d) !! path = Some data.
Proof. apply lookup_insert_eq. Qed.

Section Codecs.

Variable decompress : option string -> pybytes -> pybytes.
Variable canonicalize : string -> pybytes -> pybytes.

Local Abbreviation _unzip := (_unzip decompress).
Local Abbreviation _canonicalize := (_canonicalize canonicalize).
Local Abbreviation _load_raw := (_load_raw decompress).
Local Abbreviation load := (load decompress canonicalize).

Lemma _unzip_eq self d :
  _unzip self d
  = match zip_phase self with
    | None => (Raise (RuntimeError UnzipMetadataMissing), d)
    | Some zp =>
        match fs d !! get_local_filename zp with
        | None => (Raise (FileNotFoundError (get_local_filename zp)), d)
        | Some zip_data =>
            let raw_data := decompress (zip_algo self) zip_data in
            if negb (bool_decide (Some (len zip_data) = size zp)) then
              (Raise (size_mismatch CompressedSizeMismatch (len zip_data)
                                    (size zp)), d)
            else if negb (bool_decide
                            (Some (len raw_data) = size (raw_phase self))) then
              (Raise (size_mismatch DecompressedSizeMismatch (len raw_data)
                                    (size (raw_phase self))), d)
            else
              let d1 := placed (get_local_filename (raw_phase self)) raw_data
                          (EvUnzip (get_local_filename zp)
                                   (get_local_filename (raw_phase self))) d in
              police self [LOCAL; LOCAL; locality_of d1 (can_phase self)]
                     (len raw_data) d1
        end
    end.
Proof.
  unfold File._unzip. destruct (zip_phase self) as [zp|]; [|done].
  unfold bind at 1. rewrite read_file_eq.
  destruct (fs d !! get_local_filename zp) as [zip_data|]; [|done].
  cbv zeta.
  destruct (negb (bool_decide (Some (len zip_data) = size zp))); [done|].
  destruct (negb (bool_decide (Some (len (decompress (zip_algo self) zip_data))
                               = size (raw_phase self)))); [done|].
  rewrite (bind_ok _ _ _ _ _ (write_file_eq _ _ _)).
  rewrite (bind_ok _ _ _ _ _ (rename_eq _ _ _ _ (lookup_insert_eq _ _ _))).
  rewrite (bind_ok _ _ _ _ _ (emit_eq _ _)).
  rewrite (bind_ok _ _ _ _ _ (locality_of_eq _ _)).
  apply police_eq.
Qed.

Lemma _canonicalize_eq self d :
  _canonicalize self d
  = match can_algo self, can_phase self with
    | Some algo, Some cp =>
        if negb (truthy (can_algo self)) then
          (Raise (RuntimeError CanonicalizeMetadataMissing), d)
        else
          match fs d !! get_local_filename (raw_phase self) with
          | None =>
              (Raise (FileNotFoundError (get_local_filename (raw_phase self))), d)
          | Some raw_data =>
              let can_data := canonicalize algo raw_data in
              let d1 := written (get_local_filename cp) can_data
                          (EvCanonicalize (get_local_filename (raw_phase self))
                                          (get_local_filename cp)) d in
              match size cp with
              | Some expected =>
                  if negb (len can_data =? expected) then
                    (Raise (ValueError
                              (CanonicalizedSizeMismatch (len can_data) expected)),
                     d1)
                  else police self [locality_of d1 (zip_phase self); LOCAL; LOCAL]
                              (len can_data) d1
              | None => police self [locality_of d1 (zip_phase self); LOCAL; LOCAL]
                               (len can_data) d1
              end
          end
    | _, _ => (Raise (RuntimeError CanonicalizeMetadataMissing), d)
    end.
Proof.
  unfold File._canonicalize. destruct (can_algo self) as [algo|]; [|done].
  destruct (can_phase self) as [cp|]; [|done].
  destruct (negb (truthy (Some algo))); [done|].
  unfold run_canonicalize. unfold bind at 1, bind at 1. rewrite read_file_eq.
  destruct (fs d !! get_local_filename (raw_phase self)) as [raw_data|]; [|done].
  rewrite (bind_ok _ _ _ _ _ (write_file_eq _ _ _)).
  rewrite emit_eq. cbv zeta.
  change (log _ _) with
    (written (get_local_filename cp) (canonicalize algo raw_data)
       (EvCanonicalize (get_local_filename (raw_phase self))
          (get_local_filename cp)) d).
  unfold bind at 1. rewrite stat_size_eq, written_on_disk.
  destruct (size cp) as [expected|].
  - destruct (negb (len (canonicalize algo raw_data) =? expected)); [done|].
    rewrite bind_ret.
    rewrite (bind_ok _ _ _ _ _ (locality_of_eq _ _)).
    apply police_eq.
  - rewrite bind_ret.
    rewrite (bind_ok _ _ _ _ _ (locality_of_eq _ _)).
    apply police_eq.
Qed.

Lemma _load_raw_eq self d :
  _load_raw self d
  = if bool_decide (on_disk d (raw_phase self)) then (Ok 0, d)
    else match zip_phase self with
         | Some zp =>
             if bool_decide (on_disk d zp) then _unzip self d
             else match download (stream self) zp d with
                  | (Ok a, d1) =>
                      match _unzip self d1 with
                      | (Ok b, d2) => (Ok (a + b), d2)
                      | (Raise e, d2) => (Raise e, d2)
                      end
                  | (Raise e, d1) => (Raise e, d1)
                  end
         | None => download (stream self) (raw_phase self) d
         end.
Proof.
  unfold File._load_raw. rewrite (bind_ok _ _ _ _ _ (is_local_eq _ d)).
  destruct (bool_decide (on_disk d (raw_phase self))); [done|].
  destruct (zip_phase self) as [zp|]; [|done].
  rewrite (bind_ok _ _ _ _ _ (is_local_eq _ d)).
  destruct (bool_decide (on_disk d zp)); [done|].
  unfold bind at 1. destruct (download (stream self) zp d) as [[a|e] d1]; [|done].
  unfold bind at 1. by destruct (File._unzip decompress self d1) as [[b|e] d2].
Qed.

Lemma load_eq self d :
  load self d
  = match can_phase self with
    | Some cp =>
        if bool_decide (on_disk d cp) then (Ok 0, d)
        else match _load_raw self d with
             | (Ok a, d1) =>
                 match _canonicalize self d1 with
                 | (Ok b, d2) => (Ok (a + b), d2)
                 | (Raise e, d2) => (Raise e, d2)
                 end
             | (Raise e, d1) => (Raise e, d1)
             end
    | None => _load_raw self d
    end.
Proof.
  unfold File.load. destruct (can_phase self) as [cp|]; [|done].
  rewrite (bind_ok _ _ _ _ _ (is_local_eq _ d)).
  destruct (bool_decide (on_disk d cp)); [done|].
  unfold bind at 1. destruct (File._load_raw decompress self d) as [[a|e] d1]; [|done].
  unfold bind at 1. by destruct (File._canonicalize canonicalize self d1) as [[b|e] d2].
Qed.

End Codecs.

(** ** What asking the policy leaves behind *)

Lemma flagged_lookup ps : forall (dels : list bool) p,
  p ∈ flagged (zip ps dels) ->
  exists i, ps !! i = Some (Some p) /\ dels !! i = Some true.
Proof.
  induction ps as [|phase ps IH]; intros dels p Hin.
  - by apply elem_of_nil in Hin.
  - destruct dels as [|phase_del dels]; [by apply elem_of_nil in Hin|].
    cbn [zip zip_with flagged] in Hin.
    destruct phase as [q|], phase_del;
      try (apply IH in Hin as (i & Hi & Hd); by exists (S i)).
    apply elem_of_cons in Hin as [->|Hin]; [by exists 0%nat|].
    apply IH in Hin as (i & Hi & Hd). by exists (S i).
Qed.

Lemma evict_phases_ok_inv self phase_dels d n d' :
  evict_phases self phase_dels d = (Ok n, d') ->
  exists deltas,
    evicts (flagged (zip (phases self) phase_dels)) d deltas d' /\
    n = sum deltas.
Proof.
  intros Hok. destruct (decide (flags_unconfigured self phase_dels)) as [Hbad|Hgood].
  - destruct (evict_phases_loop_raise _ 0 d Hbad) as [d2 Hd2].
    unfold evict_phases in Hok. congruence.
  - destruct (evict_phases_loop_ok _ 0 d Hgood) as (deltas & d2 & Hev & Heq).
    unfold evict_phases in Hok. rewrite Heq in Hok. injection Hok as <- <-.
    by exists deltas.
Qed.

Lemma police_ok_inv self phase_locs produced d n d' :
  police self phase_locs produced d = (Ok n, d') ->
  trace d'
  = trace d ++
    EvPolicy phase_locs
      (get_phase_deletions (safe_keep_phases (stream self)) phase_locs)
    :: evictions self
         (get_phase_deletions (safe_keep_phases (stream self)) phase_locs) /\
  forall path,
    fs d' !! path
    = if decide (path ∈ get_local_filename
                          <$> flagged
                                (zip (phases self)
                                   (get_phase_deletions
                                      (safe_keep_phases (stream self))
                                      phase_locs)))
      then None else fs d !! path.
Proof.
  unfold police. cbv zeta. intros Hok.
  destruct (evict_phases self _ _) as [[freed|e] d2] eqn:Hev; [|done].
  injection Hok as _ <-.
  apply evict_phases_ok_inv in Hev as (deltas & Hev & _). split.
  - rewrite (evicts_trace _ _ _ _ Hev). cbn [log trace].
    by rewrite <- app_assoc.
  - intros path. by rewrite (evicts_fs _ _ _ _ Hev).
Qed.

(** A policy that never flags the terminal phase leaves its file alone. *)
Lemma police_keeps_terminal self phase_locs produced d n d' :
  keeps_terminal self -> terminal_path_own self ->
  police self phase_locs produced d = (Ok n, d') ->
  fs d' !! get_local_filename (terminal_phase self)
  = fs d !! get_local_filename (terminal_phase self).
Proof.
  intros Hkeep Hown Hok. apply police_ok_inv in Hok as [_ ->].
  rewrite decide_False; [done|]. intros Hin.
  apply list_elem_of_fmap in Hin as (p & Hpath & Hp).
  apply flagged_lookup in Hp as (i & Hi & Hdel).
  destruct (decide (i = terminal_slot self)) as [->|Hne].
  - by apply (Hkeep phase_locs).
  - by apply (Hown i p).
Qed.

Section Loading.

Variable decompress : option string -> pybytes -> pybytes.
Variable canonicalize : string -> pybytes -> pybytes.

Local Abbreviation _unzip := (_unzip decompress).
Local Abbreviation _canonicalize := (_canonicalize canonicalize).
Local Abbreviation _load_raw := (_load_raw decompress).
Local Abbreviation load := (load decompress canonicalize).

(** ** A file whose terminal phase is local *)







(** [_unzip] turns down a compressed file of the wrong length before it
    decompresses or writes anything. *)
Lemma _unzip_rejects_wrong_zip_length self zp n zip_data d :
  zip_phase self = Some zp -> size zp = Some n ->
  fs d !! get_local_filename zp = Some zip_data ->
  len zip_data <> n ->
  _unzip self d
  = (Raise (ValueError (CompressedSizeMismatch (len zip_data) n)), d).
Proof.
  intros Hzip Hsize Hdata Hlen. rewrite _unzip_eq, Hzip, Hdata. cbv zeta.
  rewrite Hsize. case_bool_decide as Heq; [|done]. congruence.
Qed.

(** A compressed phase that declares no size never passes the length
    check, and the message of the error cannot be built: [_unzip] raises
    the [TypeError], again before it writes anything. *)
Lemma _unzip_undeclared_zip_size self zp zip_data d :
  zip_phase self = Some zp -> size zp = None ->
  fs d !! get_local_filename zp = Some zip_data ->
  _unzip self d = (Raise UnsupportedFormatNone, d).
Proof.
  intros Hzip Hsize Hdata. rewrite _unzip_eq, Hzip, Hdata. cbv zeta.
  rewrite Hsize. by case_bool_decide.
Qed.

(** C4. When [load] has to decompress (neither the raw nor the terminal
    phase is on disk) and the compressed file on disk is not as long as
    the size the compressed phase declares, [load] raises the
    size-mismatch [ValueError] and leaves the disk and the log exactly as
    they were: no temporary file is written, nothing is renamed, and the
    raw phase is still absent. *)
Theorem load_rejects_wrong_zip_length self zp n zip_data d :
  zip_phase self = Some zp -> size zp = Some n ->
  fs d !! get_local_filename zp = Some zip_data ->
  len zip_data <> n ->
  ~ on_disk d (raw_phase self) ->
  ~ on_disk d (terminal_phase self) ->
  exists e,
    load self d = (Raise e, d) /\
    e = ValueError (CompressedSizeMismatch (len zip_data) n) /\
    is_ValidationError e = true /\
    fs d !! get_local_filename (raw_phase self) = None.
Proof.
  intros Hzip Hsize Hdata Hlen Hraw Hterm.
  pose proof (_unzip_rejects_wrong_zip_length self zp n zip_data d
                Hzip Hsize Hdata Hlen) as Hun.
  assert (Hlr : _load_raw self d
                = (Raise (ValueError
                            (CompressedSizeMismatch (len zip_data) n)), d)).
  { rewrite _load_raw_eq, Hzip.
    assert (Hz : on_disk d zp) by (unfold on_disk; by rewrite Hdata).
    by repeat case_bool_decide. }
  eexists. split; [|split; [reflexivity|split; [reflexivity|]]].
  - rewrite load_eq. unfold terminal_phase in Hterm.
    destruct (can_phase self) as [cp|]; [|done].
    case_bool_decide; [done|]. by rewrite Hlr.
  - apply eq_None_not_Some. exact Hraw.
Qed.

(** ** The log of a [load] *)

Lemma evict_phases_loop_trace pairs : forall ddu d r d',
  evict_phases_loop pairs ddu d = (r, d') ->
  exists evs rest,
    trace d' = trace d ++ evs /\
    evs ++ rest = (fun p => EvEvict (get_local_filename p)) <$> flagged pairs /\
    forall n, r = Ok n -> rest = [].
Proof.
  induction pairs as [|[phase phase_del] pairs IH]; intros ddu d r d' Hrun.
  - injection Hrun as <- <-. exists [], []. by rewrite app_nil_r.
  - cbn [evict_phases_loop] in Hrun. destruct phase_del.
    + destruct phase as [p|].
      * rewrite (bind_ok _ _ _ _ _ (evict_phase_eq p d)) in Hrun.
        apply IH in Hrun as (evs & rest & Htr & Hevs & Hok).
        exists (EvEvict (get_local_filename p) :: evs), rest.
        split; [|split; [|done]].
        -- rewrite Htr. cbn [trace]. by rewrite <- app_assoc.
        -- cbn [flagged]. rewrite fmap_cons. cbn [app]. by rewrite Hevs.
      * injection Hrun as <- <-. eexists [], _.
        split; [by rewrite app_nil_r|]. split; [reflexivity|]. done.
    + apply IH in Hrun as (evs & rest & Htr & Hevs & Hok).
      exists evs, rest. split; [done|]. split; [|done].
      by destruct phase.
Qed.

Lemma police_trace self phase_locs produced d r d' :
  police self phase_locs produced d = (r, d') ->
  exists evs rest,
    trace d'
    = trace d ++
      EvPolicy phase_locs
        (get_phase_deletions (safe_keep_phases (stream self)) phase_locs)
      :: evs /\
    evs ++ rest
    = evictions self
        (get_phase_deletions (safe_keep_phases (stream self)) phase_locs) /\
    forall n, r = Ok n -> rest = [].
Proof.
  unfold police. cbv zeta. intros Hrun.
  destruct (evict_phases self _ _) as [r0 d0] eqn:Hev.
  apply evict_phases_loop_trace in Hev as (evs & rest & Htr & Hevs & Hok).
  exists evs, rest.
  assert (d0 = d') as -> by (destruct r0; congruence).
  split; [|split; [done|]].
  - rewrite Htr. cbn [log trace]. by rewrite <- app_assoc.
  - intros n ->. destruct r0 as [freed|e]; [|done]. by apply (Hok freed).
Qed.
















End Loading.

(** ** The properties on the sample files *)

Lemma keep_raw_keeps_terminal : keeps_terminal (mds_file keep_raw).
Proof.
  intros phase_locs. unfold terminal_slot. cbn.
  destruct phase_locs as [|[] [|[] [|? [|? ?]]]]; cbn; discriminate.
Qed.

Lemma mds_file_terminal_path_own keep : terminal_path_own (mds_file keep).
Proof.
  intros [|[|[|i]]] p; cbn; intros [= <-] Hne; done.
Qed.



Lemma load_rejects_wrong_zip_length_witness :
  exists e,
    load sample_decompress sample_canonicalize (mds_file keep_raw)
         disk_with_short_zip
    = (Raise e, disk_with_short_zip) /\
    e = ValueError (CompressedSizeMismatch (len [7; 7]) 3) /\
    is_ValidationError e = true /\
    fs disk_with_short_zip !! "shard.00000.mds"%string = None.
Proof.
  apply (load_rejects_wrong_zip_length sample_decompress sample_canonicalize
           (mds_file keep_raw)
           {| filename := "shard.00000.mds.zstd"; size := Some 3 |} 3
           [7; 7] disk_with_short_zip).
  - reflexivity.
  - reflexivity.
  - vm_compute. reflexivity.
  - vm_compute. discriminate.
  - unfold on_disk. apply (bool_decide_eq_false_1 _). vm_compute. reflexivity.
  - unfold on_disk. apply (bool_decide_eq_false_1 _). vm_compute. reflexivity.
Defined.



(** ** [init_dir] *)

Lemma phase_init_dir_eq p listing d :
  phase_init_dir p listing d = (Ok (contribution d listing (Some p)), d).
Proof.
  unfold phase_init_dir, contribution. destruct (probe p listing); [|done].
  unfold bind, get. by destruct (fs d !! get_local_filename p).
Qed.

Lemma init_dir_loop_eq listing d ps : forall phase_locs du,
  init_dir_loop listing ps phase_locs du d
  = (Ok (phase_locs ++ (init_locality d listing <$> ps),
         du + sum (contribution d listing <$> ps)), d).
Proof.
  induction ps as [|[p|] ps IH]; intros phase_locs du.
  - cbn. by rewrite app_nil_r, Z.add_0_r.
  - cbn [init_dir_loop]. rewrite (bind_ok _ _ _ _ _ (phase_init_dir_eq _ _ _)).
    change (sum (contribution d listing <$> Some p :: ps))
      with (contribution d listing (Some p)
            + sum (contribution d listing <$> ps)).
    rewrite fmap_cons. cbn [init_locality].
    destruct (Z.eqb_spec (contribution d listing (Some p)) 0) as [Hz|Hz];
      rewrite IH, <- app_assoc; cbn [app]; do 3 f_equal; lia.
  - cbn [init_dir_loop]. rewrite IH, <- app_assoc. by rewrite fmap_cons.
Qed.

(** [init_dir] collects the contributions, classifies the slots, and has
    the keep policy asked once about the result. *)
Lemma init_dir_eq self listing d :
  init_dir self listing d
  = police self (init_locality d listing <$> phases self)
           (sum (contribution d listing <$> phases self)) d.
Proof.
  unfold init_dir. rewrite (bind_ok _ _ _ _ _ (init_dir_loop_eq _ _ _ _ _)).
  cbn [fst snd app]. rewrite Z.add_0_l. apply police_eq.
Qed.

(** C10. For a configured phase, [init_dir] asks the keep policy about a
    locality vector whose slot for the phase is [LOCAL] exactly when the
    phase's own [init_dir] gives a non-zero number of bytes, and [REMOTE]
    exactly when it gives 0 (the file is not listed, not there, or
    empty); the phase then adds that number, so 0, to the usage
    returned. *)
Theorem init_dir_local_iff_nonzero self listing d i p :
  phases self !! i = Some (Some p) ->
  exists phase_locs phase_du,
    phase_init_dir p listing d = (Ok phase_du, d) /\
    init_dir self listing d
    = police self phase_locs (sum (contribution d listing <$> phases self)) d /\
    contribution d listing (Some p) = phase_du /\
    (phase_locs !! i = Some LOCAL <-> phase_du <> 0) /\
    (phase_locs !! i = Some REMOTE <-> phase_du = 0).
Proof.
  intros Hp.
  exists (init_locality d listing <$> phases self),
         (contribution d listing (Some p)).
  split; [apply phase_init_dir_eq|]. split; [apply init_dir_eq|].
  split; [done|].
  rewrite list_lookup_fmap, Hp. cbn [fmap option_fmap option_map init_locality].
  destruct (Z.eqb_spec (contribution d listing (Some p)) 0) as [Hz|Hz];
    split; split; try done; intros [=].
Qed.

Lemma init_dir_local_iff_nonzero_witness :
  exists phase_locs phase_du,
    phase_init_dir {| filename := "shard.00000.mds"; size := Some 6 |}
      listing_of_both disk_with_empty_raw
    = (Ok phase_du, disk_with_empty_raw) /\
    init_dir (mds_file keep_raw) listing_of_both disk_with_empty_raw
    = police (mds_file keep_raw) phase_locs
        (sum (contribution disk_with_empty_raw listing_of_both
                <$> phases (mds_file keep_raw)))
        disk_with_empty_raw /\
    contribution disk_with_empty_raw listing_of_both
      (Some {| filename := "shard.00000.mds"; size := Some 6 |}) = phase_du /\
    (phase_locs !! 1%nat = Some LOCAL <-> phase_du <> 0) /\
    (phase_locs !! 1%nat = Some REMOTE <-> phase_du = 0).
Proof.
  apply (init_dir_local_iff_nonzero (mds_file keep_raw) listing_of_both
           disk_with_empty_raw 1%nat).
  reflexivity.
Defined.

(** An empty file that is listed and on disk is REMOTE for [init_dir]
    while [locate] calls it LOCAL. *)
Example init_dir_empty_file_is_remote :
  init_locality disk_with_empty_raw listing_of_both
    <$> phases (mds_file keep_raw) = [LOCAL; REMOTE; DNE] /\
  locate (mds_file keep_raw) listing_of_both = [LOCAL; LOCAL; DNE].
Proof. split; vm_compute; reflexivity. Qed.

(** ** Further properties of the evictions *)

Lemma evict_loop_ok ps : forall ddu d,
  exists deltas d',
    evicts (configured ps) d deltas d' /\
    evict_loop ps ddu d = (Ok (ddu + sum deltas), d').
Proof.
  induction ps as [|[p|] ps IH]; intros ddu d.
  - exists [], d. split; [constructor|]. cbn. by rewrite Z.add_0_r.
  - cbn [evict_loop configured].
    rewrite (bind_ok _ _ _ _ _ (evict_phase_eq p d)).
    edestruct IH as (deltas & d' & Hev & Heq).
    eexists (_ :: deltas), d'. split.
    + econstructor; [apply evict_phase_eq|exact Hev].
    + rewrite Heq. cbn [sum foldr]. do 2 f_equal. fold (sum deltas). lia.
  - cbn [evict_loop configured]. apply IH.
Qed.

Lemma configured_elem ps p : p ∈ configured ps <-> Some p ∈ ps.
Proof.
  induction ps as [|[q|] ps IH]; cbn [configured].
  - split; intros H; by apply elem_of_nil in H.
  - rewrite !elem_of_cons, IH. split; intros [H|H]; auto; left; congruence.
  - rewrite elem_of_cons, IH. split; [auto|]. by intros [[=]|H].
Qed.

Lemma sum_nonpos deltas :
  Forall (fun delta => delta <= 0) deltas -> sum deltas <= 0.
Proof. induction 1; cbn; [done|]. fold (sum l). lia. Qed.

(** X13. [evict] always succeeds: it returns a delta that is not
    positive, afterwards no configured phase of the file is on disk, and a
    path that is not the path of one of its phases holds what it held. *)
Theorem evict_removes_every_phase self d :
  exists n d',
    evict self d = (Ok n, d') /\ n <= 0 /\
    (forall p, Some p ∈ phases self -> ~ on_disk d' p) /\
    (forall path,
       (forall p, Some p ∈ phases self -> get_local_filename p <> path) ->
       fs d' !! path = fs d !! path).
Proof.
  destruct (evict_loop_ok (phases self) 0 d) as (deltas & d' & Hev & Heq).
  exists (sum deltas), d'. split; [exact Heq|]. split; [|split].
  - apply sum_nonpos. by eapply evicts_nonpos.
  - intros p Hp [data Hdata].
    rewrite (evicts_fs _ _ _ _ Hev) in Hdata.
    rewrite decide_True in Hdata; [done|].
    apply list_elem_of_fmap. exists p. split; [done|]. by apply configured_elem.
  - intros path Hother. rewrite (evicts_fs _ _ _ _ Hev).
    rewrite decide_False; [done|]. intros Hin.
    apply list_elem_of_fmap in Hin as (p & -> & Hp).
    apply configured_elem in Hp. by apply (Hother p).
Qed.

Lemma evict_loop_absent ps : forall ddu d,
  (forall p, Some p ∈ ps -> fs d !! get_local_filename p = None) ->
  exists d', evict_loop ps ddu d = (Ok ddu, d') /\ fs d' = fs d.
Proof.
  induction ps as [|[p|] ps IH]; intros ddu d Habs.
  - by exists d.
  - cbn [evict_loop]. rewrite (bind_ok _ _ _ _ _ (evict_phase_eq p d)).
    rewrite (Habs p) by left. rewrite Z.add_0_r.
    edestruct IH as (d' & Heq & Hfs); [|exists d'; split; [exact Heq|]].
    + intros q Hq. cbn [fs]. rewrite delete_id by (apply Habs; left).
      apply Habs. by right.
    + rewrite Hfs. cbn [fs]. apply delete_id, Habs. left.
  - cbn [evict_loop]. apply IH. intros q Hq. apply Habs. by right.
Qed.

Lemma evict_loop_gone ps ddu d :
  exists n d',
    evict_loop ps ddu d = (Ok n, d') /\
    forall p, Some p ∈ ps -> fs d' !! get_local_filename p = None.
Proof.
  destruct (evict_loop_ok ps ddu d) as (deltas & d' & Hev & Heq).
  eexists _, d'. split; [exact Heq|]. intros p Hp.
  rewrite (evicts_fs _ _ _ _ Hev). rewrite decide_True; [done|].
  apply list_elem_of_fmap. exists p. split; [done|]. by apply configured_elem.
Qed.

(** X14. [evict] is idempotent: an [evict] right after an [evict] returns
    0 and leaves the files as they are. *)
Theorem evict_twice self d :
  exists d'',
    evict self (snd (evict self d)) = (Ok 0, d'') /\
    fs d'' = fs (snd (evict self d)).
Proof.
  unfold evict.
  destruct (evict_loop_gone (phases self) 0 d) as (n & d' & -> & Hgone).
  cbn [snd]. by apply evict_loop_absent.
Qed.

(** X15. Evicting a file is evicting every phase it has: [evict] does
    what [evict_phases] does with the deletion vector that flags exactly
    the configured phases. *)
Theorem evict_is_evict_phases_of_all self d :
  evict self d = evict_phases self (all_configured self) d.
Proof.
  unfold evict, evict_phases, all_configured. revert d. generalize 0.
  induction (phases self) as [|[p|] ps IH]; intros ddu d; [done| |].
  - cbn [evict_loop fmap list_fmap zip zip_with evict_phases_loop].
    unfold bind. destruct (evict_phase p d) as [[freed|e] d1]; [apply IH|done].
  - cbn [evict_loop fmap list_fmap zip zip_with evict_phases_loop]. apply IH.
Qed.

(** X16. [evict_phases] is not all-or-nothing: when slot [i] is the first
    flagged slot without a phase, the call raises, but the flagged phases
    of the slots before [i] have had [evict()] called on them and stay
    deleted. *)
Theorem evict_phases_stops_at_unconfigured self phase_dels i d :
  phases self !! i = Some None -> phase_dels !! i = Some true ->
  (forall j, (j < i)%nat ->
     ~ (phases self !! j = Some None /\ phase_dels !! j = Some true)) ->
  exists deltas d',
    evicts (flagged (zip (take i (phases self)) (take i phase_dels)))
           d deltas d' /\
    evict_phases self phase_dels d
    = (Raise (RuntimeError EvictInvalidPhase), d').
Proof.
  unfold evict_phases. generalize 0 as ddu. intros ddu.
  revert phase_dels i ddu d.
  induction (phases self) as [|phase ps IH];
    intros dels i ddu d Hp Hd Hbefore; [done|].
  destruct dels as [|phase_del dels]; [done|].
  destruct i as [|i].
  - injection Hp as ->. injection Hd as ->.
    exists [], d. split; [constructor|done].
  - cbn [lookup list_lookup] in Hp, Hd.
    assert (Hrest : forall j, (j < i)%nat ->
              ~ (ps !! j = Some None /\ dels !! j = Some true)).
    { intros j Hj. apply (Hbefore (S j)). lia. }
    cbn [take zip zip_with flagged evict_phases_loop].
    destruct phase_del.
    + destruct phase as [p|].
      * rewrite (bind_ok _ _ _ _ _ (evict_phase_eq p d)).
        edestruct (IH dels i) as (deltas & d' & Hev & Heq); [done..|].
        eexists (_ :: deltas), d'. split; [|exact Heq].
        econstructor; [apply evict_phase_eq|exact Hev].
      * exfalso. apply (Hbefore 0%nat); [lia|done].
    + destruct (IH dels i ddu d) as (deltas & d' & Hev & Heq); [done..|].
      exists deltas, d'. split; [|done]. by destruct phase.
Qed.

Lemma evict_phases_stops_at_unconfigured_witness :
  exists deltas d',
    evicts (flagged (zip (take 2 (phases (mds_file keep_all)))
                         (take 2 [true; false; true])))
           disk_with_zip deltas d' /\
    evict_phases (mds_file keep_all) [true; false; true] disk_with_zip
    = (Raise (RuntimeError EvictInvalidPhase), d').
Proof.
  apply (evict_phases_stops_at_unconfigured (mds_file keep_all)
           [true; false; true] 2 disk_with_zip).
  - reflexivity.
  - reflexivity.
  - intros [|[|j]] Hj [Hp Hd]; [discriminate..|lia].
Defined.

(** X17. Only the first three entries of a deletion vector count, and a
    missing entry counts as unflagged: [evict_phases] on any vector does
    what it does on the vector cut or padded with [False] to length
    three. *)
Theorem evict_phases_reads_three_entries self phase_dels d :
  evict_phases self phase_dels d
  = evict_phases self (take 3 (phase_dels ++ [false; false; false])) d.
Proof.
  unfold evict_phases, phases.
  destruct phase_dels as [|a [|b [|c rest]]]; cbn [app take zip zip_with].
  - reflexivity.
  - destruct a, (zip_phase self); reflexivity.
  - destruct a, b, (zip_phase self); reflexivity.
  - reflexivity.
Qed.

Lemma evict_phases_loop_shrinks pairs : forall ddu d r d',
  evict_phases_loop pairs ddu d = (r, d') ->
  (forall path data, fs d' !! path = Some data -> fs d !! path = Some data) /\
  forall e, r = Raise e -> e = RuntimeError EvictInvalidPhase.
Proof.
  induction pairs as [|[phase phase_del] pairs IH]; intros ddu d r d' Hrun.
  - by injection Hrun as <- <-.
  - cbn [evict_phases_loop] in Hrun. destruct phase_del; [|by eapply IH].
    destruct phase as [p|].
    + rewrite (bind_ok _ _ _ _ _ (evict_phase_eq p d)) in Hrun.
      apply IH in Hrun as [Hfs He]. split; [|done].
      intros path data Hdata. apply Hfs in Hdata. cbn [fs] in Hdata.
      by apply lookup_delete_Some in Hdata as [_ Hdata].
    + injection Hrun as <- <-. split; [done|]. by intros e [= <-].
Qed.

Lemma police_shrinks self phase_locs produced d r d' :
  police self phase_locs produced d = (r, d') ->
  (forall path data, fs d' !! path = Some data -> fs d !! path = Some data) /\
  (forall e, r = Raise e -> e = RuntimeError EvictInvalidPhase) /\
  (forall n, r = Ok n -> n <= produced).
Proof.
  unfold police. cbv zeta. intros Hrun.
  destruct (evict_phases self _ _) as [r0 d0] eqn:Hev.
  pose proof Hev as Hev'. apply evict_phases_loop_shrinks in Hev' as [Hfs He].
  destruct r0 as [freed|e]; injection Hrun as <- <-.
  - split; [exact Hfs|]. split; [done|]. intros n [= <-].
    apply evict_phases_ok_inv in Hev as (deltas & Hevs & ->).
    pose proof (sum_nonpos deltas (evicts_nonpos _ _ _ _ Hevs)). lia.
  - split; [exact Hfs|]. split; [|done]. intros e0 [= <-]. by apply He.
Qed.

(** ** Further properties of [init_dir] *)

(** X18. [init_dir] only takes away: it asks the keep policy once and
    then only calls [evict()]; whatever its outcome, a file on disk
    afterwards was there before with the same bytes, and when it returns,
    the usage it reports is at most what the phases contributed. *)
Theorem init_dir_only_evicts self listing d r d' :
  init_dir self listing d = (r, d') ->
  (forall path data, fs d' !! path = Some data -> fs d !! path = Some data) /\
  (exists phase_locs evs,
     trace d'
     = trace d ++
       EvPolicy phase_locs
         (get_phase_deletions (safe_keep_phases (stream self)) phase_locs)
       :: evs /\
     Forall (fun e => is_evict e = true) evs) /\
  (forall n, r = Ok n -> n <= sum (contribution d listing <$> phases self)).
Proof.
  rewrite init_dir_eq. intros Hrun.
  pose proof (police_shrinks _ _ _ _ _ _ Hrun) as (Hfs & _ & Hn).
  apply police_trace in Hrun as (evs & rest & Htr & Hevs & _).
  split; [exact Hfs|]. split; [|exact Hn].
  eexists _, evs. split; [exact Htr|].
  assert (Hall : Forall (fun e => is_evict e = true) (evs ++ rest)).
  { rewrite Hevs. unfold evictions. apply Forall_fmap, Forall_forall.
    by intros p _. }
  by apply Forall_app in Hall as [Hall _].
Qed.

Lemma init_dir_only_evicts_witness :
  (forall path data,
     fs (snd (init_dir (mds_file keep_raw) listing_of_both
                disk_with_empty_raw)) !! path = Some data ->
     fs disk_with_empty_raw !! path = Some data) /\
  (exists phase_locs evs,
     trace (snd (init_dir (mds_file keep_raw) listing_of_both
                   disk_with_empty_raw))
     = trace disk_with_empty_raw ++
       EvPolicy phase_locs
         (get_phase_deletions
            (safe_keep_phases (stream (mds_file keep_raw))) phase_locs)
       :: evs /\
     Forall (fun e => is_evict e = true) evs) /\
  (forall n,
     fst (init_dir (mds_file keep_raw) listing_of_both disk_with_empty_raw)
     = Ok n ->
     n <= sum (contribution disk_with_empty_raw listing_of_both
                 <$> phases (mds_file keep_raw))).
Proof.
  apply (init_dir_only_evicts (mds_file keep_raw) listing_of_both
           disk_with_empty_raw).
  vm_compute. reflexivity.
Defined.

(** ** Further properties of [load] *)

Lemma downloads_evictions evs rest ps :
  evs ++ rest = (fun p => EvEvict (get_local_filename p)) <$> ps ->
  downloads evs = [].
Proof.
  intros Heq.
  assert (H : downloads (evs ++ rest) = []).
  { rewrite Heq. clear. by induction ps as [|p ps IH]. }
  unfold downloads in *. rewrite omap_app in H.
  by apply app_eq_nil in H as [? _].
Qed.

Lemma police_quiet self phase_locs produced d r d' :
  police self phase_locs produced d = (r, d') ->
  exists evs, trace d' = trace d ++ evs /\ downloads evs = [].
Proof.
  intros Hrun. apply police_trace in Hrun as (evs & rest & Htr & Hevs & _).
  eexists. split; [exact Htr|].
  change (downloads evs = []). by eapply downloads_evictions.
Qed.

Lemma download_trace st p d r d' :
  download st p d = (r, d') ->
  (exists n, r = Ok n /\
             trace d' = trace d ++ [EvDownload (get_local_filename p)] /\
             forall path, path <> get_local_filename p ->
               path <> (get_local_filename p ++ ".tmp")%string ->
               fs d' !! path = fs d !! path) \/
  (exists e, r = Raise e /\ d' = d).
Proof.
  rewrite download_eq.
  destruct (remote st !! _) as [data|]; [|intros [= <- <-]; right; by eexists].
  destruct (bool_decide _); [|intros [= <- <-]; right; by eexists].
  intros [= <- <-]. left. eexists. split; [done|]. split; [done|].
  intros path H1 H2. cbn [placed fs].
  by rewrite lookup_insert_ne, lookup_delete_ne, lookup_insert_ne.
Qed.

Section Reloading.

Variable decompress : option string -> pybytes -> pybytes.
Variable canonicalize : string -> pybytes -> pybytes.

Local Abbreviation _unzip := (_unzip decompress).
Local Abbreviation _canonicalize := (_canonicalize canonicalize).
Local Abbreviation _load_raw := (_load_raw decompress).
Local Abbreviation load := (load decompress canonicalize).

(** X19. [_unzip] checks before it writes: when it raises anything but
    the internal eviction error, the disk and the log are exactly as they
    were, so no temporary or raw file is left behind by a failed length
    check. *)
Theorem _unzip_writes_nothing_on_failure self d e d' :
  _unzip self d = (Raise e, d') ->
  e <> RuntimeError EvictInvalidPhase ->
  d' = d.
Proof.
  rewrite _unzip_eq. intros Hrun Hne.
  destruct (zip_phase self) as [zp|]; [|by injection Hrun].
  destruct (fs d !! get_local_filename zp) as [zip_data|]; [|by injection Hrun].
  cbv zeta in Hrun.
  destruct (negb _); [by injection Hrun|].
  destruct (negb _); [by injection Hrun|].
  apply police_shrinks in Hrun as (_ & He & _). by specialize (He e eq_refl).
Qed.

Lemma _unzip_quiet self d r d' :
  _unzip self d = (r, d') ->
  exists evs, trace d' = trace d ++ evs /\ downloads evs = [].
Proof.
  rewrite _unzip_eq.
  assert (Hnone : forall e, (Raise e, d) = (r, d') ->
            exists evs, trace d' = trace d ++ evs /\ downloads evs = []).
  { intros e [= <- <-]. exists []. by rewrite app_nil_r. }
  destruct (zip_phase self) as [zp|]; [|apply Hnone].
  destruct (fs d !! get_local_filename zp) as [zip_data|]; [|apply Hnone].
  cbv zeta. destruct (negb _); [apply Hnone|]. destruct (negb _); [apply Hnone|].
  intros Hrun. apply police_quiet in Hrun as (evs & Htr & Hq).
  exists (EvUnzip (get_local_filename zp) (get_local_filename (raw_phase self))
          :: evs).
  split; [|exact Hq]. rewrite Htr. cbn [placed trace]. by rewrite <- app_assoc.
Qed.

Lemma _canonicalize_quiet self d r d' :
  _canonicalize self d = (r, d') ->
  exists evs, trace d' = trace d ++ evs /\ downloads evs = [].
Proof.
  rewrite _canonicalize_eq.
  assert (Hnone : forall e, (Raise e, d) = (r, d') ->
            exists evs, trace d' = trace d ++ evs /\ downloads evs = []).
  { intros e [= <- <-]. exists []. by rewrite app_nil_r. }
  destruct (can_algo self) as [algo|]; [|apply Hnone].
  destruct (can_phase self) as [cp|]; [|apply Hnone].
  destruct (negb _); [apply Hnone|].
  destruct (fs d !! get_local_filename (raw_phase self)) as [raw_data|];
    [|apply Hnone].
  cbv zeta.
  assert (Hpol : forall locs produced,
    police self locs produced
      (written (get_local_filename cp) (canonicalize algo raw_data)
         (EvCanonicalize (get_local_filename (raw_phase self))
            (get_local_filename cp)) d) = (r, d') ->
    exists evs, trace d' = trace d ++ evs /\ downloads evs = []).
  { intros locs produced Hrun. apply police_quiet in Hrun as (evs & Htr & Hq).
    exists (EvCanonicalize (get_local_filename (raw_phase self))
                           (get_local_filename cp) :: evs).
    split; [|exact Hq]. rewrite Htr. cbn [written trace].
    by rewrite <- app_assoc. }
  destruct (size cp) as [expected|]; [|by apply Hpol].
  destruct (negb _); [|by apply Hpol].
  intros [= <- <-]. by eexists [_].
Qed.

Lemma _load_raw_downloads self d r d' :
  _load_raw self d = (r, d') ->
  exists evs,
    trace d' = trace d ++ evs /\
    (downloads evs = [] \/
     downloads evs = [get_local_filename (first_phase self)]) /\
    (on_disk d (raw_phase self) \/ on_disk d (first_phase self) ->
     downloads evs = []) /\
    (forall data,
       ~ on_disk d (raw_phase self) -> ~ on_disk d (first_phase self) ->
       remote (stream self) !! get_local_filename (first_phase self)
       = Some data ->
       size (first_phase self) = None \/
       size (first_phase self) = Some (len data) ->
       downloads evs = [get_local_filename (first_phase self)]).
Proof.
  rewrite _load_raw_eq. unfold first_phase. case_bool_decide as Hraw.
  { intros [= <- <-]. exists []. rewrite app_nil_r. split; [done|].
    split; [by left|]. split; [done|]. by intros data Hn. }
  destruct (zip_phase self) as [zp|].
  - case_bool_decide as Hzip.
    + intros Hrun. apply _unzip_quiet in Hrun as (evs & Htr & Hq).
      exists evs. split; [done|]. split; [by left|]. split; [done|].
      by intros data _ Hn.
    + rewrite download_eq.
      destruct (remote (stream self) !! get_local_filename zp) as [data|].
      2:{ intros [= <- <-]. exists []. rewrite app_nil_r. split; [done|].
          split; [by left|]. split; [done|]. by intros data _ _ [=]. }
      case_bool_decide as Hsize.
      2:{ intros [= <- <-]. exists []. rewrite app_nil_r. split; [done|].
          split; [by left|]. split; [done|].
          intros data0 _ _ [= <-] Hs. by destruct Hsize. }
      destruct (_unzip self _) as [r2 d2] eqn:Hun. intros Hrun.
      assert (d2 = d') as -> by (destruct r2; congruence).
      apply _unzip_quiet in Hun as (evs & Htr & Hq).
      exists (EvDownload (get_local_filename zp) :: evs).
      split; [rewrite Htr; cbn [placed trace]; by rewrite <- app_assoc|].
      assert (Hd : downloads (EvDownload (get_local_filename zp) :: evs)
                   = [get_local_filename zp]).
      { change (get_local_filename zp :: downloads evs = [get_local_filename zp]).
        by rewrite Hq. }
      split; [by right|]. split; [by intros [?|?]|done].
  - rewrite download_eq.
    destruct (remote (stream self) !! get_local_filename (raw_phase self))
      as [data|].
    2:{ intros [= <- <-]. exists []. rewrite app_nil_r. split; [done|].
        split; [by left|]. split; [done|]. by intros data _ _ [=]. }
    case_bool_decide as Hsize.
    2:{ intros [= <- <-]. exists []. rewrite app_nil_r. split; [done|].
        split; [by left|]. split; [done|].
        intros data0 _ _ [= <-] Hs. by destruct Hsize. }
    intros [= <- <-]. exists [EvDownload (get_local_filename (raw_phase self))].
    split; [done|]. split; [by right|]. split; [by intros [?|?]|done].
Qed.

(** X20. Whatever its outcome, [load] downloads at most one object, and
    only the first configured phase of the file (compressed if there is
    one, else raw). It downloads nothing when the terminal, the raw or the
    first phase is on disk; it downloads the first phase when none of
    them is and the remote holds an object of the declared size. *)
Theorem load_downloads_first_phase_once self d :
  exists evs,
    trace (snd (load self d)) = trace d ++ evs /\
    (downloads evs = [] \/
     downloads evs = [get_local_filename (first_phase self)]) /\
    (on_disk d (terminal_phase self) \/ on_disk d (raw_phase self) \/
     on_disk d (first_phase self) ->
     downloads evs = []) /\
    (forall data,
       ~ on_disk d (terminal_phase self) ->
       ~ on_disk d (raw_phase self) -> ~ on_disk d (first_phase self) ->
       remote (stream self) !! get_local_filename (first_phase self)
       = Some data ->
       size (first_phase self) = None \/
       size (first_phase self) = Some (len data) ->
       downloads evs = [get_local_filename (first_phase self)]).
Proof.
  rewrite load_eq. unfold terminal_phase.
  destruct (can_phase self) as [cp|].
  - case_bool_decide as Hcan.
    { exists []. cbn [snd]. rewrite app_nil_r. split; [done|].
      split; [by left|]. split; [done|]. by intros data Hn. }
    destruct (_load_raw self d) as [r1 d1] eqn:Hl.
    apply _load_raw_downloads in Hl as (evs1 & Htr1 & Hor & Hloc & Hrem).
    destruct r1 as [a|e]; cbn [snd].
    + destruct (_canonicalize self d1) as [r2 d2] eqn:Hc.
      apply _canonicalize_quiet in Hc as (evs2 & Htr2 & Hq).
      exists (evs1 ++ evs2).
      assert (Hd : downloads (evs1 ++ evs2) = downloads evs1).
      { unfold downloads in *. by rewrite omap_app, Hq, app_nil_r. }
      rewrite Hd. split.
      { destruct r2; cbn [snd]; by rewrite Htr2, Htr1, app_assoc. }
      split; [done|]. split.
      * intros [?|H]; [done|by apply Hloc].
      * intros data _. apply Hrem.
    + exists evs1. split; [done|]. split; [done|]. split.
      * intros [?|H]; [done|by apply Hloc].
      * intros data _. apply Hrem.
  - destruct (_load_raw self d) as [r1 d1] eqn:Hl.
    apply _load_raw_downloads in Hl as (evs1 & Htr1 & Hor & Hloc & Hrem).
    exists evs1. split; [done|]. split; [done|]. split.
    + intros [H|H]; [apply Hloc; by left|by apply Hloc].
    + intros data _. apply Hrem.
Qed.


Lemma _unzip_ok_sized self d n d' :
  can_phase self = None ->
  keeps_terminal self -> terminal_path_own self ->
  _unzip self d = (Ok n, d') ->
  exists data,
    fs d' !! get_local_filename (raw_phase self) = Some data /\
    size (raw_phase self) = Some (len data).
Proof.
  intros Hcan Hkeep Hown. rewrite _unzip_eq.
  destruct (zip_phase self) as [zp|]; [|done].
  destruct (fs d !! get_local_filename zp) as [zip_data|]; [|done].
  cbv zeta. destruct (negb _); [done|].
  case_bool_decide as Hlen; [|done]. cbn [negb].
  intros Hok. apply police_keeps_terminal in Hok; [|done..].
  unfold terminal_phase in Hok. rewrite Hcan in Hok.
  rewrite Hok, placed_on_disk. by eexists.
Qed.

Lemma _load_raw_ok_sized self d n d' :
  can_phase self = None ->
  keeps_terminal self -> terminal_path_own self ->
  ~ on_disk d (raw_phase self) ->
  _load_raw self d = (Ok n, d') ->
  exists data,
    fs d' !! get_local_filename (raw_phase self) = Some data /\
    forall m, size (raw_phase self) = Some m -> len data = m.
Proof.
  intros Hcan Hkeep Hown Hraw. rewrite _load_raw_eq.
  rewrite bool_decide_eq_false_2 by done.
  assert (Hun : forall d0, _unzip self d0 = (Ok n, d') \/
                           (exists b, _unzip self d0 = (Ok b, d')) ->
    exists data,
      fs d' !! get_local_filename (raw_phase self) = Some data /\
      forall m, size (raw_phase self) = Some m -> len data = m).
  { intros d0 Hrun.
    assert (exists b, _unzip self d0 = (Ok b, d')) as [b Hb]
      by (destruct Hrun as [?|?]; [by eexists|done]).
    apply _unzip_ok_sized in Hb as (data & Hdata & Hsize); [|done..].
    exists data. split; [done|]. intros m Hm. congruence. }
  destruct (zip_phase self) as [zp|] eqn:Hzip.
  - destruct (bool_decide (on_disk d zp)).
    { intros Hrun. apply (Hun d). by left. }
    destruct (download (stream self) zp d) as [[a|e] d1]; [|done].
    destruct (_unzip self d1) as [[b|e] d2] eqn:Hu; [|done].
    intros [= _ <-]. apply (Hun d1). right. by eexists.
  - rewrite download_eq.
    destruct (remote (stream self) !! _) as [data|]; [|done].
    case_bool_decide as Hsize; [|done].
    intros [= _ <-]. exists data. rewrite placed_on_disk. split; [done|].
    intros m Hm. destruct Hsize as [Hs|Hs]; congruence.
Qed.

Lemma _canonicalize_ok_sized self cp d n d' :
  can_phase self = Some cp ->
  keeps_terminal self -> terminal_path_own self ->
  _canonicalize self d = (Ok n, d') ->
  exists data,
    fs d' !! get_local_filename cp = Some data /\
    forall m, size cp = Some m -> len data = m.
Proof.
  intros Hcan Hkeep Hown. rewrite _canonicalize_eq, Hcan.
  destruct (can_algo self) as [algo|]; [|done].
  destruct (negb _); [done|].
  destruct (fs d !! get_local_filename (raw_phase self)) as [raw_data|]; [|done].
  cbv zeta.
  assert (Hpol : forall locs produced,
    police self locs produced
      (written (get_local_filename cp) (canonicalize algo raw_data)
         (EvCanonicalize (get_local_filename (raw_phase self))
            (get_local_filename cp)) d) = (Ok n, d') ->
    fs d' !! get_local_filename cp = Some (canonicalize algo raw_data)).
  { intros locs produced Hok. apply police_keeps_terminal in Hok; [|done..].
    unfold terminal_phase in Hok. rewrite Hcan in Hok.
    by rewrite Hok, written_on_disk. }
  destruct (size cp) as [expected|].
  - destruct (Z.eqb_spec (len (canonicalize algo raw_data)) expected) as [He|He];
      [|done].
    cbn [negb]. intros Hok. apply Hpol in Hok. eexists. split; [exact Hok|].
    intros m [= <-]. exact He.
  - intros Hok. apply Hpol in Hok. eexists. split; [exact Hok|]. done.
Qed.

(** X22. What a [load] that had work to do leaves behind: when the keep
    policy never flags the terminal phase and no other phase shares its
    path, a [load] that starts without the terminal phase and returns
    leaves a file at its path, and the file has the size the phase
    declares, if it declares one. *)
Theorem load_produces_terminal_of_declared_size self d n d' :
  keeps_terminal self -> terminal_path_own self ->
  ~ on_disk d (terminal_phase self) ->
  load self d = (Ok n, d') ->
  exists data,
    fs d' !! get_local_filename (terminal_phase self) = Some data /\
    forall m, size (terminal_phase self) = Some m -> len data = m.
Proof.
  intros Hkeep Hown Hterm. rewrite load_eq. unfold terminal_phase in *.
  destruct (can_phase self) as [cp|] eqn:Hcan.
  - rewrite bool_decide_eq_false_2 by done.
    destruct (_load_raw self d) as [[a|e] d1]; [|done].
    destruct (_canonicalize self d1) as [[b|e] d2] eqn:Hc; [|done].
    intros [= _ <-]. by eapply _canonicalize_ok_sized.
  - by apply _load_raw_ok_sized.
Qed.

End Reloading.

Lemma _unzip_writes_nothing_on_failure_witness :
  snd (_unzip identity_decompress (mds_file keep_raw) disk_with_zip)
  = disk_with_zip.
Proof.
  apply (_unzip_writes_nothing_on_failure identity_decompress
           (mds_file keep_raw) disk_with_zip
           (ValueError (DecompressedSizeMismatch 3 6))).
  - vm_compute. reflexivity.
  - discriminate.
Defined.


Lemma load_produces_terminal_of_declared_size_witness :
  exists data,
    fs disk_after_load !! get_local_filename (terminal_phase (mds_file keep_raw))
    = Some data /\
    forall m, size (terminal_phase (mds_file keep_raw)) = Some m -> len data = m.
Proof.
  apply (load_produces_terminal_of_declared_size sample_decompress
           sample_canonicalize (mds_file keep_raw) disk_with_zip 3
           disk_after_load keep_raw_keeps_terminal
           (mds_file_terminal_path_own keep_raw)).
  - unfold on_disk. apply (bool_decide_eq_false_1 _). vm_compute. reflexivity.
  - vm_compute. reflexivity.
Defined.

(** ** The delta [load] returns *)

Lemma usage_insert (m : gmap string pybytes) path data :
  m !! path = None ->
  map_fold (fun (_ : string) (data : pybytes) acc => len data + acc) 0
           (<[path := data]> m)
  = len data
    + map_fold (fun (_ : string) (data : pybytes) acc => len data + acc) 0 m.
Proof.
  intros Hnone. apply (map_fold_insert_L (fun _ data acc => len data + acc));
    [|done].
  intros; lia.
Qed.

Lemma usage_delete (m : gmap string pybytes) path data :
  m !! path = Some data ->
  map_fold (fun (_ : string) (data : pybytes) acc => len data + acc) 0
           (delete path m)
  = map_fold (fun (_ : string) (data : pybytes) acc => len data + acc) 0 m
    - len data.
Proof.
  intros Hsome.
  rewrite (map_fold_delete_L (fun _ data acc => len data + acc) 0 path data m);
    [lia| |done].
  intros; lia.
Qed.

Lemma evict_phase_usage p d delta d' :
  evict_phase p d = (Ok delta, d') -> disk_usage d' = disk_usage d + delta.
Proof.
  rewrite evict_phase_eq. intros [= <- <-]. unfold disk_usage. cbn [fs].
  destruct (fs d !! get_local_filename p) as [data|] eqn:Hp.
  - rewrite (usage_delete _ _ _ Hp). lia.
  - rewrite delete_id by done. lia.
Qed.

Lemma evicts_usage ps d deltas d' :
  evicts ps d deltas d' -> disk_usage d' = disk_usage d + sum deltas.
Proof.
  induction 1 as [|p ps d delta d1 deltas d2 Hp _ IH]; cbn; [lia|].
  fold (sum deltas). rewrite IH, (evict_phase_usage _ _ _ _ Hp). lia.
Qed.

Lemma police_usage self phase_locs produced d n d' :
  police self phase_locs produced d = (Ok n, d') ->
  disk_usage d' = disk_usage d + (n - produced).
Proof.
  unfold police. cbv zeta.
  destruct (evict_phases self _ _) as [[freed|e] d0] eqn:Hev; [|done].
  intros [= <- <-].
  apply evict_phases_ok_inv in Hev as (deltas & Hevs & ->).
  rewrite (evicts_usage _ _ _ _ Hevs). unfold disk_usage, log. cbn [fs]. lia.
Qed.

Lemma placed_usage path data ev d :
  fs d !! path = None -> fs d !! (path ++ ".tmp")%string = None ->
  disk_usage (placed path data ev d) = disk_usage d + len data.
Proof.
  intros Hpath Htmp. unfold disk_usage, placed. cbn [fs].
  rewrite delete_insert_id by done. rewrite usage_insert by done. lia.
Qed.

Lemma written_usage path data ev d :
  fs d !! path = None ->
  disk_usage (written path data ev d) = disk_usage d + len data.
Proof.
  intros Hpath. unfold disk_usage, written. cbn [fs].
  rewrite usage_insert by done. lia.
Qed.

Lemma placed_absent path data ev d other :
  fs d !! other = None -> other <> path ->
  fs (placed path data ev d) !! other = None.
Proof.
  intros Hnone Hne. unfold placed. cbn [fs]. rewrite lookup_insert_ne by done.
  destruct (decide (other = (path ++ ".tmp")%string)) as [->|Hne2].
  - apply lookup_delete_eq.
  - by rewrite lookup_delete_ne, lookup_insert_ne.
Qed.

Lemma police_absent self phase_locs produced d r d' other :
  police self phase_locs produced d = (r, d') ->
  fs d !! other = None -> fs d' !! other = None.
Proof.
  intros Hrun Hnone. apply police_shrinks in Hrun as (Hfs & _).
  apply eq_None_not_Some. intros [data Hdata]. apply Hfs in Hdata. congruence.
Qed.

Lemma download_usage st p d n d' :
  ~ on_disk d p -> fs d !! (get_local_filename p ++ ".tmp")%string = None ->
  download st p d = (Ok n, d') ->
  disk_usage d' = disk_usage d + n /\
  forall other, fs d !! other = None -> other <> get_local_filename p ->
    fs d' !! other = None.
Proof.
  intros Hp Htmp. rewrite download_eq.
  destruct (remote st !! _) as [data|]; [|done].
  destruct (bool_decide _); [|done]. intros [= <- <-]. split.
  - apply placed_usage; [|done]. by apply eq_None_not_Some.
  - intros other Hnone Hne. by apply placed_absent.
Qed.

Section Accounting.

Variable decompress : option string -> pybytes -> pybytes.
Variable canonicalize : string -> pybytes -> pybytes.

Local Abbreviation _unzip := (_unzip decompress).
Local Abbreviation _canonicalize := (_canonicalize canonicalize).
Local Abbreviation _load_raw := (_load_raw decompress).
Local Abbreviation load := (load decompress canonicalize).

Lemma _unzip_usage self d n d' :
  ~ on_disk d (raw_phase self) ->
  fs d !! (get_local_filename (raw_phase self) ++ ".tmp")%string = None ->
  _unzip self d = (Ok n, d') ->
  disk_usage d' = disk_usage d + n /\
  forall other, fs d !! other = None ->
    other <> get_local_filename (raw_phase self) -> fs d' !! other = None.
Proof.
  intros Hraw Htmp. rewrite _unzip_eq.
  destruct (zip_phase self) as [zp|]; [|done].
  destruct (fs d !! get_local_filename zp) as [zip_data|]; [|done].
  cbv zeta. destruct (negb _); [done|]. destruct (negb _); [done|].
  intros Hok. split.
  - rewrite (police_usage _ _ _ _ _ _ Hok).
    rewrite placed_usage; [lia| |done]. by apply eq_None_not_Some.
  - intros other Hnone Hne. eapply police_absent; [exact Hok|].
    by apply placed_absent.
Qed.

Lemma _canonicalize_usage self cp d n d' :
  can_phase self = Some cp -> ~ on_disk d cp ->
  _canonicalize self d = (Ok n, d') ->
  disk_usage d' = disk_usage d + n.
Proof.
  intros Hcan Hncan. rewrite _canonicalize_eq, Hcan.
  destruct (can_algo self) as [algo|]; [|done].
  destruct (negb _); [done|].
  destruct (fs d !! get_local_filename (raw_phase self)) as [raw_data|]; [|done].
  cbv zeta.
  assert (Hpol : forall locs,
    police self locs (len (canonicalize algo raw_data))
      (written (get_local_filename cp) (canonicalize algo raw_data)
         (EvCanonicalize (get_local_filename (raw_phase self))
            (get_local_filename cp)) d) = (Ok n, d') ->
    disk_usage d' = disk_usage d + n).
  { intros locs Hok. rewrite (police_usage _ _ _ _ _ _ Hok).
    rewrite written_usage; [lia|]. by apply eq_None_not_Some. }
  destruct (size cp) as [expected|]; [|apply Hpol].
  destruct (negb _); [done|apply Hpol].
Qed.

Lemma _load_raw_usage self d n d' :
  paths_distinct self -> temp_paths_free self d ->
  _load_raw self d = (Ok n, d') ->
  disk_usage d' = disk_usage d + n /\
  forall other, fs d !! other = None ->
    other <> get_local_filename (raw_phase self) ->
    other <> get_local_filename (first_phase self) ->
    fs d' !! other = None.
Proof.
  intros Hdist Hfree. rewrite _load_raw_eq. unfold first_phase.
  assert (Hrawtmp :
    fs d !! (get_local_filename (raw_phase self) ++ ".tmp")%string = None).
  { by apply (Hfree 1%nat (raw_phase self)). }
  case_bool_decide as Hraw.
  { intros [= <- <-]. split; [lia|done]. }
  destruct (zip_phase self) as [zp|] eqn:Hzip.
  - assert (Hz : phases self !! 0%nat = Some (Some zp))
      by (unfold phases; cbn; by rewrite Hzip).
    case_bool_decide as Hzloc.
    + intros Hok. apply _unzip_usage in Hok as [Hu Habs]; [|done..].
      split; [done|]. intros other Hnone Hne _. by apply Habs.
    + destruct (download (stream self) zp d) as [[a|e] d1] eqn:Hd; [|done].
      destruct (_unzip self d1) as [[b|e] d2] eqn:Hun; [|done].
      intros [= <- <-].
      apply download_usage in Hd as [Hd Habs1];
        [|done|by apply (Hfree 0%nat zp)].
      assert (Hne : get_local_filename (raw_phase self)
                    <> get_local_filename zp).
      { by apply (Hdist 1%nat 0%nat). }
      apply _unzip_usage in Hun as [Hu Habs2].
      * split; [lia|]. intros other Hnone Hn1 Hn2.
        apply Habs2; [|done]. by apply Habs1.
      * intros [data Hdata]. rewrite Habs1 in Hdata; [done| |done].
        by apply eq_None_not_Some.
      * apply Habs1; [done|].
        intros Heq. by apply (proj2 (Hfree 1%nat (raw_phase self) eq_refl)
                                0%nat zp).
  - intros Hok. apply download_usage in Hok as [Hd Habs]; [|done..].
    split; [done|]. intros other Hnone Hne _. by apply Habs.
Qed.

(** X23. The number [load] returns is the change in the bytes on disk:
    when the phases of the file are stored at different paths and their
    temporary paths are free, a [load] that returns [n] leaves the local
    directory [n] bytes larger than it found it, whatever was downloaded,
    decompressed, canonicalized and evicted on the way. *)
Theorem load_returns_usage_delta self d n d' :
  paths_distinct self -> temp_paths_free self d ->
  load self d = (Ok n, d') ->
  disk_usage d' = disk_usage d + n.
Proof.
  intros Hdist Hfree. rewrite load_eq.
  destruct (can_phase self) as [cp|] eqn:Hcan.
  - case_bool_decide as Hloc.
    { intros [= <- <-]. lia. }
    assert (Hc : phases self !! 2%nat = Some (Some cp))
      by (unfold phases; cbn; by rewrite Hcan).
    destruct (_load_raw self d) as [[a|e] d1] eqn:Hl; [|done].
    destruct (_canonicalize self d1) as [[b|e] d2] eqn:Hcz; [|done].
    intros [= <- <-].
    apply _load_raw_usage in Hl as [Hl Habs]; [|done..].
    apply (_canonicalize_usage self cp) in Hcz; [lia|done|].
    intros [data Hdata]. rewrite Habs in Hdata; [done| | |].
    + by apply eq_None_not_Some.
    + by apply (Hdist 2%nat 1%nat).
    + unfold first_phase. destruct (zip_phase self) as [zp|] eqn:Hzip.
      * apply (Hdist 2%nat 0%nat); [done| |lia].
        unfold phases; cbn; by rewrite Hzip.
      * by apply (Hdist 2%nat 1%nat).
  - intros Hok. by apply _load_raw_usage in Hok as [Hl _].
Qed.

End Accounting.

Lemma mds_file_paths_distinct keep : paths_distinct (mds_file keep).
Proof.
  intros [|[|[|i]]] [|[|[|j]]] p q; cbn; intros [= <-] [= <-] Hne; done.
Qed.

Lemma load_returns_usage_delta_witness :
  disk_usage disk_after_load = disk_usage disk_with_zip + 3.
Proof.
  apply (load_returns_usage_delta sample_decompress sample_canonicalize
           (mds_file keep_raw) disk_with_zip 3 disk_after_load
           (mds_file_paths_distinct keep_raw)).
  - intros [|[|[|i]]] p; cbn; intros [= <-];
      (split; [vm_compute; reflexivity|]);
      intros [|[|[|j]]] q; cbn; intros [= <-]; done.
  - vm_compute. reflexivity.
Defined.

(** ** Further properties of [validate] *)

Lemma validate_zip_phase_witness :
  (validate (mds_file keep_all) empty_disk
   = (Raise (SizeLimitExceeded 3 3), empty_disk) <-> 3 < 3) /\
  (validate (mds_file keep_all) empty_disk = (Ok tt, empty_disk) <-> 3 <= 3).
Proof.
  apply (validate_zip_phase (mds_file keep_all) empty_disk 3
           {| filename := "shard.00000.mds.zstd"; size := Some 3 |} 3);
    reflexivity.
Defined.

End FileFacts.

Module DualRowFacts.
Import DualRow.

Lemma cancel_future_jobs_eq w : cancel_future_jobs w = (Ok tt, cancelled w).
Proof. reflexivity. Qed.

Lemma submitted_cancelled w : submitted (cancelled w) = submitted w.
Proof.
  unfold submitted, cancelled. cbn. rewrite <- list_fmap_compose.
  apply list_fmap_ext. intros _ [name []] _; reflexivity.
Qed.

Lemma encoded_count_cancelled w : encoded_count (cancelled w) = encoded_count w.
Proof.
  unfold encoded_count, cancelled. cbn. rewrite filter_app, length_app.
  cbn. rewrite decide_False by done. cbn. lia.
Qed.

Lemma none_pending_cancelled w : none_pending (cancelled w).
Proof.
  intros i name. unfold cancelled. cbn. rewrite list_lookup_fmap.
  destruct (futures (executor w) !! i) as [[n []]|]; cbn; congruence.
Qed.

Lemma submitted_set_status i st w : submitted (set_status i st w) = submitted w.
Proof.
  unfold submitted, set_status. cbn.
  apply list_eq. intros j. rewrite !list_lookup_fmap.
  destruct (decide (i = j)) as [->|Hne].
  - rewrite list_lookup_alter_eq. by destruct (futures (executor w) !! j).
  - by rewrite list_lookup_alter_ne.
Qed.

Lemma submitted_set_event w : submitted (set_event w) = submitted w.
Proof. reflexivity. Qed.

(** ** The pool *)

(** The pool changes the state of the uploads and sets the event; it
    leaves everything else alone and never clears the event. *)
Lemma pool_step_frame o w :
  shards (pool_step o w) = shards w /\
  encoded_count (pool_step o w) = encoded_count w /\
  submitted (pool_step o w) = submitted w /\
  is_shutdown (executor (pool_step o w)) = is_shutdown (executor w) /\
  (event w = true -> event (pool_step o w) = true).
Proof.
  destruct o as [i|i ok|i]; cbn [pool_step];
    destruct (futures (executor w) !! i) as [[name []]|];
    repeat split; try done; apply submitted_set_status.
Qed.

Lemma run_pool_frame ops : forall w,
  shards (run_pool ops w) = shards w /\
  encoded_count (run_pool ops w) = encoded_count w /\
  submitted (run_pool ops w) = submitted w /\
  is_shutdown (executor (run_pool ops w)) = is_shutdown (executor w) /\
  (event w = true -> event (run_pool ops w) = true).
Proof.
  induction ops as [|o ops IH]; intros w; [done|].
  change (run_pool (o :: ops) w) with (run_pool ops (pool_step o w)).
  destruct (IH (pool_step o w)) as (-> & -> & -> & -> & Hev).
  destruct (pool_step_frame o w) as (-> & -> & -> & -> & Hev').
  repeat split; auto.
Qed.

(** The callback of an upload that has failed sets the event. *)
Lemma callback_sets_event i name w :
  futures (executor w) !! i = Some (name, Failed) ->
  event (pool_step (Callback i) w) = true.
Proof. intros Hi. cbn [pool_step]. by rewrite Hi. Qed.

Section Writer.

Variable encode_dual_shard : list pybytes -> pybytes * pybytes.
Variable _name_next_shard : nat -> option string -> string * option string.
Variable _process_file :
  pybytes -> string -> option string -> FileInfo * option FileInfo.
Variable get_config : list (string * string).

Local Abbreviation flush_shard :=
  (flush_shard encode_dual_shard _name_next_shard _process_file get_config).
Local Abbreviation describe_shard :=
  (describe_shard encode_dual_shard _name_next_shard _process_file get_config).
Local Abbreviation flush_shard_during :=
  (flush_shard_during encode_dual_shard _name_next_shard _process_file
                      get_config).
Local Abbreviation step :=
  (step encode_dual_shard _name_next_shard _process_file get_config).
Local Abbreviation run :=
  (run encode_dual_shard _name_next_shard _process_file get_config).
Local Abbreviation upload_names := (upload_names _name_next_shard).

(** With the event set, [flush_shard] is [cancel_future_jobs]. *)
Lemma flush_shard_event_set w :
  event w = true -> flush_shard w = (Ok tt, cancelled w).
Proof.
  intros Hev. unfold DualRow.flush_shard, bind at 1, get. by rewrite Hev.
Qed.

Lemma flush_shard_during_event_set before_data before_meta w :
  event w = true ->
  flush_shard_during before_data before_meta w = (Ok tt, cancelled w).
Proof.
  intros Hev. unfold DualRow.flush_shard_during, bind at 1, get.
  by rewrite Hev.
Qed.

(** A call during which the pool does nothing is a call of
    [flush_shard]. *)
Lemma flush_shard_during_nil w :
  flush_shard_during [] [] w = flush_shard w.
Proof.
  unfold DualRow.flush_shard_during, DualRow.flush_shard,
    DualRow.describe_shard, cancel_future_jobs, bind, get, act, set_shards,
    submit, modify, set_executor, raise, ret, run_pool.
  cbn. destruct (event w); [reflexivity|].
  cbn. by destruct (is_shutdown (executor w)).
Qed.

Lemma run_snoc ops o w : run (ops ++ [o]) w = step o (run ops w).
Proof. unfold DualRow.run. by rewrite foldl_app. Qed.

Lemma run_app ops1 ops2 w : run (ops1 ++ ops2) w = run ops2 (run ops1 w).
Proof. unfold DualRow.run. by rewrite foldl_app. Qed.

(** Once the event is set, no step encodes, appends a descriptor or
    submits, and the event stays set. *)
Lemma step_event_set o w :
  event w = true ->
  event (step o w) = true /\ shards (step o w) = shards w /\
  submitted (step o w) = submitted w /\
  encoded_count (step o w) = encoded_count w.
Proof.
  intros Hev. destruct o as [|o|before_data before_meta]; cbn [DualRow.step].
  - rewrite flush_shard_event_set by done. cbn [snd].
    by rewrite submitted_cancelled, encoded_count_cancelled.
  - destruct (pool_step_frame o w) as (-> & -> & -> & _ & Hev'). auto.
  - rewrite flush_shard_during_event_set by done. cbn [snd].
    by rewrite submitted_cancelled, encoded_count_cancelled.
Qed.

Lemma run_event_set ops : forall w,
  event w = true ->
  event (run ops w) = true /\ shards (run ops w) = shards w /\
  submitted (run ops w) = submitted w /\
  encoded_count (run ops w) = encoded_count w.
Proof.
  induction ops as [|o ops IH] using rev_ind; intros w Hev; [done|].
  rewrite run_snoc. destruct (IH w Hev) as (He & Hs & Hsub & Henc).
  destruct (step_event_set o (run ops w) He) as (He' & Hs' & Hsub' & Henc').
  by rewrite He', Hs', Hsub', Henc'.
Qed.

(** C9, as the code has it. Take a writer between two calls of
    [flush_shard] whose event is set, be it that the callback of an upload
    that failed has run at some earlier point. [flush_shard] does what
    [cancel_future_jobs] does and nothing else: the pending uploads are
    cancelled, no shard is encoded, no descriptor is appended, nothing is
    submitted; and whatever calls of [flush_shard] and steps of the pool
    follow, also calls during which the pool is at work, the event stays
    set and the shards encoded, the descriptors and the uploads submitted
    stay as they are. *)
Theorem flush_shard_after_failure w :
  (event w = true \/
   exists w0 i name ops,
     futures (executor w0) !! i = Some (name, Failed) /\
     w = run ops (step (Pool (Callback i)) w0)) ->
  event w = true /\
  flush_shard w = (Ok tt, cancelled w) /\
  none_pending (cancelled w) /\
  encoded_count (cancelled w) = encoded_count w /\
  shards (cancelled w) = shards w /\
  submitted (cancelled w) = submitted w /\
  forall ops,
    event (run ops w) = true /\
    encoded_count (run ops w) = encoded_count w /\
    shards (run ops w) = shards w /\
    submitted (run ops w) = submitted w.
Proof.
  intros Hpre.
  assert (Hev : event w = true).
  { destruct Hpre as [Hev|(w0 & i & name & ops & Hfail & ->)]; [done|].
    apply run_event_set. cbn [DualRow.step].
    by apply (callback_sets_event i name). }
  split; [done|]. split; [by apply flush_shard_event_set|].
  split; [apply none_pending_cancelled|].
  split; [apply encoded_count_cancelled|].
  split; [done|]. split; [apply submitted_cancelled|].
  intros ops. destruct (run_event_set ops w Hev) as (He & Hs & Hsub & Henc).
  done.
Qed.

End Writer.

Lemma flush_shard_after_failure_witness :
  event failed_writer = true /\
  flush_shard sample_encode sample_name sample_process_file [] failed_writer
  = (Ok tt, cancelled failed_writer) /\
  none_pending (cancelled failed_writer) /\
  encoded_count (cancelled failed_writer) = encoded_count failed_writer /\
  shards (cancelled failed_writer) = shards failed_writer /\
  submitted (cancelled failed_writer) = submitted failed_writer /\
  forall ops,
    event (run sample_encode sample_name sample_process_file [] ops
               failed_writer) = true /\
    encoded_count (run sample_encode sample_name sample_process_file [] ops
                       failed_writer) = encoded_count failed_writer /\
    shards (run sample_encode sample_name sample_process_file [] ops
                failed_writer) = shards failed_writer /\
    submitted (run sample_encode sample_name sample_process_file [] ops
                   failed_writer) = submitted failed_writer.
Proof.
  apply (flush_shard_after_failure sample_encode sample_name
           sample_process_file [] failed_writer).
  right. exists failing_writer, 0%nat, "shard.0.csv"%string, [].
  split; [vm_compute; reflexivity|reflexivity].
Defined.

(** C9, as stated, fails: the uploads of a shard can be handed to the pool,
    and started, after an upload of an earlier shard has failed. Here the
    first upload of the first shard fails, and its callback sets the
    event, while the second call of [flush_shard] is under way, after the
    call has read the event: the call goes on to describe the second
    shard and to submit its two uploads, and the pool then starts one of
    them. *)
Lemma shard_submitted_after_failure :
  let w := run sample_encode sample_name sample_process_file []
               [Flush; Pool (Start 0);
                FlushDuring [Finish 0 false; Callback 0] [];
                Pool (Start 2)] sample_writer in
  event w = true /\
  futures (executor w)
  = [("shard.0.csv", Failed); ("shard.0.meta", Pending);
     ("shard.1.csv", Running); ("shard.1.meta", Pending)]%string /\
  length (shards w) = 2%nat /\ encoded_count w = 2%nat.
Proof. vm_compute. repeat split. Qed.

(** Three flushes, the first upload of the second shard failing, and its
    callback running, before the third: only the four uploads of the
    first two shards were ever submitted, and two shards encoded. *)
Example third_shard_is_not_submitted :
  let w := run sample_encode sample_name sample_process_file []
               [Flush; Flush; Pool (Start 2); Pool (Finish 2 false);
                Pool (Callback 2); Flush] sample_writer in
  submitted w = ["shard.0.csv"; "shard.0.meta"; "shard.1.csv"; "shard.1.meta"]%string /\
  encoded_count w = 2%nat /\ length (shards w) = 2%nat /\
  futures (executor w)
  = [("shard.0.csv", Cancelled); ("shard.0.meta", Cancelled);
     ("shard.1.csv", Failed); ("shard.1.meta", Cancelled)]%string.
Proof. vm_compute. repeat split. Qed.

(** ** Further properties of [flush_shard] *)

Section Flushing.

Variable encode_dual_shard : list pybytes -> pybytes * pybytes.
Variable _name_next_shard : nat -> option string -> string * option string.
Variable _process_file :
  pybytes -> string -> option string -> FileInfo * option FileInfo.
Variable get_config : list (string * string).

Local Abbreviation flush_shard :=
  (flush_shard encode_dual_shard _name_next_shard _process_file get_config).
Local Abbreviation describe_shard :=
  (describe_shard encode_dual_shard _name_next_shard _process_file get_config).
Local Abbreviation flush_shard_during :=
  (flush_shard_during encode_dual_shard _name_next_shard _process_file
                      get_config).
Local Abbreviation step :=
  (step encode_dual_shard _name_next_shard _process_file get_config).
Local Abbreviation run :=
  (run encode_dual_shard _name_next_shard _process_file get_config).
Local Abbreviation upload_names := (upload_names _name_next_shard).

(** A flush with the event unset and the pool open. *)
Lemma flush_shard_open w :
  event w = false -> is_shutdown (executor w) = false ->
  exists obj,
    samples obj = length (new_samples w) /\
    flush_shard w
    = (Ok tt,
       {| event := false; new_samples := new_samples w;
          shards := shards w ++ [obj];
          executor :=
            {| futures := futures (executor w)
                          ++ ((fun name => (name, Pending))
                                <$> upload_names (length (shards w)));
               is_shutdown := false |};
          actions :=
            actions w
            ++ [ActEncode;
                ActProcessFile
                  (fst (_name_next_shard (length (shards w)) None));
                ActProcessFile
                  (fst (_name_next_shard (length (shards w))
                                         (Some "meta"%string)))]
            ++ (ActSubmit <$> upload_names (length (shards w))) |}).
Proof.
  intros Hev Hsd. eexists. split; [|].
  2:{ unfold DualRow.flush_shard, bind at 1, get. rewrite Hev. cbv zeta.
      unfold bind, act, set_shards, submit, modify, get, set_executor, raise.
      cbn. rewrite Hsd. cbn. rewrite <- !app_assoc, ?Hev. cbn. reflexivity. }
  reflexivity.
Qed.

Lemma describe_shard_open w :
  exists w',
    describe_shard w
    = (Ok (or_else (snd (_name_next_shard (length (shards w)) None))
                   (fst (_name_next_shard (length (shards w)) None)),
           or_else (snd (_name_next_shard (length (shards w))
                                          (Some "meta"%string)))
                   (fst (_name_next_shard (length (shards w))
                                          (Some "meta"%string)))), w') /\
    length (shards w') = S (length (shards w)) /\
    encoded_count w' = S (encoded_count w) /\
    submitted w' = submitted w /\
    is_shutdown (executor w') = is_shutdown (executor w).
Proof.
  unfold DualRow.describe_shard, bind, get, act, set_shards, modify, ret.
  cbn. eexists. split; [reflexivity|]. cbn. split; [|split; [|done]].
  - rewrite length_app. cbn. lia.
  - unfold encoded_count. cbn. rewrite !filter_app, !length_app. cbn.
    rewrite decide_True by done. rewrite !decide_False by done. cbn. lia.
Qed.

Lemma submit_open name w :
  is_shutdown (executor w) = false ->
  exists w',
    submit name w = (Ok tt, w') /\
    shards w' = shards w /\
    encoded_count w' = encoded_count w /\
    submitted w' = submitted w ++ [name] /\
    is_shutdown (executor w') = false.
Proof.
  intros Hsd. unfold submit, bind at 1, get. rewrite Hsd.
  eexists. split; [reflexivity|]. cbn. split; [done|]. split; [|split; [|done]].
  - rewrite filter_app, length_app. cbn. rewrite decide_False by done.
    cbn. unfold encoded_count. lia.
  - unfold submitted. cbn. by rewrite fmap_app.
Qed.

(** A call with the event unset and the pool open, whatever the pool
    does during it. *)
Lemma flush_shard_during_open before_data before_meta w :
  event w = false -> is_shutdown (executor w) = false ->
  exists w',
    flush_shard_during before_data before_meta w = (Ok tt, w') /\
    length (shards w') = S (length (shards w)) /\
    encoded_count w' = S (encoded_count w) /\
    submitted w' = submitted w ++ upload_names (length (shards w)) /\
    is_shutdown (executor w') = false.
Proof.
  intros Hev Hsd. unfold DualRow.flush_shard_during, bind at 1, get.
  rewrite Hev.
  destruct (describe_shard_open w) as (w1 & Hd & Hs1 & He1 & Hsub1 & Hsd1).
  rewrite (bind_ok _ _ _ _ _ Hd). cbn [fst snd].
  rewrite (bind_ok _ _ _ _ _
             (eq_refl : modify (run_pool before_data) w1
                        = (Ok tt, run_pool before_data w1))).
  destruct (run_pool_frame before_data w1) as (Hs2 & He2 & Hsub2 & Hsd2 & _).
  destruct (submit_open
              (or_else (snd (_name_next_shard (length (shards w)) None))
                       (fst (_name_next_shard (length (shards w)) None)))
              (run_pool before_data w1))
    as (w3 & Hsubmit3 & Hs3 & He3 & Hsub3 & Hsd3); [congruence|].
  rewrite (bind_ok _ _ _ _ _ Hsubmit3).
  rewrite (bind_ok _ _ _ _ _
             (eq_refl : modify (run_pool before_meta) w3
                        = (Ok tt, run_pool before_meta w3))).
  destruct (run_pool_frame before_meta w3) as (Hs4 & He4 & Hsub4 & Hsd4 & _).
  destruct (submit_open
              (or_else (snd (_name_next_shard (length (shards w))
                                              (Some "meta"%string)))
                       (fst (_name_next_shard (length (shards w))
                                              (Some "meta"%string))))
              (run_pool before_meta w3))
    as (w5 & Hsubmit5 & Hs5 & He5 & Hsub5 & Hsd5); [congruence|].
  exists w5. split; [exact Hsubmit5|]. split; [congruence|].
  split; [congruence|]. split; [|done].
  rewrite Hsub5, Hsub4, Hsub3, Hsub2, Hsub1, <- app_assoc. done.
Qed.

Lemma step_shutdown_event o w :
  (is_shutdown (executor w) = true -> event w = true) ->
  is_shutdown (executor (step o w)) = true -> event (step o w) = true.
Proof.
  intros Hinv. destruct (event w) eqn:Hev.
  { intros _. by apply step_event_set. }
  destruct (is_shutdown (executor w)) eqn:Hsd; [by discriminate Hinv|].
  destruct o as [|o|before_data before_meta]; cbn [DualRow.step].
  - destruct (flush_shard_open w Hev Hsd) as (obj & _ & ->). done.
  - destruct (pool_step_frame o w) as (_ & _ & _ & -> & _). congruence.
  - destruct (flush_shard_during_open before_data before_meta w Hev Hsd)
      as (w' & -> & _ & _ & _ & Hsd'). cbn [snd]. congruence.
Qed.

Lemma run_shutdown_event ops w :
  (is_shutdown (executor w) = true -> event w = true) ->
  is_shutdown (executor (run ops w)) = true -> event (run ops w) = true.
Proof.
  induction ops as [|o ops IH] using rev_ind; intros Hinv; [done|].
  rewrite run_snoc. by apply step_shutdown_event, IH.
Qed.

(** X25. [flush_shard] never fails: on a writer reached from a fresh one
    by flushes and pool steps it returns, because the pool is shut down
    only once the event is set, and with the event set nothing is
    submitted to it. *)
Theorem flush_shard_never_raises w0 ops :
  fresh w0 -> fst (flush_shard (run ops w0)) = Ok tt.
Proof.
  intros (Hev0 & _ & Hsd0).
  assert (Hinv : is_shutdown (executor (run ops w0)) = true ->
                 event (run ops w0) = true).
  { apply run_shutdown_event. congruence. }
  destruct (event (run ops w0)) eqn:Hev.
  - by rewrite flush_shard_event_set.
  - destruct (is_shutdown (executor (run ops w0))) eqn:Hsd;
      [by discriminate Hinv|].
    by destruct (flush_shard_open _ Hev Hsd) as (obj & _ & ->).
Qed.

Lemma step_in_step o w :
  (is_shutdown (executor w) = true -> event w = true) ->
  submitted w = concat (upload_names <$> seq 0 (length (shards w))) ->
  encoded_count w = length (shards w) ->
  submitted (step o w)
  = concat (upload_names <$> seq 0 (length (shards (step o w)))) /\
  encoded_count (step o w) = length (shards (step o w)).
Proof.
  intros Hinv Hsub Henc. destruct (event w) eqn:Hev.
  { destruct (step_event_set encode_dual_shard _name_next_shard _process_file
                get_config o w Hev) as (_ & -> & -> & ->). done. }
  destruct (is_shutdown (executor w)) eqn:Hsd; [by discriminate Hinv|].
  assert (Hcall : forall before_data before_meta,
    submitted (snd (flush_shard_during before_data before_meta w))
    = concat (upload_names
                <$> seq 0 (length (shards (snd (flush_shard_during
                                                  before_data before_meta w)))))
    /\ encoded_count (snd (flush_shard_during before_data before_meta w))
       = length (shards (snd (flush_shard_during before_data before_meta w)))).
  { intros before_data before_meta.
    destruct (flush_shard_during_open before_data before_meta w Hev Hsd)
      as (w' & -> & Hs' & He' & Hsub' & _). cbn [snd].
    rewrite Hs', He', Hsub', Henc. split; [|done].
    rewrite seq_S, fmap_app, concat_app, Hsub. cbn. reflexivity. }
  destruct o as [|o|before_data before_meta]; cbn [DualRow.step].
  - rewrite <- flush_shard_during_nil. apply Hcall.
  - by destruct (pool_step_frame o w) as (-> & -> & -> & _ & _).
  - apply Hcall.
Qed.

(** X26. The shards and the uploads stay in step: on a writer reached
    from a blank one by flushes and pool steps, the uploads submitted are
    exactly those of the shards described so far, in order (for shard [k]
    the data file, then the meta file, each under its compressed name if
    it has one), so two per shard; and each shard described was encoded
    once. *)
Theorem uploads_follow_shards w0 ops :
  blank w0 ->
  submitted (run ops w0)
  = concat (upload_names <$> seq 0 (length (shards (run ops w0)))) /\
  length (submitted (run ops w0)) = (2 * length (shards (run ops w0)))%nat /\
  encoded_count (run ops w0) = length (shards (run ops w0)).
Proof.
  intros ((Hev0 & Hf0 & Hsd0) & Hs0 & Ha0).
  assert (Hboth :
    submitted (run ops w0)
    = concat (upload_names <$> seq 0 (length (shards (run ops w0)))) /\
    encoded_count (run ops w0) = length (shards (run ops w0))).
  { induction ops as [|o ops IH] using rev_ind.
    - unfold DualRow.run, submitted, encoded_count. cbn.
      by rewrite Hf0, Hs0, Ha0.
    - rewrite run_snoc. destruct IH as [Hsub Henc].
      apply step_in_step; [|done..].
      apply run_shutdown_event. congruence. }
  destruct Hboth as [Hsub Henc]. split; [done|]. split; [|done].
  assert (Hlen : forall n k,
            length (concat (upload_names <$> seq k n)) = (n + n)%nat).
  { induction n as [|n IH]; intros k; [done|].
    cbn [seq fmap list_fmap concat]. rewrite length_app, IH.
    unfold DualRow.upload_names. cbn [length]. lia. }
  rewrite Hsub, Hlen. lia.
Qed.

End Flushing.

Lemma flush_shard_never_raises_witness :
  fst (flush_shard sample_encode sample_name sample_process_file []
         (run sample_encode sample_name sample_process_file []
              [Flush; Pool (Start 0); Pool (Finish 0 false); Pool (Callback 0);
               Flush] sample_writer))
  = Ok tt.
Proof.
  apply (flush_shard_never_raises sample_encode sample_name
           sample_process_file [] sample_writer
           [Flush; Pool (Start 0); Pool (Finish 0 false); Pool (Callback 0);
               Flush]).
  repeat split.
Defined.

Lemma uploads_follow_shards_witness :
  submitted (run sample_encode sample_name sample_process_file []
                 [Flush; Pool (Start 0); Flush] sample_writer)
  = concat (upload_names sample_name
              <$> seq 0 (length (shards
                   (run sample_encode sample_name sample_process_file []
                        [Flush; Pool (Start 0); Flush] sample_writer)))) /\
  length (submitted (run sample_encode sample_name sample_process_file []
                         [Flush; Pool (Start 0); Flush] sample_writer))
  = (2 * length (shards (run sample_encode sample_name sample_process_file []
                             [Flush; Pool (Start 0); Flush] sample_writer)))%nat /\
  encoded_count (run sample_encode sample_name sample_process_file []
                     [Flush; Pool (Start 0); Flush] sample_writer)
  = length (shards (run sample_encode sample_name sample_process_file []
                        [Flush; Pool (Start 0); Flush] sample_writer)).
Proof.
  apply (uploads_follow_shards sample_encode sample_name sample_process_file
           [] sample_writer [Flush; Pool (Start 0); Flush]).
  repeat split.
Defined.

End DualRowFacts.
